(** * Parse-tree visualiser: the Go parser package, embedded and verified

    The development follows the layout of the repository's [parser] package:
    - [Go]          the few functions of Go's [strings], [unicode], [regexp] and
                    [fmt] packages that the package calls, on byte strings;
    - [types_go]    the data structures of types.go;
    - [lexer_go]    lexer.go ([Tokenize], [readNumber], [readIdentifier]);
    - [grammar_go]  grammar.go ([ParseGrammar], [parseSymbols], [ValidateGrammar]);
    - [parser_go]   parser.go (the backtracking recursive-descent engine);
    - [replay]      the step-replay contract of the specification;
    - [scenarios]   the grammars and inputs of the worked examples;
    - [engine]      the outcomes of the engine as an inductive relation, and
                    the predicates of its invariants.
    The lemmas and the theorems follow the definitions.

    A Go [string] is a sequence of bytes: it is modelled by Rocq's [string]
    (a list of 8-bit [ascii]), so that the literal ["ε"] is the two bytes
    0xCE 0xB5 exactly as in the Go source.  Go's [int] is 64 bits wide; every
    [int] of the package is a length, an index below a length, or a counter
    incremented once per allocated node, so none can reach 2^63 and the
    wrap-around is not written out: indices are [nat], node ids are [Z]
    (the parent id of the root is the sentinel -1). *)

From Stdlib Require Import ZArith NArith String Ascii List Lia Bool DecimalString.
From stdpp Require Import gmap strings list.

Set Warnings "-register-all".

(* ===================================================================== *)
(** * Go library functions used by the package *)
(* ===================================================================== *)

Module Go.

(** The numeric value of a byte. *)
Definition code (c : ascii) : N := N_of_ascii c.

Definition inRange (lo hi n : N) : bool := ((lo <=? n) && (n <=? hi))%N.

(** [unicode.IsSpace(rune(ch))] for a byte [ch]: the conversion [rune(ch)]
    reads the byte as the Latin-1 code point of the same number, where the
    white-space characters are TAB..CR, SPACE, U+0085 and U+00A0. *)
Definition IsSpace (c : ascii) : bool :=
  let n := code c in
  inRange 9 13 n || (n =? 32)%N || (n =? 133)%N || (n =? 160)%N.

(** [unicode.IsDigit(rune(ch))] for a byte: the only decimal digits below
    U+0100 are '0'..'9'. *)
Definition IsDigit (c : ascii) : bool := inRange 48 57 (code c).

(** [unicode.IsLetter(rune(ch))] for a byte: the letters of Latin-1. *)
Definition IsLetter (c : ascii) : bool :=
  let n := code c in
  inRange 65 90 n || inRange 97 122 n
  || (n =? 170)%N || (n =? 181)%N || (n =? 186)%N
  || inRange 192 214 n || inRange 216 246 n || inRange 248 255 n.

(** [string(ch)] for a byte [ch]: Go converts an integer to the UTF-8
    encoding of the code point of that number, one byte below 0x80 and
    two bytes from 0x80 to 0xFF. *)
Definition StringOfByte (c : ascii) : string :=
  let n := code c in
  if (n <? 128)%N then String c EmptyString
  else String (ascii_of_N (192 + n / 64))
         (String (ascii_of_N (128 + n mod 64)) EmptyString).

(** Width in bytes of the Unicode white-space character encoded at the head
    of [s], 0 when [s] does not start with one.  The White_Space code points
    are U+0009..U+000D, U+0020, U+0085, U+00A0, U+1680, U+2000..U+200A,
    U+2028, U+2029, U+202F, U+205F and U+3000.  Their encodings start with an
    ASCII byte or a UTF-8 lead byte, never with a continuation byte, so a
    byte-wise scan meets them exactly where Go's rune decoder does. *)
Definition spaceWidth (s : string) : nat :=
  match s with
  | String c0 r0 =>
    let b0 := code c0 in
    if inRange 9 13 b0 || (b0 =? 32)%N then 1
    else match r0 with
    | String c1 r1 =>
      let b1 := code c1 in
      if (b0 =? 194)%N && ((b1 =? 133)%N || (b1 =? 160)%N) then 2
      else match r1 with
      | String c2 _ =>
        let b2 := code c2 in
        if (b0 =? 225)%N && (b1 =? 154)%N && (b2 =? 128)%N then 3
        else if (b0 =? 226)%N && (b1 =? 128)%N
                && (inRange 128 138 b2 || inRange 168 169 b2 || (b2 =? 175)%N) then 3
        else if (b0 =? 226)%N && (b1 =? 129)%N && (b2 =? 159)%N then 3
        else if (b0 =? 227)%N && (b1 =? 128)%N && (b2 =? 128)%N then 3
        else 0
      | EmptyString => 0
      end
    | EmptyString => 0
    end
  | EmptyString => 0
  end.

(** The same test on a reversed string: width of the white-space character
    whose encoding ends the original string ([utf8.DecodeLastRuneInString]). *)
Definition spaceWidthLast (rs : string) : nat :=
  match rs with
  | String c0 r0 =>
    let b0 := code c0 in
    if inRange 9 13 b0 || (b0 =? 32)%N then 1
    else match r0 with
    | String c1 r1 =>
      let b1 := code c1 in
      if (b1 =? 194)%N && ((b0 =? 133)%N || (b0 =? 160)%N) then 2
      else match r1 with
      | String c2 _ =>
        let b2 := code c2 in
        if (b2 =? 225)%N && (b1 =? 154)%N && (b0 =? 128)%N then 3
        else if (b2 =? 226)%N && (b1 =? 128)%N
                && (inRange 128 138 b0 || inRange 168 169 b0 || (b0 =? 175)%N) then 3
        else if (b2 =? 226)%N && (b1 =? 129)%N && (b0 =? 159)%N then 3
        else if (b2 =? 227)%N && (b1 =? 128)%N && (b0 =? 128)%N then 3
        else 0
      | EmptyString => 0
      end
    | EmptyString => 0
    end
  | EmptyString => 0
  end.

Fixpoint revAppend (s acc : string) : string :=
  match s with
  | EmptyString => acc
  | String c r => revAppend r (String c acc)
  end.

Definition reverse (s : string) : string := revAppend s EmptyString.

(** Drops white-space characters while [width] finds one at the head;
    [skip] counts the bytes of the current character still to drop. *)
Fixpoint trimWith (width : string -> nat) (skip : nat) (s : string) : string :=
  match s with
  | EmptyString => EmptyString
  | String _ r =>
    match skip with
    | S k => trimWith width k r
    | O => match width s with
           | O => s
           | S k => trimWith width k r
           end
    end
  end.

(** [strings.TrimSpace]: leading and trailing Unicode white space removed. *)
Definition TrimSpace (s : string) : string :=
  reverse (trimWith spaceWidthLast 0 (reverse (trimWith spaceWidth 0 s))).

(** [strings.HasPrefix(s, prefix)]. *)
Definition HasPrefix (s p : string) : bool := String.prefix p s.

(** [strings.Split(s, sep)] for a non-empty [sep] (the package splits on a
    newline and on a bar): the pieces between the non-overlapping
    occurrences of [sep], found left to right. *)
Fixpoint splitFrom (sep : string) (skip : nat) (cur : string) (s : string)
  : list string :=
  match s with
  | EmptyString => [cur]
  | String c r =>
    match skip with
    | S k => splitFrom sep k cur r
    | O => if String.prefix sep s
           then cur :: splitFrom sep (String.length sep - 1) EmptyString r
           else splitFrom sep 0 (cur +:+ String c EmptyString) r
    end
  end.

Definition Split (s sep : string) : list string := splitFrom sep 0 EmptyString s.

(** [strings.ReplaceAll(s, old, new)] for a non-empty [old]. *)
Fixpoint replaceFrom (old new : string) (skip : nat) (s : string) : string :=
  match s with
  | EmptyString => EmptyString
  | String c r =>
    match skip with
    | S k => replaceFrom old new k r
    | O => if String.prefix old s
           then new +:+ replaceFrom old new (String.length old - 1) r
           else String c (replaceFrom old new 0 r)
    end
  end.

Definition ReplaceAll (s old new : string) : string := replaceFrom old new 0 s.

(** [strings.Fields(s)]: the maximal runs of bytes free of Unicode white
    space, in order; never an empty field. *)
Definition flush (cur : string) : list string :=
  match cur with
  | EmptyString => []
  | _ => [cur]
  end.

Fixpoint fieldsFrom (skip : nat) (cur : string) (s : string) : list string :=
  match s with
  | EmptyString => flush cur
  | String c r =>
    match skip with
    | S k => fieldsFrom k cur r
    | O => match spaceWidth s with
           | O => fieldsFrom 0 (cur +:+ String c EmptyString) r
           | S k => flush cur ++ fieldsFrom k EmptyString r
           end
    end
  end.

Definition Fields (s : string) : list string := fieldsFrom 0 EmptyString s.

(** [strings.Join(elems, sep)]. *)
Fixpoint Join (elems : list string) (sep : string) : string :=
  match elems with
  | [] => EmptyString
  | [e] => e
  | e :: rest => e +:+ sep +:+ Join rest sep
  end.

(** [strings.ToLower] on the ASCII letters.  Its one use compares the result
    with the ASCII word [number]; a byte from 0x80 up can never contribute to
    such an equality (the only characters outside ASCII whose lower case is
    an ASCII letter give [i] and [k]), and it cannot here, where it is left
    as it is. *)
Definition lowerByte (c : ascii) : ascii :=
  if inRange 65 90 (code c) then ascii_of_N (code c + 32) else c.

Fixpoint ToLower (s : string) : string :=
  match s with
  | EmptyString => EmptyString
  | String c r => String (lowerByte c) (ToLower r)
  end.

(** The verb [%d] of [fmt.Sprintf] on an [int]. *)
Definition Itoa (z : Z) : string := NilZero.string_of_int (Z.to_int z).

(** The class [\s] of Go's regexp syntax: TAB, LF, FF, CR and SPACE. *)
Definition reSpace (c : ascii) : bool :=
  let n := code c in
  (n =? 9)%N || (n =? 10)%N || (n =? 12)%N || (n =? 13)%N || (n =? 32)%N.

Fixpoint skipReSpace (s : string) : string :=
  match s with
  | String c r => if reSpace c then skipReSpace r else s
  | EmptyString => EmptyString
  end.

(** A match of the regular expression [\s*->|→\s*] anchored at the head of
    [s]: the rest of [s] after the match.  The first alternative is a run of
    [\s] followed by [->]; as [-] is not in [\s] the run is the whole run at
    the head.  The second is the arrow followed by the longest run of [\s]
    (the star is greedy).  No string starts a match of both. *)
Definition arrowAt (s : string) : option string :=
  let s1 := skipReSpace s in
  if String.prefix "->" s1
  then Some (String.substring 2 (String.length s1 - 2) s1)
  else if String.prefix "→" s
  then Some (skipReSpace (String.substring 3 (String.length s - 3) s))
  else None.

(** [regexp.MustCompile(`\s*->|→\s*`).Split(line, 2)]: the text before and
    after the leftmost match, or the line alone when nothing matches. *)
Fixpoint arrowSplitFrom (before : string) (s : string) : list string :=
  match arrowAt s with
  | Some rest => [before; rest]
  | None =>
    match s with
    | EmptyString => [before]
    | String c r => arrowSplitFrom (before +:+ String c EmptyString) r
    end
  end.

Definition ArrowSplit2 (line : string) : list string :=
  arrowSplitFrom EmptyString line.

End Go.

(* ===================================================================== *)
(** * types.go *)
(* ===================================================================== *)

Module types_go.

(** [TokenType]: a string type in Go, of which only these constants exist. *)
Inductive TokenType : Set :=
  | TOKEN_NUMBER | TOKEN_PLUS | TOKEN_MINUS | TOKEN_MULT | TOKEN_DIV
  | TOKEN_LPAREN | TOKEN_RPAREN | TOKEN_EOF | TOKEN_EPSILON | TOKEN_IDENT
  | TOKEN_UNKNOWN.

#[global] Instance TokenType_eq_dec : EqDecision TokenType.
Proof. solve_decision. Defined.

(** [Token]; the field [Type] is spelled [Type_], [Type] being a keyword. *)
Record Token : Set := mkToken {
  Type_ : TokenType;
  Value : string;
  Position : Z
}.

(** [TreeNode].  Its field [Value] is left out: nothing in the package
    assigns or reads it, so it is the empty string in every node. *)
Inductive TreeNode : Set := mkTreeNode {
  ID : Z;
  Label : string;
  Children : list TreeNode;
  IsTerminal : bool
}.

(** [Step].  Its field [Tree] is left out for the same reason: it is [nil]
    in every step. *)
Record Step : Set := mkStep {
  Action : string;
  Description : string;
  NodeID : Z;
  ParentID : Z
}.

(** [ParseResult]; [Tree] is a pointer, [nil] unless the parse succeeds, and
    [Error] is the empty string unless it fails. *)
Record ParseResult : Set := mkParseResult {
  Success : bool;
  Tree : option TreeNode;
  Steps : list Step;
  Error : string;
  Tokens : list Token
}.

Record Production : Set := mkProduction {
  Head : string;
  Body : list (list string)
}.

(** [Grammar]: the three Go maps are finite maps; reading a key that a
    [map[string]bool] does not hold gives [false]. *)
Record Grammar : Type := mkGrammar {
  Productions : gmap string Production;
  StartSymbol : string;
  Terminals : gmap string bool;
  NonTerminals : gmap string bool
}.

Definition flag (m : gmap string bool) (k : string) : bool :=
  default false (m !! k).

Record ValidationResult : Set := mkValidationResult {
  Valid : bool;
  Errors : list string;
  Warnings : list string
}.

End types_go.

(* ===================================================================== *)
(** * lexer.go *)
(* ===================================================================== *)

Module lexer_go.
Import types_go.

Record Lexer : Set := mkLexer {
  input : string;
  pos : nat;
  tokens : list Token
}.

Definition NewLexer (input : string) : Lexer := mkLexer input 0 [].

(** A token other than the EOF token. *)
Definition notEOF (t : Token) : Prop := Type_ t <> TOKEN_EOF.

Definition setPos (l : Lexer) (p : nat) : Lexer := mkLexer (input l) p (tokens l).

Definition push (l : Lexer) (t : Token) : Lexer :=
  mkLexer (input l) (pos l) (tokens l ++ [t]).

(** [l.input[start:end]]. *)
Definition slice (s : string) (start stop : nat) : string :=
  String.substring start (stop - start) s.

(** The loop of [readNumber]: one iteration per unit of [fuel]; the callers
    give it the number of bytes left, which the loop cannot outlast. *)
Fixpoint readNumberLoop (fuel : nat) (hasDecimal : bool) (l : Lexer) : Lexer :=
  match fuel with
  | O => l
  | S fuel =>
    match String.get (pos l) (input l) with
    | None => l
    | Some ch =>
      if Go.IsDigit ch then readNumberLoop fuel hasDecimal (setPos l (S (pos l)))
      else if Ascii.eqb ch "." && negb hasDecimal
      then readNumberLoop fuel true (setPos l (S (pos l)))
      else l
    end
  end.

Definition readNumber (l : Lexer) : Token * Lexer :=
  let start := pos l in
  let l' := readNumberLoop (String.length (input l) - pos l) false l in
  (mkToken TOKEN_NUMBER (slice (input l') start (pos l')) (Z.of_nat start), l').

Definition identByte (ch : ascii) : bool :=
  Go.IsLetter ch || Go.IsDigit ch || Ascii.eqb ch "_" || Ascii.eqb ch "'".

Fixpoint readIdentifierLoop (fuel : nat) (l : Lexer) : Lexer :=
  match fuel with
  | O => l
  | S fuel =>
    match String.get (pos l) (input l) with
    | None => l
    | Some ch =>
      if identByte ch then readIdentifierLoop fuel (setPos l (S (pos l)))
      else l
    end
  end.

Definition readIdentifier (l : Lexer) : Token * Lexer :=
  let start := pos l in
  let l' := readIdentifierLoop (String.length (input l) - pos l) l in
  let value := slice (input l') start (pos l') in
  let tokenType :=
    if String.eqb (Go.ToLower value) "number" then TOKEN_NUMBER else TOKEN_IDENT in
  (mkToken tokenType value (Z.of_nat start), l').

(** The token of a byte that starts neither a number nor an identifier. *)
Definition singleToken (ch : ascii) (position : nat) : Token :=
  let p := Z.of_nat position in
  if Ascii.eqb ch "+" then mkToken TOKEN_PLUS "+" p
  else if Ascii.eqb ch "-" then mkToken TOKEN_MINUS "-" p
  else if Ascii.eqb ch "*" then mkToken TOKEN_MULT "*" p
  else if Ascii.eqb ch "/" then mkToken TOKEN_DIV "/" p
  else if Ascii.eqb ch "(" then mkToken TOKEN_LPAREN "(" p
  else if Ascii.eqb ch ")" then mkToken TOKEN_RPAREN ")" p
  else mkToken TOKEN_UNKNOWN (Go.StringOfByte ch) p.

(** The main loop of [Tokenize]. *)
Fixpoint TokenizeLoop (fuel : nat) (l : Lexer) : Lexer :=
  match fuel with
  | O => l
  | S fuel =>
    match String.get (pos l) (input l) with
    | None => l
    | Some ch =>
      if Go.IsSpace ch then TokenizeLoop fuel (setPos l (S (pos l)))
      else if Go.IsDigit ch then
        let '(t, l') := readNumber l in TokenizeLoop fuel (push l' t)
      else if Go.IsLetter ch then
        let '(t, l') := readIdentifier l in TokenizeLoop fuel (push l' t)
      else
        TokenizeLoop fuel (setPos (push l (singleToken ch (pos l))) (S (pos l)))
    end
  end.

(** [Tokenize]: the lexer is reset, the loop runs to the end of the input
    (every iteration consumes a byte, so [length input] iterations are
    enough: [TokenizeLoop_reaches_end]), and the EOF token is appended. *)
Definition Tokenize (l : Lexer) : list Token :=
  let l0 := mkLexer (input l) 0 [] in
  let l1 := TokenizeLoop (String.length (input l0)) l0 in
  tokens l1 ++ [mkToken TOKEN_EOF EmptyString (Z.of_nat (pos l1))].

End lexer_go.

(* ===================================================================== *)
(** * grammar.go *)
(* ===================================================================== *)

Module grammar_go.
Import types_go.

(** The test [symbol == "ε" || symbol == "epsilon"]. *)
Definition isEpsilon (symbol : string) : bool :=
  String.eqb symbol "ε" || String.eqb symbol "epsilon".

(** [parseSymbols]: both spellings of epsilon are replaced, wherever they
    occur in the body, by the character ε between two spaces; the result is
    cut at white space. *)
Definition parseSymbols (body : string) : list string :=
  let body := Go.ReplaceAll body "ε" " ε " in
  let body := Go.ReplaceAll body "epsilon" " ε " in
  let parts := Go.Fields body in
  foldl (fun symbols part =>
           let part := Go.TrimSpace part in
           if negb (String.eqb part EmptyString) then symbols ++ [part] else symbols)
        [] parts.

(** The loop over the alternatives of one line. *)
Definition parseAlternatives (alternatives : list string) : list (list string) :=
  foldl (fun bodies alt =>
           let alt := Go.TrimSpace alt in
           if String.eqb alt EmptyString then bodies
           else
             let symbols := parseSymbols alt in
             if (0 <? length symbols)%nat then bodies ++ [symbols] else bodies)
        [] alternatives.

(** The state of the loop over the lines: the grammar under construction
    and the flag [isFirst]. *)
Definition parseLine (st : Grammar * bool) (line : string) : Grammar * bool :=
  let '(grammar, isFirst) := st in
  let line := Go.TrimSpace line in
  if String.eqb line EmptyString || Go.HasPrefix line "//" || Go.HasPrefix line "#"
  then st
  else
    match Go.ArrowSplit2 line with
    | [part0; part1] =>
      let head := Go.TrimSpace part0 in
      if String.eqb head EmptyString then st
      else
        let nonTerminals := <[head := true]> (NonTerminals grammar) in
        let startSymbol := if isFirst then head else StartSymbol grammar in
        let bodies := parseAlternatives (Go.Split part1 "|") in
        let productions :=
          match Productions grammar !! head with
          | Some existing =>
            <[head := mkProduction (Head existing) (Body existing ++ bodies)]>
              (Productions grammar)
          | None => <[head := mkProduction head bodies]> (Productions grammar)
          end in
        (mkGrammar productions startSymbol (Terminals grammar) nonTerminals, false)
    | _ => st
    end.

(** The symbols of all bodies, production by production.  Go ranges over the
    map in an unspecified order; [map_to_list] fixes one. *)
Definition bodySymbols (productions : gmap string Production) : list string :=
  concat (map (fun kp => concat (Body (snd kp))) (map_to_list productions)).

Definition identifyTerminals (grammar : Grammar) : Grammar :=
  let terminals :=
    foldl (fun terminals symbol =>
             if negb (flag (NonTerminals grammar) symbol) && negb (isEpsilon symbol)
             then <[symbol := true]> terminals else terminals)
          (Terminals grammar) (bodySymbols (Productions grammar)) in
  mkGrammar (Productions grammar) (StartSymbol grammar) terminals
            (NonTerminals grammar).

(** The one-byte string of a line feed. *)
Definition newline : string := String (ascii_of_nat 10) EmptyString.

(** [ParseGrammar]; its [error] result is [nil] on every path and is left out. *)
Definition ParseGrammar (input : string) : Grammar :=
  let grammar := mkGrammar ∅ EmptyString ∅ ∅ in
  let lines := Go.Split input newline in
  identifyTerminals (fst (foldl parseLine (grammar, true) lines)).

Definition GetDefaultArithmeticGrammar : string :=
  "E  -> T E'" +:+ newline +:+
  "E' -> + T E' | - T E' | ε" +:+ newline +:+
  "T  -> F T'" +:+ newline +:+
  "T' -> * F T' | / F T' | ε" +:+ newline +:+
  "F  -> ( E ) | number".

(** The check for undefined non-terminals: one error per occurrence, in the
    order of the traversal. *)
Definition checkUndefined (grammar : Grammar) (result : ValidationResult)
  : ValidationResult :=
  foldl (fun result symbol =>
           if flag (NonTerminals grammar) symbol then
             match Productions grammar !! symbol with
             | None =>
               mkValidationResult false
                 (Errors result ++ ["Undefined non-terminal: " +:+ symbol])
                 (Warnings result)
             | Some _ => result
             end
           else result)
        result (bodySymbols (Productions grammar)).

(** The body of the loop over the alternatives in the check for direct left
    recursion: a warning when the alternative starts with its own head. *)
Definition warnAlternative (head : string) (result : ValidationResult)
  (alt : list string) : ValidationResult :=
  match alt with
  | first :: _ =>
    if String.eqb first head
    then mkValidationResult (Valid result) (Errors result)
           (Warnings result ++
              ["Potential left recursion in production: "
                 +:+ head +:+ " -> " +:+ Go.Join alt " "])
    else result
  | [] => result
  end.

(** The shallow check for direct left recursion: warnings only. *)
Definition checkLeftRecursion (grammar : Grammar) (result : ValidationResult)
  : ValidationResult :=
  foldl (fun result kp => foldl (warnAlternative (fst kp)) result (Body (snd kp)))
        result (map_to_list (Productions grammar)).

Definition ValidateGrammar (grammar : Grammar) : ValidationResult :=
  let result := mkValidationResult true [] [] in
  if String.eqb (StartSymbol grammar) EmptyString
  then mkValidationResult false (Errors result ++ ["No start symbol defined"])
         (Warnings result)
  else
    match Productions grammar !! StartSymbol grammar with
    | None =>
      mkValidationResult false (Errors result ++ ["Start symbol has no productions"])
        (Warnings result)
    | Some _ => checkLeftRecursion grammar (checkUndefined grammar result)
    end.

Definition isOperatorOrLiteral (symbol : string) : bool :=
  bool_decide (symbol ∈ ["+"; "-"; "*"; "/"; "("; ")"; "number"; "ε"; "epsilon"]).

(** The methods [IsTerminal] and [IsNonTerminal] of [Grammar] (the name
    [IsTerminal] alone is the field of [TreeNode]). *)
Definition Grammar_IsTerminal (g : Grammar) (symbol : string) : bool :=
  flag (Terminals g) symbol || isOperatorOrLiteral symbol.

Definition Grammar_IsNonTerminal (g : Grammar) (symbol : string) : bool :=
  flag (NonTerminals g) symbol.

(** Every registered non-terminal has an entry in [Productions], and so has
    the start symbol once it is set. *)
Definition headsDefined (g : Grammar) : Prop :=
  (forall k, flag (NonTerminals g) k = true -> is_Some (Productions g !! k)) /\
  (StartSymbol g <> EmptyString -> is_Some (Productions g !! StartSymbol g)).

End grammar_go.

(* ===================================================================== *)
(** * parser.go *)
(* ===================================================================== *)

Module parser_go.
Import types_go grammar_go.

Record Parser : Type := mkParser {
  grammar : Grammar;
  tokens : list Token;
  pos : nat;
  nodeID : Z;
  steps : list Step;
  recordSteps : bool
}.

Definition NewParser (grammar : Grammar) : Parser :=
  mkParser grammar [] 0 0 [] false.

(** The outcome of a method that returns a value and an [error] and changes
    the parser on the way: the parser after the call is part of the outcome.
    [OutOfFuel] stands for a recursion deeper than the fuel allows; Go has no
    such bound, and a recursion that never ends there (a left-recursive
    production) has no outcome at any fuel. *)
Inductive Res (A : Type) : Type :=
  | Ok (a : A) (p : Parser)
  | Err (msg : string) (p : Parser)
  | OutOfFuel.
Arguments Ok {A} a p.
Arguments Err {A} msg p.
Arguments OutOfFuel {A}.

Definition setPos (p : Parser) (n : nat) : Parser :=
  mkParser (grammar p) (tokens p) n (nodeID p) (steps p) (recordSteps p).

Definition setSteps (p : Parser) (s : list Step) : Parser :=
  mkParser (grammar p) (tokens p) (pos p) (nodeID p) s (recordSteps p).

Definition buildStepDescription (label : string) (isTerminal : bool) : string :=
  if isTerminal then
    if String.eqb label "ε" then "Match epsilon (empty string)"
    else "Match terminal '" +:+ label +:+ "'"
  else "Expand non-terminal <" +:+ label +:+ ">".

Definition createNode (label : string) (isTerminal : bool) (parentID : Z)
  (p : Parser) : TreeNode * Parser :=
  let id := (nodeID p + 1)%Z in
  let node := mkTreeNode id label [] isTerminal in
  let steps' :=
    if recordSteps p
    then steps p ++ [mkStep "add" (buildStepDescription label isTerminal)
                            id parentID]
    else steps p in
  (node, mkParser (grammar p) (tokens p) (pos p) id steps' (recordSteps p)).

Definition current (p : Parser) : Token :=
  match tokens p !! pos p with
  | Some t => t
  | None => mkToken TOKEN_EOF EmptyString (Z.of_nat (pos p))
  end.

Definition advance (p : Parser) : Parser :=
  if (pos p <? length (tokens p))%nat then setPos p (S (pos p)) else p.

Definition isTerminal (p : Parser) (symbol : string) : bool :=
  if flag (Terminals (grammar p)) symbol then true
  else bool_decide
         (symbol ∈ ["number"; "+"; "-"; "*"; "/"; "("; ")"; "ε"; "epsilon"]).

(** The [switch] of [matchTerminal]. *)
Definition matches (symbol : string) (token : Token) : bool :=
  if String.eqb symbol "number" then bool_decide (Type_ token = TOKEN_NUMBER)
  else if String.eqb symbol "+" then bool_decide (Type_ token = TOKEN_PLUS)
  else if String.eqb symbol "-" then bool_decide (Type_ token = TOKEN_MINUS)
  else if String.eqb symbol "*" then bool_decide (Type_ token = TOKEN_MULT)
  else if String.eqb symbol "/" then bool_decide (Type_ token = TOKEN_DIV)
  else if String.eqb symbol "(" then bool_decide (Type_ token = TOKEN_LPAREN)
  else if String.eqb symbol ")" then bool_decide (Type_ token = TOKEN_RPAREN)
  else String.eqb (Value token) symbol.

(** The error of [matchTerminal] on a mismatch. *)
Definition expectedError (symbol : string) (token : Token) : string :=
  "expected '" +:+ symbol +:+ "', got '" +:+ Value token
    +:+ "' at position " +:+ Go.Itoa (Position token).

Definition matchTerminal (symbol : string) (parentID : Z) (p : Parser)
  : Res TreeNode :=
  let token := current p in
  if negb (matches symbol token) then Err (expectedError symbol token) p
  else
    let displayValue := Value token in
    let '(node, p) := createNode displayValue true parentID p in
    Ok node (advance p).

(** The loop of [parseAlternative]; [parseNT] is the method
    [parseNonTerminal] that it calls back. *)
Fixpoint parseSymbolsLoop (parseNT : string -> Z -> Parser -> Res TreeNode)
  (symbols : list string) (parentID : Z) (children : list TreeNode) (p : Parser)
  : Res (list TreeNode) :=
  match symbols with
  | [] => Ok children p
  | symbol :: rest =>
    if isEpsilon symbol then
      let '(epsilonNode, p) := createNode "ε" true parentID p in
      parseSymbolsLoop parseNT rest parentID (children ++ [epsilonNode]) p
    else if isTerminal p symbol then
      match matchTerminal symbol parentID p with
      | Ok termNode p =>
        parseSymbolsLoop parseNT rest parentID (children ++ [termNode]) p
      | Err msg p => Err msg p
      | OutOfFuel => OutOfFuel
      end
    else
      match parseNT symbol parentID p with
      | Ok subtree p =>
        parseSymbolsLoop parseNT rest parentID (children ++ [subtree]) p
      | Err msg p => Err msg p
      | OutOfFuel => OutOfFuel
      end
  end.

(** The error of [parseNonTerminal] when no alternative is left. *)
Definition noMatchError (symbol : string) (p : Parser) : string :=
  "no matching production for " +:+ symbol +:+ " at position "
    +:+ Go.Itoa (Z.of_nat (pos p)) +:+ " (found '" +:+ Value (current p) +:+ "')".

(** The parser as [parseNonTerminal] leaves it after a failed alternative:
    [p.pos = savedPos] and [p.steps = p.steps[:savedStepsLen]]. *)
Definition backtrack (savedPos savedStepsLen : nat) (p : Parser) : Parser :=
  setSteps (setPos p savedPos) (take savedStepsLen (steps p)).

(** The loop of [parseNonTerminal] over the alternatives of a production. *)
Fixpoint tryAlternatives
  (parseAlt : list string -> Z -> Parser -> Res (list TreeNode))
  (symbol : string) (node : TreeNode) (alts : list (list string)) (p : Parser)
  : Res TreeNode :=
  match alts with
  | [] => Err (noMatchError symbol p) p
  | alt :: rest =>
    let savedPos := pos p in
    let savedStepsLen := length (steps p) in
    match parseAlt alt (ID node) p with
    | Ok children p =>
      Ok (mkTreeNode (ID node) (Label node) children (IsTerminal node)) p
    | Err _ p =>
      tryAlternatives parseAlt symbol node rest (backtrack savedPos savedStepsLen p)
    | OutOfFuel => OutOfFuel
    end
  end.

Fixpoint parseNonTerminal (fuel : nat) (symbol : string) (parentID : Z)
  (p : Parser) {struct fuel} : Res TreeNode :=
  match fuel with
  | O => OutOfFuel
  | S fuel =>
    match Productions (grammar p) !! symbol with
    | None => Err ("undefined non-terminal: " +:+ symbol) p
    | Some prod =>
      let '(node, p) := createNode symbol false parentID p in
      tryAlternatives
        (fun symbols parentID p =>
           parseSymbolsLoop (parseNonTerminal fuel) symbols parentID [] p)
        symbol node (Body prod) p
    end
  end.

Definition parseAlternative (fuel : nat) (symbols : list string) (parentID : Z)
  (p : Parser) : Res (list TreeNode) :=
  parseSymbolsLoop (parseNonTerminal fuel) symbols parentID [] p.

(** The error of [Parse] on input left over. *)
Definition unexpectedError (token : Token) : string :=
  "Unexpected token '" +:+ Value token +:+ "' at position "
    +:+ Go.Itoa (Position token).

(** The first statements of [Parse]: the input is tokenized and the fields
    of the parser are reset. *)
Definition reset (p : Parser) (input : string) (recordSteps : bool) : Parser :=
  let lexer := lexer_go.NewLexer input in
  mkParser (grammar p) (lexer_go.Tokenize lexer) 0 0 [] recordSteps.

(** [Parse]: the result and the parser as the call leaves it; [None] when the
    recursion is deeper than [fuel]. *)
Definition Parse (fuel : nat) (p : Parser) (input : string) (recordSteps : bool)
  : option (ParseResult * Parser) :=
  let p := reset p input recordSteps in
  let result := mkParseResult true None [] EmptyString (tokens p) in
  if String.eqb (StartSymbol (grammar p)) EmptyString then
    Some (mkParseResult false None (Steps result) "Grammar has no start symbol"
            (Tokens result), p)
  else
    match parseNonTerminal fuel (StartSymbol (grammar p)) (-1) p with
    | OutOfFuel => None
    | Err msg p =>
      Some (mkParseResult false None (Steps result) msg (Tokens result), p)
    | Ok tree p =>
      if negb (bool_decide (Type_ (current p) = TOKEN_EOF)) then
        Some (mkParseResult false None (Steps result)
                (unexpectedError (current p)) (Tokens result), p)
      else
        Some (mkParseResult true (Some tree) (steps p) EmptyString
                (Tokens result), p)
    end.

Definition ParseWithDefaultGrammar (fuel : nat) (input : string)
  (recordSteps : bool) : option (ParseResult * Parser) :=
  let grammar := ParseGrammar GetDefaultArithmeticGrammar in
  Parse fuel (NewParser grammar) input recordSteps.

#[global] Arguments createNode : simpl never.
#[global] Arguments matchTerminal : simpl never.
#[global] Arguments backtrack : simpl never.
#[global] Arguments current : simpl never.
#[global] Arguments advance : simpl never.
#[global] Arguments isTerminal : simpl never.
#[global] Arguments buildStepDescription : simpl never.
#[global] Arguments expectedError : simpl never.
#[global] Arguments noMatchError : simpl never.
#[global] Arguments unexpectedError : simpl never.

End parser_go.

(* ===================================================================== *)
(** * The step-replay contract *)
(* ===================================================================== *)

(** The specification's contract for a renderer: the steps are read in
    order; each creates a node with the id of the step, whose label and
    terminal flag are read off the description, and the node is attached as
    the last child of the node whose id is the parent id of the step, or is
    a root when the parent id is the sentinel. *)
Module replay.
Import types_go.

Definition sentinel : Z := (-1)%Z.

Fixpoint stripPrefix (prefix s : string) : option string :=
  match prefix, s with
  | EmptyString, _ => Some s
  | String a p', String b s' => if Ascii.eqb a b then stripPrefix p' s' else None
  | String _ _, EmptyString => None
  end.

(** A string cut before its last byte. *)
Fixpoint splitLast (s : string) : option (string * ascii) :=
  match s with
  | EmptyString => None
  | String c EmptyString => Some (EmptyString, c)
  | String c r =>
    match splitLast r with
    | Some (init, z) => Some (String c init, z)
    | None => None
    end
  end.

Definition stripSuffixByte (z : ascii) (s : string) : option string :=
  match splitLast s with
  | Some (init, c) => if Ascii.eqb c z then Some init else None
  | None => None
  end.

(** Label and terminal flag of the node that a description announces. *)
Definition readDescription (d : string) : option (string * bool) :=
  if String.eqb d "Match epsilon (empty string)" then Some ("ε", true)
  else
    match stripPrefix "Match terminal '" d with
    | Some r =>
      match stripSuffixByte "'" r with
      | Some label => Some (label, true)
      | None => None
      end
    | None =>
      match stripPrefix "Expand non-terminal <" d with
      | Some r =>
        match stripSuffixByte ">" r with
        | Some label => Some (label, false)
        | None => None
        end
      | None => None
      end
    end.

Definition nodeOfStep (s : Step) : option TreeNode :=
  match readDescription (Description s) with
  | Some (label, isTerminal) => Some (mkTreeNode (NodeID s) label [] isTerminal)
  | None => None
  end.

(** [attach parent n t]: [n] becomes the last child of the first node of
    [t], in document order, whose id is [parent]; [None] when [t] has no
    such node. *)
Fixpoint attach (parent : Z) (n : TreeNode) (t : TreeNode) : option TreeNode :=
  if (ID t =? parent)%Z
  then Some (mkTreeNode (ID t) (Label t) (Children t ++ [n]) (IsTerminal t))
  else
    match
      (fix attachList (ts : list TreeNode) : option (list TreeNode) :=
         match ts with
         | [] => None
         | t' :: rest =>
           match attach parent n t' with
           | Some t'' => Some (t'' :: rest)
           | None =>
             match attachList rest with
             | Some rest' => Some (t' :: rest')
             | None => None
             end
           end
         end) (Children t)
    with
    | Some cs => Some (mkTreeNode (ID t) (Label t) cs (IsTerminal t))
    | None => None
    end.

Fixpoint attachForest (parent : Z) (n : TreeNode) (ts : list TreeNode)
  : option (list TreeNode) :=
  match ts with
  | [] => None
  | t :: rest =>
    match attach parent n t with
    | Some t' => Some (t' :: rest)
    | None =>
      match attachForest parent n rest with
      | Some rest' => Some (t :: rest')
      | None => None
      end
    end
  end.

(** One step applied to the forest built so far. *)
Definition replayStep (forest : list TreeNode) (s : Step) : option (list TreeNode) :=
  match nodeOfStep s with
  | None => None
  | Some n =>
    if (ParentID s =? sentinel)%Z then Some (forest ++ [n])
    else attachForest (ParentID s) n forest
  end.

Fixpoint replayFrom (forest : list TreeNode) (steps : list Step)
  : option (list TreeNode) :=
  match steps with
  | [] => Some forest
  | s :: rest =>
    match replayStep forest s with
    | Some forest' => replayFrom forest' rest
    | None => None
    end
  end.

(** The tree that the whole log reconstructs, when it reconstructs one. *)
Definition replay (steps : list Step) : option TreeNode :=
  match replayFrom [] steps with
  | Some [t] => Some t
  | _ => None
  end.

(** Two trees of the same shape, labels and terminal flags; the ids are
    free. *)
Inductive isomorphic : TreeNode -> TreeNode -> Prop :=
  | iso_node i j label isTerminal cs ds :
      Forall2 isomorphic cs ds ->
      isomorphic (mkTreeNode i label cs isTerminal)
                 (mkTreeNode j label ds isTerminal).

(** The ids of a tree and the steps that announce it, both in document
    order (a node before its children, the children left to right). *)
Fixpoint idsOf (t : TreeNode) : list Z :=
  ID t :: (fix idsOfList (ts : list TreeNode) : list Z :=
             match ts with
             | [] => []
             | t' :: rest => idsOf t' ++ idsOfList rest
             end) (Children t).

Definition idsOfForest (ts : list TreeNode) : list Z := concat (map idsOf ts).

Fixpoint stepsOf (parent : Z) (t : TreeNode) : list Step :=
  mkStep "add" (parser_go.buildStepDescription (Label t) (IsTerminal t))
         (ID t) parent
  :: (fix stepsOfList (ts : list TreeNode) : list Step :=
        match ts with
        | [] => []
        | t' :: rest => stepsOf (ID t) t' ++ stepsOfList rest
        end) (Children t).

Definition stepsOfForest (parent : Z) (ts : list TreeNode) : list Step :=
  concat (map (stepsOf parent) ts).

(** The trees [cs] attached one after the other under the node [parent]. *)
Fixpoint attachAll (parent : Z) (cs : list TreeNode) (forest : list TreeNode)
  : option (list TreeNode) :=
  match cs with
  | [] => Some forest
  | c :: rest =>
    match attachForest parent c forest with
    | Some forest' => attachAll parent rest forest'
    | None => None
    end
  end.

End replay.

(* ===================================================================== *)
(** * Grammars and inputs of the scenarios *)
(* ===================================================================== *)

Module scenarios.
Import types_go grammar_go parser_go.

(** A fresh parser on the default arithmetic grammar. *)
Definition defaultParser : Parser :=
  NewParser (ParseGrammar GetDefaultArithmeticGrammar).

(** The grammar of scenario 6, [F -> number]. *)
Definition numberParser : Parser := NewParser (ParseGrammar "F -> number").

(** A production with two alternatives that start alike, [S -> a b | a c],
    and the parser on the input [a c] at the point where [parseNonTerminal]
    has created the node of [S] and enters its loop. *)
Definition abParser : Parser := NewParser (ParseGrammar "S -> a b | a c").

Definition abNode : TreeNode :=
  fst (createNode "S" false (-1) (reset abParser "a c" true)).

Definition abStart : Parser :=
  snd (createNode "S" false (-1) (reset abParser "a c" true)).

(** A grammar whose second head has no body. *)
Definition emptyHeadGrammar : string := "S -> X" +:+ newline +:+ "X ->".

(** A fresh parser on a grammar whose start symbol is directly left
    recursive in its first alternative. *)
Definition leftRecursiveParser : Parser := NewParser (ParseGrammar "S -> S a | b").

End scenarios.

(* ===================================================================== *)
(** * The engine as a relation *)
(* ===================================================================== *)

(** The outcomes of the three mutually recursive parts of the engine, read
    off their code: every outcome that the functions of [parser_go] compute
    at some fuel is derivable here ([parseNonTerminal_eval]), and the
    invariants of the engine are proved by induction on the derivations. *)
Module engine.
Import types_go grammar_go parser_go.

Inductive evalNT : string -> Z -> Parser -> Res TreeNode -> Prop :=
  | evalNT_undefined symbol parentID p :
      Productions (grammar p) !! symbol = None ->
      evalNT symbol parentID p (Err ("undefined non-terminal: " +:+ symbol) p)
  | evalNT_defined symbol parentID p prod r :
      Productions (grammar p) !! symbol = Some prod ->
      evalTry symbol (fst (createNode symbol false parentID p)) (Body prod)
              (snd (createNode symbol false parentID p)) r ->
      evalNT symbol parentID p r
with evalTry : string -> TreeNode -> list (list string) -> Parser
               -> Res TreeNode -> Prop :=
  | evalTry_none symbol node p :
      evalTry symbol node [] p (Err (noMatchError symbol p) p)
  | evalTry_first symbol node alt rest p children p' :
      evalLoop alt (ID node) [] p (Ok children p') ->
      evalTry symbol node (alt :: rest) p
              (Ok (mkTreeNode (ID node) (Label node) children (IsTerminal node)) p')
  | evalTry_next symbol node alt rest p msg p' r :
      evalLoop alt (ID node) [] p (Err msg p') ->
      evalTry symbol node rest (backtrack (pos p) (length (steps p)) p') r ->
      evalTry symbol node (alt :: rest) p r
with evalLoop : list string -> Z -> list TreeNode -> Parser
                -> Res (list TreeNode) -> Prop :=
  | evalLoop_done parentID children p :
      evalLoop [] parentID children p (Ok children p)
  | evalLoop_epsilon symbol rest parentID children p r :
      isEpsilon symbol = true ->
      evalLoop rest parentID (children ++ [fst (createNode "ε" true parentID p)])
               (snd (createNode "ε" true parentID p)) r ->
      evalLoop (symbol :: rest) parentID children p r
  | evalLoop_match symbol rest parentID children p node p1 r :
      isEpsilon symbol = false ->
      isTerminal p symbol = true ->
      matchTerminal symbol parentID p = Ok node p1 ->
      evalLoop rest parentID (children ++ [node]) p1 r ->
      evalLoop (symbol :: rest) parentID children p r
  | evalLoop_mismatch symbol rest parentID children p msg p1 :
      isEpsilon symbol = false ->
      isTerminal p symbol = true ->
      matchTerminal symbol parentID p = Err msg p1 ->
      evalLoop (symbol :: rest) parentID children p (Err msg p1)
  | evalLoop_expand symbol rest parentID children p subtree p1 r :
      isEpsilon symbol = false ->
      isTerminal p symbol = false ->
      evalNT symbol parentID p (Ok subtree p1) ->
      evalLoop rest parentID (children ++ [subtree]) p1 r ->
      evalLoop (symbol :: rest) parentID children p r
  | evalLoop_fail symbol rest parentID children p msg p1 :
      isEpsilon symbol = false ->
      isTerminal p symbol = false ->
      evalNT symbol parentID p (Err msg p1) ->
      evalLoop (symbol :: rest) parentID children p (Err msg p1).


(** The parser that an outcome leaves behind. *)
Definition outcome {A : Type} (r : Res A) : option Parser :=
  match r with
  | Ok _ p => Some p
  | Err _ p => Some p
  | OutOfFuel => None
  end.

(** What any part of the engine may do to the parser: the grammar, the
    tokens and the recording flag stay, the node counter does not decrease,
    and the step log keeps what it held. *)
Definition extends (p p' : Parser) : Prop :=
  grammar p' = grammar p /\ tokens p' = tokens p /\
  recordSteps p' = recordSteps p /\ (nodeID p <= nodeID p')%Z /\
  exists extra, steps p' = steps p ++ extra.

(** A strictly increasing list of ids, above [lo] and up to [hi]. *)
Fixpoint chain (lo : Z) (ids : list Z) (hi : Z) : Prop :=
  match ids with
  | [] => (lo <= hi)%Z
  | i :: rest => (lo < i)%Z /\ chain i rest hi
  end.

(** The token sequence ends with the EOF token of empty text. *)
Definition endsWithEOF (toks : list Token) : Prop :=
  exists init n, toks = init ++ [mkToken TOKEN_EOF EmptyString n].

(** The cursor is on a token of the sequence. *)
Definition inBounds (p : Parser) : Prop := pos p < length (tokens p).

(** No symbol of a production body is the empty string. *)
Definition symbolsNonEmpty (g : Grammar) : Prop :=
  map_Forall (fun _ prod => Forall (Forall (fun s => s <> EmptyString)) (Body prod))
             (Productions g).

(** A message of the two kinds that report a terminal not found under the
    cursor: the error of [matchTerminal], and the error of [parseNonTerminal]
    when its alternatives are exhausted. *)
Definition UnmatchedTerminalError (msg : string) : Prop :=
  (exists symbol token, msg = expectedError symbol token) \/
  (exists symbol p, msg = noMatchError symbol p).

(** Mutual induction on the derivations. *)
Scheme evalNT_mind := Minimality for evalNT Sort Prop
  with evalTry_mind := Minimality for evalTry Sort Prop
  with evalLoop_mind := Minimality for evalLoop Sort Prop.
Combined Scheme eval_mutind from evalNT_mind, evalTry_mind, evalLoop_mind.

End engine.

(* ===================================================================== *)
(** * The rest of the package, and the application methods *)
(* ===================================================================== *)

(** [GetTokenTypeName] of lexer.go and [TreeToString] of parser.go. *)
Module names_go.
Import types_go.

(** The string that a [TokenType] is: the constants of types.go. *)
Definition TokenTypeString (t : TokenType) : string :=
  match t with
  | TOKEN_NUMBER => "NUMBER"
  | TOKEN_PLUS => "PLUS"
  | TOKEN_MINUS => "MINUS"
  | TOKEN_MULT => "MULT"
  | TOKEN_DIV => "DIV"
  | TOKEN_LPAREN => "LPAREN"
  | TOKEN_RPAREN => "RPAREN"
  | TOKEN_EOF => "EOF"
  | TOKEN_EPSILON => "EPSILON"
  | TOKEN_IDENT => "IDENT"
  | TOKEN_UNKNOWN => "UNKNOWN"
  end.

(** [GetTokenTypeName]; the name of [TOKEN_EPSILON] is the four bytes
    0xC3 0x8E 0xC2 0xB5 that the source file holds there. *)
Definition GetTokenTypeName (t : TokenType) : string :=
  match t with
  | TOKEN_NUMBER => "number"
  | TOKEN_PLUS => "+"
  | TOKEN_MINUS => "-"
  | TOKEN_MULT => "*"
  | TOKEN_DIV => "/"
  | TOKEN_LPAREN => "("
  | TOKEN_RPAREN => ")"
  | TOKEN_EOF => "EOF"
  | TOKEN_EPSILON => "Îµ"
  | _ => TokenTypeString t
  end.

(** [TreeToString] on a node that is not [nil]: the line of the node, then
    its children, two spaces deeper. *)
Fixpoint TreeToString (node : TreeNode) (indent : string) : string :=
  indent
  +:+ (if IsTerminal node
       then "'" +:+ Label node +:+ "'" +:+ grammar_go.newline
       else "<" +:+ Label node +:+ ">" +:+ grammar_go.newline)
  +:+ (fix children (cs : list TreeNode) : string :=
         match cs with
         | [] => EmptyString
         | c :: rest => TreeToString c (indent +:+ "  ") +:+ children rest
         end) (Children node).

(** [TreeToString] on a pointer: the empty string for [nil]. *)
Definition TreeToStringPtr (node : option TreeNode) (indent : string) : string :=
  match node with
  | None => EmptyString
  | Some n => TreeToString n indent
  end.

End names_go.

(** app.go: the methods that the user interface calls.  A [nil] slice and an
    empty slice are both the empty list. *)
Module app_go.
Import types_go grammar_go parser_go.

(** The loop that joins the validation errors with a semicolon. *)
Definition validationMessage (errors : list string) : string :=
  fst (foldl (fun st e =>
                let '(errMsg, i) := st in
                ((if (0 <? i)%nat then errMsg +:+ "; " else errMsg) +:+ e, S i))
             ("Grammar validation failed: ", 0) errors).

(** The result of both parsing methods when the grammar is not valid. *)
Definition validationFailure (validation : ValidationResult) : ParseResult :=
  mkParseResult false None [] (validationMessage (Errors validation)) [].

Definition ParseString (fuel : nat) (grammarText input : string)
  : option ParseResult :=
  let grammar := ParseGrammar grammarText in
  let validation := ValidateGrammar grammar in
  if negb (Valid validation) then Some (validationFailure validation)
  else fst <$> Parse fuel (NewParser grammar) input false.

Definition ParseStepByStep (fuel : nat) (grammarText input : string)
  : option ParseResult :=
  let grammar := ParseGrammar grammarText in
  let validation := ValidateGrammar grammar in
  if negb (Valid validation) then Some (validationFailure validation)
  else fst <$> Parse fuel (NewParser grammar) input true.

Definition App_ValidateGrammar (grammarText : string) : ValidationResult :=
  ValidateGrammar (ParseGrammar grammarText).

Definition GetDefaultGrammar : string := GetDefaultArithmeticGrammar.

Definition GetTokens (input : string) : list Token :=
  lexer_go.Tokenize (lexer_go.NewLexer input).

End app_go.

(** The notions in which the further properties are stated. *)
Module notions.
Import types_go grammar_go parser_go.

(** A parser with recording off and an empty log, otherwise the same. *)
Definition silent (p : Parser) : Parser :=
  mkParser (grammar p) (tokens p) (pos p) (nodeID p) [] false.

Definition silentRes {A : Type} (r : Res A) : Res A :=
  match r with
  | Ok a p => Ok a (silent p)
  | Err msg p => Err msg (silent p)
  | OutOfFuel => OutOfFuel
  end.

(** The result without its step log. *)
Definition withoutSteps (r : ParseResult) : ParseResult :=
  mkParseResult (Success r) (Tree r) [] (Error r) (Tokens r).

(** The fringe of a tree: the labels of its terminal leaves from left to
    right, the ε leaves left out. *)
Fixpoint yield (t : TreeNode) : list string :=
  if IsTerminal t
  then (if String.eqb (Label t) "ε" then [] else [Label t])
  else (fix yields (ts : list TreeNode) : list string :=
          match ts with
          | [] => []
          | t' :: rest => yield t' ++ yields rest
          end) (Children t).

Definition yieldForest (ts : list TreeNode) : list string := concat (map yield ts).

(** The number of nodes of a tree. *)
Fixpoint size (t : TreeNode) : nat :=
  S ((fix sizes (ts : list TreeNode) : nat :=
        match ts with
        | [] => 0
        | t' :: rest => size t' + sizes rest
        end) (Children t)).

(** Only an identifier token may have the text ε. *)
Definition epsilonIsIdent (t : Token) : Prop :=
  Type_ t <> TOKEN_IDENT -> Value t <> "ε".

(** The tokens from index [from] up to index [to], the latter excluded. *)
Definition between {A : Type} (from to : nat) (l : list A) : list A :=
  take (to - from) (drop from l).

(** Nothing but white space on the bytes of [s] from offset [lo] up to
    offset [hi], the latter excluded. *)
Definition blank (s : string) (lo hi : nat) : Prop :=
  forall i, lo <= i < hi ->
    exists ch, String.get i s = Some ch /\ Go.IsSpace ch = true.

(** The token [t] lies on the [w] bytes of [s] from offset [n]: its position
    is [n], the byte there is not white space, and its text is these bytes;
    but an UNKNOWN token lies on one byte and its text is [string(ch)] of
    that byte. *)
Definition located (s : string) (n w : nat) (t : Token) : Prop :=
  Position t = Z.of_nat n /\ 0 < w /\ n + w <= String.length s /\
  Type_ t <> TOKEN_EOF /\
  exists ch, String.get n s = Some ch /\ Go.IsSpace ch = false /\
    if decide (Type_ t = TOKEN_UNKNOWN)
    then w = 1 /\ Value t = Go.StringOfByte ch
    else Value t = String.substring n w s.

(** The tokens [toks] tile the bytes of [s] from offset [lo] to offset [hi]:
    in order, without overlap, with nothing but white space before, between
    and after them. *)
Fixpoint tiled (s : string) (lo : nat) (toks : list Token) (hi : nat) : Prop :=
  match toks with
  | [] => lo <= hi /\ blank s lo hi
  | t :: rest =>
    exists n w, lo <= n /\ blank s lo n /\ located s n w t /\
                tiled s (n + w) rest hi
  end.

(** Digits with at most one decimal point among them, none when
    [hasDecimal] is set. *)
Fixpoint numeral (hasDecimal : bool) (s : string) : bool :=
  match s with
  | EmptyString => true
  | String c r =>
    if Go.IsDigit c then numeral hasDecimal r
    else Ascii.eqb c "." && negb hasDecimal && numeral true r
  end.

(** Bytes of identifiers only: letters, digits, underscores and
    apostrophes. *)
Fixpoint word (s : string) : bool :=
  match s with
  | EmptyString => true
  | String c r => lexer_go.identByte c && word r
  end.

(** The text of a number token is a numeral that starts with a digit, or
    else a word that spells number in some letter case; the text of an
    identifier token is a word that starts with a letter and does not spell
    number. *)
Definition shapeOK (t : Token) : Prop :=
  match Type_ t with
  | TOKEN_NUMBER =>
    (exists c rest, Value t = String c rest /\ Go.IsDigit c = true /\
       numeral false (Value t) = true) \/
    (exists c rest, Value t = String c rest /\ Go.IsLetter c = true /\
       word (Value t) = true /\ Go.ToLower (Value t) = "number")
  | TOKEN_IDENT =>
    exists c rest, Value t = String c rest /\ Go.IsLetter c = true /\
      word (Value t) = true /\ Go.ToLower (Value t) <> "number"
  | _ => True
  end.

(** The number of line feeds in a string. *)
Fixpoint newlines (s : string) : nat :=
  match s with
  | EmptyString => 0
  | String c r => (if Ascii.eqb c (ascii_of_nat 10) then 1 else 0) + newlines r
  end.

(** No label of the tree holds a line feed. *)
Fixpoint oneLineLabels (t : TreeNode) : bool :=
  (newlines (Label t) =? 0)%nat
  && (fix all (ts : list TreeNode) : bool :=
        match ts with
        | [] => true
        | t' :: rest => oneLineLabels t' && all rest
        end) (Children t).

(** The kind of a token agrees with its text. *)
Definition kindOK (t : Token) : Prop :=
  match Type_ t with
  | TOKEN_PLUS => Value t = "+"
  | TOKEN_MINUS => Value t = "-"
  | TOKEN_MULT => Value t = "*"
  | TOKEN_DIV => Value t = "/"
  | TOKEN_LPAREN => Value t = "("
  | TOKEN_RPAREN => Value t = ")"
  | TOKEN_EOF => Value t = EmptyString
  | TOKEN_EPSILON => False
  | TOKEN_NUMBER =>
    exists c rest, Value t = String c rest /\
      (Go.IsDigit c = true \/
       (Go.IsLetter c = true /\ Go.ToLower (Value t) = "number"))
  | TOKEN_IDENT =>
    exists c rest, Value t = String c rest /\ Go.IsLetter c = true /\
      Go.ToLower (Value t) <> "number"
  | TOKEN_UNKNOWN =>
    exists ch, Value t = Go.StringOfByte ch /\ Go.IsSpace ch = false /\
      Go.IsDigit ch = false /\ Go.IsLetter ch = false /\
      ch ∉ ["+"; "-"; "*"; "/"; "("; ")"]%char
  end.

(** The tokens left from the cursor on. *)
Definition remaining (p : Parser) : nat := length (tokens p) - pos p.

(** Before its first terminal, the alternative [alt] asks only for symbols
    of rank below [bound]. *)
Fixpoint leading (g : Grammar) (rank : string -> nat) (bound : nat)
  (alt : list string) : bool :=
  match alt with
  | [] => true
  | s :: rest =>
    if isEpsilon s then leading g rank bound rest
    else if Grammar_IsTerminal g s then true
    else (rank s <? bound)%nat && leading g rank bound rest
  end.

(** [rank] orders the symbols of the grammar [g] so that no alternative asks
    for its own head, or for a symbol of the same or a higher rank, before
    it has matched a terminal: the grammar has no left recursion, direct or
    indirect. *)
Definition ranked (g : Grammar) (rank : string -> nat) : bool :=
  forallb (fun kp => forallb (leading g rank (rank (fst kp))) (Body (snd kp)))
          (map_to_list (Productions g)).

(** Derivation trees of a grammar.  [derives g s t]: the tree [t] stands for
    the symbol [s] of an alternative, as an ε leaf for either spelling of
    epsilon, as the leaf of a token that the terminal [s] matches, labelled
    with the text of the token, or as an expansion of the non-terminal [s].
    [expands g s t]: the root of [t] is a non-terminal node labelled [s], and
    its children stand, one for one and in order, for the symbols of one
    alternative of the production of [s]. *)
Inductive derives (g : Grammar) : string -> TreeNode -> Prop :=
  | derives_epsilon s i :
      isEpsilon s = true -> derives g s (mkTreeNode i "ε" [] true)
  | derives_terminal s i t :
      isEpsilon s = false -> Grammar_IsTerminal g s = true ->
      matches s t = true ->
      derives g s (mkTreeNode i (Value t) [] true)
  | derives_nonterminal s t :
      isEpsilon s = false -> Grammar_IsTerminal g s = false ->
      expands g s t -> derives g s t
with expands (g : Grammar) : string -> TreeNode -> Prop :=
  | expands_node s i prod alt cs :
      Productions g !! s = Some prod -> alt ∈ Body prod ->
      Forall2 (derives g) alt cs ->
      expands g s (mkTreeNode i s cs false).

(** A ranking of the default arithmetic grammar. *)
Definition defaultRank (s : string) : nat :=
  if String.eqb s "E" then 2 else if String.eqb s "T" then 1 else 0.

(** What the loop of [ParseGrammar] over the lines maintains, [st] being the
    grammar under construction and the flag [isFirst]: every entry of
    [Productions] is filed under its own head, which is not empty; the
    registered non-terminals are the keys of [Productions]; the start symbol
    is set, to a key of [Productions], as soon as the flag is down; no
    terminal is registered yet. *)
Definition lineInvariant (st : Grammar * bool) : Prop :=
  (forall k prod, Productions (fst st) !! k = Some prod ->
     Head prod = k /\ k <> EmptyString) /\
  NonTerminals (fst st) = (fun _ => true) <$> Productions (fst st) /\
  (if snd st
   then StartSymbol (fst st) = EmptyString /\ Productions (fst st) = ∅
   else StartSymbol (fst st) <> EmptyString /\
        is_Some (Productions (fst st) !! StartSymbol (fst st))) /\
  Terminals (fst st) = ∅.

End notions.

(* ===================================================================== *)
(** * Properties of the lexer *)
(* ===================================================================== *)

Section LexerFacts.
Import types_go lexer_go.

Lemma get_Some_lt (s : string) (n : nat) (c : ascii) :
  String.get n s = Some c -> n < String.length s.
Proof.
  revert n. induction s as [|a s IH]; intros [|n] H; simpl in *; try discriminate.
  - lia.
  - apply IH in H. lia.
Qed.

Lemma get_None_ge (s : string) (n : nat) :
  String.get n s = None -> String.length s <= n.
Proof.
  revert n. induction s as [|a s IH]; intros [|n] H; simpl in *; try discriminate.
  - lia.
  - lia.
  - apply IH in H. lia.
Qed.

(** The inner loops move the cursor forward only, never past the end, and
    touch nothing else. *)
Lemma readNumberLoop_frame fuel hasDecimal l :
  let l' := readNumberLoop fuel hasDecimal l in
  input l' = input l /\ tokens l' = tokens l /\ pos l <= pos l' /\
  (pos l <= String.length (input l) -> pos l' <= String.length (input l)).
Proof.
  revert hasDecimal l. induction fuel as [|fuel IH]; intros hd l; simpl.
  - repeat split; auto.
  - destruct (String.get (pos l) (input l)) eqn:G; [|repeat split; auto].
    apply get_Some_lt in G.
    destruct (Go.IsDigit a).
    + destruct (IH hd (setPos l (S (pos l)))) as (A & B & C & D); simpl in *.
      repeat split; auto; lia.
    + destruct (Ascii.eqb a "." && negb hd).
      * destruct (IH true (setPos l (S (pos l)))) as (A & B & C & D); simpl in *.
        repeat split; auto; lia.
      * repeat split; auto.
Qed.

Lemma readIdentifierLoop_frame fuel l :
  let l' := readIdentifierLoop fuel l in
  input l' = input l /\ tokens l' = tokens l /\ pos l <= pos l' /\
  (pos l <= String.length (input l) -> pos l' <= String.length (input l)).
Proof.
  revert l. induction fuel as [|fuel IH]; intros l; simpl.
  - repeat split; auto.
  - destruct (String.get (pos l) (input l)) eqn:G; [|repeat split; auto].
    apply get_Some_lt in G.
    destruct (identByte a).
    + destruct (IH (setPos l (S (pos l)))) as (A & B & C & D); simpl in *.
      repeat split; auto; lia.
    + repeat split; auto.
Qed.

(** A number starts with a digit and an identifier with a letter, so both
    readers consume at least the byte they were called on. *)
Lemma readNumber_progress l ch :
  String.get (pos l) (input l) = Some ch -> Go.IsDigit ch = true ->
  pos l < pos (snd (readNumber l)).
Proof.
  intros G D. unfold readNumber; simpl.
  pose proof (get_Some_lt _ _ _ G) as Hlt.
  destruct (String.length (input l) - pos l) as [|fuel] eqn:E; [lia|].
  simpl. rewrite G, D.
  pose proof (readNumberLoop_frame fuel false (setPos l (S (pos l)))) as (_ & _ & C & _).
  simpl in C. lia.
Qed.

Lemma readIdentifier_progress l ch :
  String.get (pos l) (input l) = Some ch -> Go.IsLetter ch = true ->
  pos l < pos (snd (readIdentifier l)).
Proof.
  intros G D. unfold readIdentifier; simpl.
  pose proof (get_Some_lt _ _ _ G) as Hlt.
  destruct (String.length (input l) - pos l) as [|fuel] eqn:E; [lia|].
  simpl. rewrite G. unfold identByte. rewrite D. simpl.
  pose proof (readIdentifierLoop_frame fuel (setPos l (S (pos l)))) as (_ & _ & C & _).
  simpl in C. lia.
Qed.

Lemma singleToken_notEOF ch n : notEOF (singleToken ch n).
Proof.
  unfold singleToken, notEOF.
  repeat (match goal with |- context [if ?b then _ else _] => destruct b end);
    simpl; discriminate.
Qed.

(** On an ASCII byte that is none of the six operators the token is UNKNOWN
    and its text is that byte. *)
Lemma singleToken_unknown_ascii ch n :
  (Go.code ch < 128)%N ->
  ch ∉ ["+"; "-"; "*"; "/"; "("; ")"]%char ->
  singleToken ch n = mkToken TOKEN_UNKNOWN (String ch EmptyString) (Z.of_nat n).
Proof.
  intros A N. unfold singleToken.
  repeat (match goal with
          | |- context [Ascii.eqb ch ?c] =>
            destruct (Ascii.eqb_spec ch c) as [->|_];
            [exfalso; apply N; set_solver|]
          end).
  unfold Go.StringOfByte. by apply N.ltb_lt in A as ->.
Qed.

(** The main loop: the input is kept, the tokens only grow, none of them is
    an EOF token, and with one unit of fuel per byte left the loop stops at
    the end of the input and nowhere else. *)
Lemma TokenizeLoop_spec fuel l :
  let l' := TokenizeLoop fuel l in
  input l' = input l /\
  (Forall notEOF (tokens l) -> Forall notEOF (tokens l')) /\
  (pos l <= String.length (input l) ->
   String.length (input l) - pos l <= fuel ->
   pos l' = String.length (input l)).
Proof.
  revert l. induction fuel as [|fuel IH]; intros l; simpl.
  - repeat split; auto. lia.
  - destruct (String.get (pos l) (input l)) as [ch|] eqn:G.
    2:{ apply get_None_ge in G. repeat split; auto. lia. }
    pose proof (get_Some_lt _ _ _ G) as Hlt.
    destruct (Go.IsSpace ch).
    { destruct (IH (setPos l (S (pos l)))) as (A & B & C); simpl in *.
      repeat split; auto. intros. apply C; lia. }
    destruct (Go.IsDigit ch) eqn:D.
    { pose proof (readNumber_progress l ch G D) as Hp.
      unfold readNumber in *; simpl in *.
      pose proof (readNumberLoop_frame (String.length (input l) - pos l) false l)
        as (Fi & Ft & Fp & Fb).
      set (l1 := readNumberLoop (String.length (input l) - pos l) false l) in *.
      simpl in *.
      match goal with |- context [TokenizeLoop fuel ?x] => destruct (IH x) as (A & B & C) end.
      simpl in *. rewrite Fi in *. repeat split; auto.
      - intros F. apply B. rewrite Ft. apply Forall_app; split; auto.
        constructor; [discriminate|constructor].
      - intros. apply C; lia. }
    destruct (Go.IsLetter ch) eqn:L.
    { pose proof (readIdentifier_progress l ch G L) as Hp.
      unfold readIdentifier in *; simpl in *.
      pose proof (readIdentifierLoop_frame (String.length (input l) - pos l) l)
        as (Fi & Ft & Fp & Fb).
      set (l1 := readIdentifierLoop (String.length (input l) - pos l) l) in *.
      simpl in *.
      match goal with |- context [TokenizeLoop fuel ?x] => destruct (IH x) as (A & B & C) end.
      simpl in *. rewrite Fi in *. repeat split; auto.
      - intros F. apply B. rewrite Ft. apply Forall_app; split; auto.
        constructor; [|constructor].
        unfold notEOF; simpl. destruct (String.eqb _ _); discriminate.
      - intros. apply C; lia. }
    match goal with |- context [TokenizeLoop fuel ?x] => destruct (IH x) as (A & B & C) end.
    simpl in *. repeat split; auto.
    + intros F. apply B. apply Forall_app; split; auto.
      constructor; [apply singleToken_notEOF|constructor].
    + intros. apply C; lia.
Qed.

(** The loop of [Tokenize] ends because the input is exhausted: the bound on
    its iterations is never what stops it. *)
Lemma TokenizeLoop_reaches_end (s : string) :
  pos (TokenizeLoop (String.length s) (mkLexer s 0 [])) = String.length s.
Proof.
  pose proof (TokenizeLoop_spec (String.length s) (mkLexer s 0 [])) as (_ & _ & C).
  simpl in C. apply C; lia.
Qed.

(** [Tokenize] returns, for every input, a sequence that ends with the EOF
    token, of empty text and positioned at the length of the input; no
    other token of the sequence is an EOF token. *)
Lemma Tokenize_ends_with_EOF (l : Lexer) :
  exists toks,
    Tokenize l = toks ++ [mkToken TOKEN_EOF EmptyString
                            (Z.of_nat (String.length (input l)))] /\
    Forall notEOF toks.
Proof.
  unfold Tokenize; simpl.
  exists (tokens (TokenizeLoop (String.length (input l)) (mkLexer (input l) 0 []))).
  rewrite TokenizeLoop_reaches_end. split; [reflexivity|].
  pose proof (TokenizeLoop_spec (String.length (input l)) (mkLexer (input l) 0 []))
    as (_ & B & _).
  apply B. constructor.
Qed.

End LexerFacts.

(* ===================================================================== *)
(** * Properties of the engine *)
(* ===================================================================== *)

Section EngineFacts.
Import types_go grammar_go parser_go engine.

(** ** The functions compute derivable outcomes *)

Lemma parseSymbolsLoop_eval (parseNT : string -> Z -> Parser -> Res TreeNode) :
  (forall s pid p, parseNT s pid p <> OutOfFuel -> evalNT s pid p (parseNT s pid p)) ->
  forall symbols pid children p,
    parseSymbolsLoop parseNT symbols pid children p <> OutOfFuel ->
    evalLoop symbols pid children p (parseSymbolsLoop parseNT symbols pid children p).
Proof.
  intros HNT symbols. induction symbols as [|symbol rest IH]; intros pid children p H.
  - simpl. constructor.
  - cbn [parseSymbolsLoop] in *. destruct (isEpsilon symbol) eqn:E.
    + destruct (createNode "ε" true pid p) as [n p1] eqn:C.
      apply evalLoop_epsilon; [exact E|]. rewrite C. simpl. apply IH, H.
    + destruct (isTerminal p symbol) eqn:T.
      * destruct (matchTerminal symbol pid p) as [node p1|msg p1|] eqn:M.
        -- eapply evalLoop_match; [exact E|exact T|exact M|]. apply IH, H.
        -- eapply evalLoop_mismatch; [exact E|exact T|exact M].
        -- congruence.
      * pose proof (HNT symbol pid p) as HN.
        destruct (parseNT symbol pid p) as [node p1|msg p1|] eqn:M.
        -- eapply evalLoop_expand; [exact E|exact T|apply HN; discriminate|].
           apply IH, H.
        -- eapply evalLoop_fail; [exact E|exact T|apply HN; discriminate].
        -- congruence.
Qed.

Lemma tryAlternatives_eval
  (parseAlt : list string -> Z -> Parser -> Res (list TreeNode)) :
  (forall alt pid p, parseAlt alt pid p <> OutOfFuel ->
                     evalLoop alt pid [] p (parseAlt alt pid p)) ->
  forall alts symbol node p,
    tryAlternatives parseAlt symbol node alts p <> OutOfFuel ->
    evalTry symbol node alts p (tryAlternatives parseAlt symbol node alts p).
Proof.
  intros HA alts. induction alts as [|alt rest IH]; intros symbol node p H.
  - simpl. constructor.
  - cbn [tryAlternatives] in *. pose proof (HA alt (ID node) p) as HL.
    destruct (parseAlt alt (ID node) p) as [children p1|msg p1|] eqn:M.
    + apply evalTry_first. apply HL. discriminate.
    + eapply evalTry_next; [apply HL; discriminate|]. apply IH, H.
    + congruence.
Qed.

Lemma parseNonTerminal_eval (fuel : nat) (symbol : string) (parentID : Z) (p : Parser) :
  parseNonTerminal fuel symbol parentID p <> OutOfFuel ->
  evalNT symbol parentID p (parseNonTerminal fuel symbol parentID p).
Proof.
  revert symbol parentID p. induction fuel as [|fuel IH]; intros symbol pid p H.
  - simpl in H. congruence.
  - cbn [parseNonTerminal] in *.
    destruct (Productions (grammar p) !! symbol) as [prod|] eqn:L.
    + destruct (createNode symbol false pid p) as [node p1] eqn:C.
      eapply evalNT_defined; [exact L|]. rewrite C. simpl.
      apply tryAlternatives_eval; [|exact H].
      intros alt pid' p' H'. apply parseSymbolsLoop_eval; [|exact H'].
      intros. apply IH. assumption.
    + constructor. exact L.
Qed.

Lemma parseAlternative_eval (fuel : nat) (symbols : list string) (parentID : Z)
  (p : Parser) :
  parseAlternative fuel symbols parentID p <> OutOfFuel ->
  evalLoop symbols parentID [] p (parseAlternative fuel symbols parentID p).
Proof.
  intros H. apply parseSymbolsLoop_eval; [|exact H].
  intros. apply parseNonTerminal_eval. assumption.
Qed.

(** ** What the engine leaves untouched *)

Lemma extends_refl p : extends p p.
Proof. repeat split; try lia. exists []. by rewrite app_nil_r. Qed.

Lemma extends_trans p q r : extends p q -> extends q r -> extends p r.
Proof.
  intros (A1 & A2 & A3 & A4 & e1 & A5) (B1 & B2 & B3 & B4 & e2 & B5).
  repeat split; try congruence; try lia.
  exists (e1 ++ e2). rewrite B5, A5. by rewrite app_assoc.
Qed.

Lemma createNode_extends label isT pid p :
  extends p (snd (createNode label isT pid p)).
Proof.
  unfold createNode; simpl. repeat split; simpl; try lia.
  destruct (recordSteps p); eexists; [reflexivity|]. by rewrite app_nil_r.
Qed.

Lemma advance_extends p : extends p (advance p).
Proof.
  unfold advance. destruct (_ <? _); [|apply extends_refl].
  repeat split; simpl; try lia. exists []. by rewrite app_nil_r.
Qed.

Lemma matchTerminal_extends symbol pid p r p' :
  matchTerminal symbol pid p = r -> outcome r = Some p' -> extends p p'.
Proof.
  unfold matchTerminal. destruct (negb _).
  - intros <- [= <-]. apply extends_refl.
  - destruct (createNode _ _ _ _) as [n p1] eqn:C. intros <- [= <-].
    eapply extends_trans; [|apply advance_extends].
    pose proof (createNode_extends (Value (current p)) true pid p) as H.
    by rewrite C in H.
Qed.

(** A failed attempt that only extended the log is undone exactly. *)
Lemma backtrack_steps p p1 :
  extends p p1 -> steps (backtrack (pos p) (length (steps p)) p1) = steps p.
Proof.
  intros (_ & _ & _ & _ & e & E). unfold backtrack; simpl.
  rewrite E. by rewrite take_app_length.
Qed.

Lemma backtrack_extends p p1 :
  extends p p1 -> extends p (backtrack (pos p) (length (steps p)) p1).
Proof.
  intros H. pose proof (backtrack_steps p p1 H) as S.
  destruct H as (A1 & A2 & A3 & A4 & _).
  repeat split; simpl; auto. exists []. rewrite app_nil_r. exact S.
Qed.

Lemma eval_extends :
  (forall symbol pid p r, evalNT symbol pid p r ->
     forall p', outcome r = Some p' -> extends p p') /\
  (forall symbol node alts p r, evalTry symbol node alts p r ->
     forall p', outcome r = Some p' -> extends p p') /\
  (forall symbols pid children p r, evalLoop symbols pid children p r ->
     forall p', outcome r = Some p' -> extends p p').
Proof.
  apply eval_mutind; intros.
  - simplify_eq/=. apply extends_refl.
  - eapply extends_trans; [apply createNode_extends|]. eauto.
  - simplify_eq/=. apply extends_refl.
  - simplify_eq/=. eauto.
  - eapply extends_trans; [|eauto]. apply backtrack_extends. eauto.
  - simplify_eq/=. apply extends_refl.
  - eapply extends_trans; [apply createNode_extends|]. eauto.
  - eapply extends_trans; [|eauto]. eapply matchTerminal_extends; eauto.
  - eapply matchTerminal_extends; eauto.
  - eapply extends_trans; [|eauto]. eauto.
  - simplify_eq/=. eauto.
Qed.

End EngineFacts.

(* ===================================================================== *)
(** * Properties of the replay *)
(* ===================================================================== *)

Section ReplayFacts.
Import types_go parser_go replay.

(** Induction on a tree with the hypothesis for every child. *)
Lemma TreeNode_forall_ind (P : TreeNode -> Prop) :
  (forall i label cs isT, Forall P cs -> P (mkTreeNode i label cs isT)) ->
  forall t, P t.
Proof.
  intros H. fix IH 1. intros [i label cs isT]. apply H.
  induction cs as [|c cs IHcs]; constructor; [apply IH|exact IHcs].
Qed.

Lemma idsOf_node i label cs isT :
  idsOf (mkTreeNode i label cs isT) = i :: idsOfForest cs.
Proof.
  simpl. f_equal. unfold idsOfForest.
  induction cs as [|c cs IH]; simpl; [reflexivity|]. by rewrite IH.
Qed.

Lemma stepsOf_node parent i label cs isT :
  stepsOf parent (mkTreeNode i label cs isT) =
  mkStep "add" (buildStepDescription label isT) i parent :: stepsOfForest i cs.
Proof.
  simpl. f_equal. unfold stepsOfForest.
  induction cs as [|c cs IH]; simpl; [reflexivity|]. by rewrite IH.
Qed.

Lemma attach_node parent n i label cs isT :
  attach parent n (mkTreeNode i label cs isT) =
  if (i =? parent)%Z then Some (mkTreeNode i label (cs ++ [n]) isT)
  else match attachForest parent n cs with
       | Some cs' => Some (mkTreeNode i label cs' isT)
       | None => None
       end.
Proof.
  simpl. destruct (i =? parent)%Z; [reflexivity|].
  match goal with |- match ?a with _ => _ end = match ?b with _ => _ end =>
    replace a with b; [reflexivity|] end.
  induction cs as [|c cs IH]; simpl; [reflexivity|].
  destruct (attach parent n c); [reflexivity|]. by rewrite IH.
Qed.

Lemma idsOfForest_cons t ts : idsOfForest (t :: ts) = idsOf t ++ idsOfForest ts.
Proof. reflexivity. Qed.

Lemma idsOfForest_app ts us :
  idsOfForest (ts ++ us) = idsOfForest ts ++ idsOfForest us.
Proof. unfold idsOfForest. by rewrite map_app, concat_app. Qed.

Lemma stepsOfForest_cons parent t ts :
  stepsOfForest parent (t :: ts) = stepsOf parent t ++ stepsOfForest parent ts.
Proof. reflexivity. Qed.

Lemma stepsOfForest_app parent ts us :
  stepsOfForest parent (ts ++ us) = stepsOfForest parent ts ++ stepsOfForest parent us.
Proof. unfold stepsOfForest. by rewrite map_app, concat_app. Qed.

(** *** Reading a description back *)

Lemma splitLast_snoc (s : string) (z : ascii) :
  splitLast (s +:+ String z EmptyString) = Some (s, z).
Proof.
  induction s as [|c s IH]; [reflexivity|].
  change (String c s +:+ String z EmptyString)
    with (String c (s +:+ String z EmptyString)).
  destruct (s +:+ String z EmptyString) as [|c' r] eqn:E.
  { destruct s; discriminate. }
  change (splitLast (String c (String c' r)))
    with (match splitLast (String c' r) with
          | Some (init, y) => Some (String c init, y)
          | None => None
          end).
  by rewrite IH.
Qed.

Lemma stripSuffixByte_snoc (s : string) (z : ascii) :
  stripSuffixByte z (s +:+ String z EmptyString) = Some s.
Proof. unfold stripSuffixByte. by rewrite splitLast_snoc, Ascii.eqb_refl. Qed.

Lemma stripPrefix_app (prefix s : string) :
  stripPrefix prefix (prefix +:+ s) = Some s.
Proof.
  induction prefix as [|c prefix IH]; simpl; [by destruct s|].
  by rewrite Ascii.eqb_refl.
Qed.

(** [readDescription] inverts [buildStepDescription]: the three forms of a
    description differ within their first seven bytes. *)
Lemma readDescription_build (label : string) (isT : bool) :
  readDescription (buildStepDescription label isT) = Some (label, isT).
Proof.
  unfold buildStepDescription, readDescription.
  destruct isT.
  - destruct (String.eqb_spec label "ε") as [->|N]; [reflexivity|].
    assert (("Match terminal '" +:+ label +:+ "'"
             =? "Match epsilon (empty string)")%string = false) as ->
      by reflexivity.
    by rewrite stripPrefix_app, stripSuffixByte_snoc.
  - assert (("Expand non-terminal <" +:+ label +:+ ">"
             =? "Match epsilon (empty string)")%string = false) as ->
      by reflexivity.
    assert (stripPrefix "Match terminal '"
              ("Expand non-terminal <" +:+ label +:+ ">") = None) as ->
      by reflexivity.
    by rewrite stripPrefix_app, stripSuffixByte_snoc.
Qed.

Lemma nodeOfStep_build action label isT i parent :
  nodeOfStep (mkStep action (buildStepDescription label isT) i parent)
  = Some (mkTreeNode i label [] isT).
Proof. unfold nodeOfStep; simpl. by rewrite readDescription_build. Qed.

(** *** Attaching by id *)

Lemma attach_absent parent n :
  (forall t, parent ∉ idsOf t -> attach parent n t = None) /\
  (forall ts, parent ∉ idsOfForest ts -> attachForest parent n ts = None).
Proof.
  assert (HT : forall t, parent ∉ idsOf t -> attach parent n t = None).
  { induction t as [i label cs isT IH] using TreeNode_forall_ind.
    rewrite idsOf_node, attach_node. intros H.
    apply not_elem_of_cons in H as [H1 H2].
    destruct (Z.eqb_spec i parent) as [->|_]; [done|].
    assert (attachForest parent n cs = None) as ->; [|done].
    induction cs as [|c cs IHcs]; [done|].
    rewrite idsOfForest_cons in H2. apply not_elem_of_app in H2 as [H3 H4].
    inversion IH as [|? ? Hc Hcs]; subst. simpl.
    rewrite (Hc H3). by rewrite (IHcs Hcs H4). }
  split; [exact HT|].
  induction ts as [|t ts IH]; [done|]. rewrite idsOfForest_cons.
  intros H. apply not_elem_of_app in H as [H1 H2]. simpl.
  rewrite (HT t H1). by rewrite (IH H2).
Qed.

(** Whether a parent is found does not depend on the node attached. *)
Lemma attach_fails_alike parent n n' :
  (forall t, attach parent n t = None -> attach parent n' t = None) /\
  (forall ts, attachForest parent n ts = None -> attachForest parent n' ts = None).
Proof.
  assert (HT : forall t, attach parent n t = None -> attach parent n' t = None).
  { induction t as [i label cs isT IH] using TreeNode_forall_ind.
    rewrite !attach_node. destruct (i =? parent)%Z; [done|].
    intros H.
    assert (attachForest parent n cs = None) as Hn
      by (destruct (attachForest parent n cs); [discriminate|done]).
    clear H.
    assert (attachForest parent n' cs = None) as ->; [|done].
    induction cs as [|c cs IHcs]; [done|].
    inversion IH as [|? ? Hc Hcs]; subst. simpl in *.
    destruct (attach parent n c) eqn:E; [discriminate|].
    rewrite (Hc eq_refl).
    destruct (attachForest parent n cs) eqn:E2; [discriminate|].
    by rewrite (IHcs Hcs eq_refl). }
  split; [exact HT|].
  induction ts as [|t ts IH]; [done|]. simpl.
  destruct (attach parent n t) eqn:E; [discriminate|]. rewrite (HT t E).
  destruct (attachForest parent n ts) eqn:E2; [discriminate|].
  intros _. by rewrite (IH eq_refl).
Qed.

Lemma attachForest_succeeds_alike parent n n' ts ts' :
  attachForest parent n ts = Some ts' ->
  exists ts'', attachForest parent n' ts = Some ts''.
Proof.
  intros H. destruct (attachForest parent n' ts) eqn:E; [eauto|].
  apply (proj2 (attach_fails_alike parent n' n)) in E. congruence.
Qed.

(** The ids after attaching are those before, and those of the new tree. *)
Lemma attach_ids parent n :
  (forall t t', attach parent n t = Some t' -> idsOf t' ≡ₚ idsOf t ++ idsOf n) /\
  (forall ts ts', attachForest parent n ts = Some ts' ->
                  idsOfForest ts' ≡ₚ idsOfForest ts ++ idsOf n).
Proof.
  assert (HT : forall t t', attach parent n t = Some t' ->
                            idsOf t' ≡ₚ idsOf t ++ idsOf n).
  { induction t as [i label cs isT IH] using TreeNode_forall_ind.
    intros t'. rewrite attach_node. destruct (i =? parent)%Z.
    - intros [= <-]. rewrite !idsOf_node, idsOfForest_app. simpl.
      unfold idsOfForest at 2. simpl. by rewrite app_nil_r.
    - destruct (attachForest parent n cs) as [cs'|] eqn:E; [|discriminate].
      intros [= <-]. rewrite !idsOf_node. simpl. f_equiv.
      clear -IH E. revert cs' E.
      induction cs as [|c cs IHcs]; intros cs' E; [discriminate|].
      inversion IH as [|? ? Hc Hcs]; subst. simpl in E.
      destruct (attach parent n c) as [c'|] eqn:E1.
      + injection E as <-. rewrite !idsOfForest_cons, (Hc c' eq_refl).
        rewrite <- !app_assoc. f_equiv. apply Permutation_app_comm.
      + destruct (attachForest parent n cs) as [cs''|] eqn:E2; [|discriminate].
        injection E as <-. rewrite !idsOfForest_cons, (IHcs Hcs cs'' eq_refl).
        by rewrite app_assoc. }
  split; [exact HT|].
  induction ts as [|t ts IH]; intros ts' E; [discriminate|]. simpl in E.
  destruct (attach parent n t) as [t'|] eqn:E1.
  - injection E as <-. rewrite !idsOfForest_cons, (HT t t' E1).
    rewrite <- !app_assoc. f_equiv. apply Permutation_app_comm.
  - destruct (attachForest parent n ts) as [ts''|] eqn:E2; [|discriminate].
    injection E as <-. rewrite !idsOfForest_cons, (IH ts'' eq_refl).
    by rewrite app_assoc.
Qed.

(** A tree over which the search for [i] passes is left alone. *)
Lemma attachForest_skip i c ts us :
  i ∉ idsOfForest ts ->
  attachForest i c (ts ++ us) =
  match attachForest i c us with Some us' => Some (ts ++ us') | None => None end.
Proof.
  induction ts as [|t ts IH]; intros H; simpl.
  - by destruct (attachForest i c us).
  - rewrite idsOfForest_cons in H. apply not_elem_of_app in H as [H1 H2].
    rewrite (proj1 (attach_absent i c) t H1), (IH H2).
    by destruct (attachForest i c us).
Qed.

(** Once the node [i] hangs under [parent], a child attached to [i] lands
    where it would be had [i] been attached with that child already. *)
Lemma attach_then_attach parent i label isT c :
  (forall t cs t1, i ∉ idsOf t ->
     attach parent (mkTreeNode i label cs isT) t = Some t1 ->
     exists t2, attach i c t1 = Some t2 /\
                attach parent (mkTreeNode i label (cs ++ [c]) isT) t = Some t2) /\
  (forall ts cs ts1, i ∉ idsOfForest ts ->
     attachForest parent (mkTreeNode i label cs isT) ts = Some ts1 ->
     exists ts2, attachForest i c ts1 = Some ts2 /\
                 attachForest parent (mkTreeNode i label (cs ++ [c]) isT) ts = Some ts2).
Proof.
  assert (HT : forall t cs t1, i ∉ idsOf t ->
     attach parent (mkTreeNode i label cs isT) t = Some t1 ->
     exists t2, attach i c t1 = Some t2 /\
                attach parent (mkTreeNode i label (cs ++ [c]) isT) t = Some t2).
  { induction t as [j lj ds bj IH] using TreeNode_forall_ind.
    intros cs t1. rewrite idsOf_node. intros H.
    apply not_elem_of_cons in H as [Hij Hds].
    rewrite !attach_node. destruct (j =? parent)%Z.
    - intros [= <-]. eexists. split; [|reflexivity].
      rewrite attach_node. destruct (Z.eqb_spec j i) as [->|_]; [done|].
      rewrite (attachForest_skip i c ds _ Hds). cbn [attachForest].
      rewrite attach_node, Z.eqb_refl. reflexivity.
    - destruct (attachForest parent _ ds) as [ds1|] eqn:E; [|discriminate].
      intros [= <-]. rewrite attach_node.
      destruct (Z.eqb_spec j i) as [->|_]; [done|].
      assert (exists ds2, attachForest i c ds1 = Some ds2 /\
                attachForest parent (mkTreeNode i label (cs ++ [c]) isT) ds = Some ds2)
        as (ds2 & -> & ->); [|eauto].
      clear -IH Hds E. revert ds1 E.
      induction ds as [|d ds IHds]; intros ds1 E; [discriminate|].
      inversion IH as [|? ? Hd Hrest]; subst.
      rewrite idsOfForest_cons in Hds. apply not_elem_of_app in Hds as [H1 H2].
      simpl in E. destruct (attach parent _ d) as [d1|] eqn:E1.
      + injection E as <-. destruct (Hd cs d1 H1 E1) as (d2 & A & B).
        exists (d2 :: ds). simpl. by rewrite A, B.
      + destruct (attachForest parent _ ds) as [ds'|] eqn:E2; [|discriminate].
        injection E as <-. destruct (IHds Hrest H2 ds' eq_refl) as (ds2 & A & B).
        exists (d :: ds2). simpl.
        rewrite (proj1 (attach_absent i c) d H1), A.
        rewrite (proj1 (attach_fails_alike parent _ (mkTreeNode i label (cs ++ [c]) isT)) d E1).
        by rewrite B. }
  split; [exact HT|].
  induction ts as [|t ts IH]; intros cs ts1 H E; [discriminate|].
  rewrite idsOfForest_cons in H. apply not_elem_of_app in H as [H1 H2].
  simpl in E. destruct (attach parent _ t) as [t1|] eqn:E1.
  - injection E as <-. destruct (HT t cs t1 H1 E1) as (t2 & A & B).
    exists (t2 :: ts). simpl. by rewrite A, B.
  - destruct (attachForest parent _ ts) as [ts'|] eqn:E2; [|discriminate].
    injection E as <-. destruct (IH cs ts' H2 E2) as (ts2 & A & B).
    exists (t :: ts2). simpl.
    rewrite (proj1 (attach_absent i c) t H1), A.
    rewrite (proj1 (attach_fails_alike parent _ (mkTreeNode i label (cs ++ [c]) isT)) t E1).
    by rewrite B.
Qed.

(** Attaching the children of [i] one by one, after [i] itself, builds what
    attaching [i] with all its children builds. *)
Lemma attachAll_under parent i label isT ts :
  i ∉ idsOfForest ts ->
  forall cs done ts1,
    attachForest parent (mkTreeNode i label done isT) ts = Some ts1 ->
    attachAll i cs ts1 =
    attachForest parent (mkTreeNode i label (done ++ cs) isT) ts.
Proof.
  intros Hi. induction cs as [|c cs IH]; intros done ts1 E; simpl.
  - by rewrite app_nil_r.
  - destruct (proj2 (attach_then_attach parent i label isT c) ts done ts1 Hi E)
      as (ts2 & A & B).
    rewrite A, (IH (done ++ [c]) ts2 B). by rewrite <- app_assoc.
Qed.

Lemma attachAll_root i label isT cs done :
  attachAll i cs [mkTreeNode i label done isT]
  = Some [mkTreeNode i label (done ++ cs) isT].
Proof.
  revert done. induction cs as [|c cs IH]; intros done; simpl.
  - by rewrite app_nil_r.
  - rewrite Z.eqb_refl, IH. by rewrite <- app_assoc.
Qed.

(** *** Replaying the steps of a tree *)

(** The steps of a tree, replayed on a forest that holds its parent and none
    of its ids, attach the tree under that parent. *)
Lemma replayFrom_stepsOf (t : TreeNode) :
  forall parent forest forest' rest,
    parent <> sentinel ->
    sentinel ∉ idsOf t ->
    NoDup (idsOfForest forest ++ idsOf t) ->
    attachForest parent t forest = Some forest' ->
    replayFrom forest (stepsOf parent t ++ rest) = replayFrom forest' rest.
Proof.
  induction t as [i label cs isT IH] using TreeNode_forall_ind.
  intros parent forest forest' rest Hp Hs Hnd E.
  rewrite stepsOf_node. cbn [app replayFrom]. unfold replayStep.
  rewrite nodeOfStep_build. cbn [ParentID].
  destruct (Z.eqb_spec parent sentinel) as [?|_]; [done|].
  rewrite idsOf_node in Hs, Hnd. apply not_elem_of_cons in Hs as [Hsi Hsc].
  assert (Hi : i ∉ idsOfForest forest).
  { apply NoDup_app in Hnd as (_ & Hd & _). intros Hin.
    apply (Hd i Hin). left. }
  destruct (attachForest_succeeds_alike parent _ (mkTreeNode i label [] isT) _ _ E)
    as (f0 & E0).
  rewrite E0.
  pose proof (attachAll_under parent i label isT forest Hi cs [] f0 E0) as HA.
  simpl in HA. rewrite E in HA.
  assert (Hnd0 : NoDup (idsOfForest f0 ++ idsOfForest cs)).
  { rewrite (proj2 (attach_ids parent _) _ _ E0), idsOf_node.
    unfold idsOfForest at 2. simpl. by rewrite <- app_assoc. }
  clear E E0 Hnd Hi. revert f0 HA Hnd0.
  induction cs as [|c cs IHcs]; intros f0 HA Hnd0.
  - simpl in *. by injection HA as ->.
  - inversion IH as [|? ? Hc Hcs]; subst.
    rewrite idsOfForest_cons in Hsc. apply not_elem_of_app in Hsc as [Hs1 Hs2].
    rewrite stepsOfForest_cons, <- app_assoc. simpl in HA.
    destruct (attachForest i c f0) as [f1|] eqn:E1; [|discriminate].
    rewrite idsOfForest_cons, app_assoc in Hnd0.
    pose proof (proj1 (proj1 (NoDup_app _ _) Hnd0)) as Hnc.
    rewrite (Hc i f0 f1 _ (not_eq_sym Hsi) Hs1 Hnc E1).
    apply IHcs; auto.
    rewrite (proj2 (attach_ids i c) _ _ E1). exact Hnd0.
Qed.

(** The steps of a whole tree reconstruct it. *)
Lemma replay_stepsOf (t : TreeNode) :
  sentinel ∉ idsOf t -> NoDup (idsOf t) ->
  replay (stepsOf sentinel t) = Some t.
Proof.
  destruct t as [i label cs isT]. rewrite idsOf_node, stepsOf_node.
  intros Hs Hnd. apply not_elem_of_cons in Hs as [Hsi Hsc].
  unfold replay. cbn [replayFrom]. unfold replayStep.
  rewrite nodeOfStep_build. cbn [ParentID]. rewrite Z.eqb_refl. simpl app.
  assert (forall cs' f0,
            NoDup (idsOfForest f0 ++ idsOfForest cs') ->
            sentinel ∉ idsOfForest cs' ->
            forall f', attachAll i cs' f0 = Some f' ->
            replayFrom f0 (stepsOfForest i cs') = Some f') as HR.
  { induction cs' as [|c cs' IHcs]; intros f0 Hnd0 Hsc' f' HA.
    - simpl in *. congruence.
    - rewrite idsOfForest_cons in Hsc'. apply not_elem_of_app in Hsc' as [Hs1 Hs2].
      rewrite stepsOfForest_cons. simpl in HA.
      destruct (attachForest i c f0) as [f1|] eqn:E1; [|discriminate].
      rewrite idsOfForest_cons, app_assoc in Hnd0.
      pose proof (proj1 (proj1 (NoDup_app _ _) Hnd0)) as Hnc.
      pose proof (replayFrom_stepsOf c i f0 f1 (stepsOfForest i cs')
                    (not_eq_sym Hsi) Hs1 Hnc E1) as ->.
      apply IHcs; auto.
      rewrite (proj2 (attach_ids i c) _ _ E1). exact Hnd0. }
  assert (NoDup (idsOfForest [mkTreeNode i label [] isT] ++ idsOfForest cs)) as Hnd1.
  { unfold idsOfForest at 1. simpl. exact Hnd. }
  by rewrite (HR cs _ Hnd1 Hsc _ (attachAll_root i label isT cs [])).
Qed.

Lemma isomorphic_refl (t : TreeNode) : isomorphic t t.
Proof.
  induction t as [i label cs isT IH] using TreeNode_forall_ind.
  constructor. induction IH; constructor; auto.
Qed.

End ReplayFacts.

(* ===================================================================== *)
(** * The step log of a successful expansion *)
(* ===================================================================== *)

Section EngineSteps.
Import types_go grammar_go parser_go engine replay.

Lemma chain_le lo ids hi : chain lo ids hi -> (lo <= hi)%Z.
Proof.
  revert lo. induction ids as [|i ids IH]; simpl; intros lo H; [exact H|].
  destruct H as [H1 H2]. apply IH in H2. lia.
Qed.

Lemma chain_weaken lo lo' ids hi hi' :
  (lo' <= lo)%Z -> (hi <= hi')%Z -> chain lo ids hi -> chain lo' ids hi'.
Proof.
  revert lo lo'. induction ids as [|i ids IH]; simpl; intros lo lo' H1 H2 H.
  - lia.
  - destruct H as [H3 H4]. split; [lia|]. eapply IH; eauto. lia.
Qed.

Lemma chain_app lo ids mid ids' hi :
  chain lo ids mid -> chain mid ids' hi -> chain lo (ids ++ ids') hi.
Proof.
  revert lo. induction ids as [|i ids IH]; simpl; intros lo H1 H2.
  - eapply chain_weaken; [exact H1|reflexivity|exact H2].
  - destruct H1 as [H3 H4]. split; [exact H3|]. by apply IH.
Qed.

Lemma chain_bounds lo ids hi :
  chain lo ids hi -> Forall (fun i => (lo < i <= hi)%Z) ids.
Proof.
  revert lo. induction ids as [|i ids IH]; simpl; intros lo H; [constructor|].
  destruct H as [H1 H2]. constructor.
  - apply chain_le in H2. lia.
  - eapply Forall_impl; [apply IH, H2|]. simpl. intros; lia.
Qed.

Lemma chain_NoDup lo ids hi : chain lo ids hi -> NoDup ids.
Proof.
  revert lo. induction ids as [|i ids IH]; simpl; intros lo H; [constructor|].
  destruct H as [H1 H2]. constructor; [|eapply IH, H2].
  intros Hin. apply chain_bounds in H2.
  rewrite Forall_forall in H2. apply H2 in Hin. lia.
Qed.

Lemma createNode_fst label isT pid p :
  fst (createNode label isT pid p) = mkTreeNode (nodeID p + 1) label [] isT.
Proof. reflexivity. Qed.

Lemma createNode_nodeID label isT pid p :
  nodeID (snd (createNode label isT pid p)) = (nodeID p + 1)%Z.
Proof. reflexivity. Qed.

Lemma createNode_pos label isT pid p :
  pos (snd (createNode label isT pid p)) = pos p.
Proof. reflexivity. Qed.

Lemma createNode_steps label isT pid p :
  recordSteps p = true ->
  steps (snd (createNode label isT pid p)) =
  steps p ++ stepsOf pid (mkTreeNode (nodeID p + 1) label [] isT).
Proof. intros H. unfold createNode; simpl. by rewrite H. Qed.

Lemma advance_fields p :
  nodeID (advance p) = nodeID p /\ steps (advance p) = steps p /\
  tokens (advance p) = tokens p.
Proof. unfold advance. by destruct (_ <? _). Qed.

Lemma matchTerminal_Ok symbol pid p node p1 :
  matchTerminal symbol pid p = Ok node p1 ->
  node = mkTreeNode (nodeID p + 1) (Value (current p)) [] true /\
  p1 = advance (snd (createNode (Value (current p)) true pid p)).
Proof.
  unfold matchTerminal. destruct (negb _); [discriminate|].
  destruct (createNode _ _ _ _) as [n q] eqn:C. intros [= <- <-].
  pose proof (createNode_fst (Value (current p)) true pid p) as F.
  rewrite C in F. simpl in F. by subst.
Qed.

Lemma idsOf_leaf i label isT : idsOf (mkTreeNode i label [] isT) = [i].
Proof. reflexivity. Qed.

(** With recording on, a successful expansion appends to the log exactly
    the steps of the tree it returns, in document order, and the ids of the
    tree increase in that order from the counter before to the counter
    after. *)
Lemma eval_steps :
  (forall symbol pid p r, evalNT symbol pid p r ->
     forall t p', r = Ok t p' -> recordSteps p = true ->
       steps p' = steps p ++ stepsOf pid t /\
       chain (nodeID p) (idsOf t) (nodeID p')) /\
  (forall symbol node alts p r, evalTry symbol node alts p r ->
     forall t p', r = Ok t p' -> recordSteps p = true ->
       exists cs, t = mkTreeNode (ID node) (Label node) cs (IsTerminal node) /\
         steps p' = steps p ++ stepsOfForest (ID node) cs /\
         chain (nodeID p) (idsOfForest cs) (nodeID p')) /\
  (forall symbols pid children p r, evalLoop symbols pid children p r ->
     forall cs' p', r = Ok cs' p' -> recordSteps p = true ->
       exists new, cs' = children ++ new /\
         steps p' = steps p ++ stepsOfForest pid new /\
         chain (nodeID p) (idsOfForest new) (nodeID p')).
Proof.
  apply eval_mutind.
  - (* undefined *) discriminate.
  - (* defined *)
    intros symbol pid p prod r L _ IH t p' -> R.
    destruct (IH t p' eq_refl) as (cs & -> & S & C).
    { by destruct (createNode_extends symbol false pid p) as (_ & _ & -> & _). }
    rewrite createNode_fst in *. cbn [ID Label IsTerminal] in *.
    rewrite createNode_nodeID in C. rewrite createNode_steps in S by exact R.
    rewrite stepsOf_node, idsOf_node. split.
    + rewrite S, stepsOf_node. unfold stepsOfForest at 1. simpl.
      by rewrite <- app_assoc.
    + simpl. split; [lia|exact C].
  - (* none *) discriminate.
  - (* first *)
    intros symbol node alt rest p children p' _ IH t q [= <- <-] R.
    destruct (IH children p' eq_refl R) as (new & -> & S & C).
    exists new. auto.
  - (* next *)
    intros symbol node alt rest p msg p1 r HL _ _ IH t q -> R.
    pose proof (proj2 (proj2 eval_extends) _ _ _ _ _ HL p1 eq_refl) as X.
    pose proof (backtrack_steps p p1 X) as BS.
    destruct X as (_ & _ & XR & XN & _).
    destruct (IH t q eq_refl) as (cs & -> & S & C).
    { unfold backtrack; simpl. congruence. }
    exists cs. split; [reflexivity|]. rewrite BS in S. split; [exact S|].
    eapply chain_weaken; [|reflexivity|exact C]. unfold backtrack; simpl. exact XN.
  - (* done *)
    intros pid children p cs' p' [= <- <-] _. exists [].
    rewrite !app_nil_r. repeat split. simpl. lia.
  - (* epsilon *)
    intros symbol rest pid children p r _ _ IH cs' p' -> R.
    destruct (IH cs' p' eq_refl) as (new & -> & S & C).
    { by destruct (createNode_extends "ε" true pid p) as (_ & _ & -> & _). }
    rewrite createNode_fst in *. rewrite createNode_nodeID in C.
    rewrite createNode_steps in S by exact R.
    exists (mkTreeNode (nodeID p + 1) "ε" [] true :: new).
    rewrite <- app_assoc. split; [reflexivity|].
    rewrite stepsOfForest_cons, idsOfForest_cons, idsOf_leaf.
    split; [by rewrite S, <- app_assoc|]. simpl. split; [lia|exact C].
  - (* match *)
    intros symbol rest pid children p node p1 r _ _ M _ IH cs' p' -> R.
    apply matchTerminal_Ok in M as [-> ->].
    destruct (advance_fields (snd (createNode (Value (current p)) true pid p)))
      as (AN & AS & _).
    destruct (IH cs' p' eq_refl) as (new & -> & S & C).
    { destruct (advance_extends (snd (createNode (Value (current p)) true pid p)))
        as (_ & _ & -> & _).
      by destruct (createNode_extends (Value (current p)) true pid p)
        as (_ & _ & -> & _). }
    rewrite AN, createNode_nodeID in C.
    rewrite AS, createNode_steps in S by exact R.
    exists (mkTreeNode (nodeID p + 1) (Value (current p)) [] true :: new).
    rewrite <- app_assoc. split; [reflexivity|].
    rewrite stepsOfForest_cons, idsOfForest_cons, idsOf_leaf.
    split; [by rewrite S, <- app_assoc|]. simpl. split; [lia|exact C].
  - (* mismatch *) discriminate.
  - (* expand *)
    intros symbol rest pid children p subtree p1 r _ _ HN IHN _ IHL cs' p' -> R.
    destruct (IHN subtree p1 eq_refl R) as (S1 & C1).
    pose proof (proj1 eval_extends _ _ _ _ HN p1 eq_refl) as (_ & _ & XR & _).
    destruct (IHL cs' p' eq_refl) as (new & -> & S & C); [congruence|].
    exists (subtree :: new). rewrite <- app_assoc. split; [reflexivity|].
    rewrite stepsOfForest_cons, idsOfForest_cons.
    split; [by rewrite S, S1, <- app_assoc|]. eapply chain_app; eauto.
  - (* fail *) discriminate.
Qed.

End EngineSteps.

(* ===================================================================== *)
(** * The cursor and the EOF token *)
(* ===================================================================== *)

Section EngineCursor.
Import types_go grammar_go parser_go engine.

(** No grammar symbol other than the empty string matches the EOF token:
    its kind is none of the seven kinds of the [switch], and its text is
    empty. *)
Lemma matches_EOF (symbol : string) (token : Token) :
  symbol <> EmptyString -> Type_ token = TOKEN_EOF -> Value token = EmptyString ->
  matches symbol token = false.
Proof.
  intros N T V. unfold matches. rewrite T, V.
  repeat (match goal with |- (if ?b then _ else _) = _ => destruct b end;
          [reflexivity|]).
  destruct (String.eqb_spec EmptyString symbol); congruence.
Qed.

Lemma current_in_bounds p :
  inBounds p -> tokens p !! pos p = Some (current p).
Proof.
  unfold inBounds, current. intros H.
  destruct (tokens p !! pos p) eqn:E; [reflexivity|].
  apply lookup_ge_None in E. lia.
Qed.

Lemma current_last p :
  endsWithEOF (tokens p) -> S (pos p) = length (tokens p) ->
  Type_ (current p) = TOKEN_EOF /\ Value (current p) = EmptyString.
Proof.
  intros (init & n & E) H. unfold current. rewrite E in *.
  rewrite length_app in H. simpl in H.
  rewrite lookup_app_r by lia.
  replace (pos p - length init) with 0 by lia. by simpl.
Qed.

Lemma matchTerminal_inBounds symbol pid p r p' :
  symbol <> EmptyString -> endsWithEOF (tokens p) -> inBounds p ->
  matchTerminal symbol pid p = r -> outcome r = Some p' -> inBounds p'.
Proof.
  intros N E B. unfold matchTerminal.
  destruct (matches symbol (current p)) eqn:M; cbn [negb].
  - destruct (createNode _ _ _ _) as [n q] eqn:C. intros <- [= <-].
    assert (tokens q = tokens p /\ pos q = pos p) as [Tq Pq].
    { pose proof (f_equal snd C) as Q. simpl in Q. subst q. by split. }
    unfold inBounds, advance in *. rewrite Tq, Pq.
    destruct (Nat.ltb_spec (pos p) (length (tokens p))); [|lia]. simpl. rewrite Tq.
    destruct (decide (S (pos p) = length (tokens p))) as [L|L]; [|lia].
    destruct (current_last p E L) as [T V].
    rewrite (matches_EOF symbol _ N T V) in M. discriminate.
  - intros <- [= <-]. exact B.
Qed.

(** Under a grammar without empty symbols, on a token sequence that ends with
    the EOF token, no part of the engine moves the cursor off the
    sequence. *)
Lemma eval_inBounds :
  (forall symbol pid p r, evalNT symbol pid p r ->
     symbolsNonEmpty (grammar p) -> endsWithEOF (tokens p) -> inBounds p ->
     forall p', outcome r = Some p' -> inBounds p') /\
  (forall symbol node alts p r, evalTry symbol node alts p r ->
     Forall (Forall (fun s => s <> EmptyString)) alts ->
     symbolsNonEmpty (grammar p) -> endsWithEOF (tokens p) -> inBounds p ->
     forall p', outcome r = Some p' -> inBounds p') /\
  (forall symbols pid children p r, evalLoop symbols pid children p r ->
     Forall (fun s => s <> EmptyString) symbols ->
     symbolsNonEmpty (grammar p) -> endsWithEOF (tokens p) -> inBounds p ->
     forall p', outcome r = Some p' -> inBounds p').
Proof.
  apply eval_mutind.
  - intros symbol pid p L _ _ B p' [= <-]. exact B.
  - intros symbol pid p prod r L _ IH G E B p' O.
    apply (IH (G symbol prod L) G E B p' O).
  - intros symbol node p _ _ _ B p' [= <-]. exact B.
  - intros symbol node alt rest p children p' _ IH F G E B q [= <-].
    inversion F; subst. eapply IH; eauto; try reflexivity.
  - intros symbol node alt rest p msg p1 r HL IHL _ IHT F G E B q O.
    inversion F; subst.
    pose proof (proj2 (proj2 eval_extends) _ _ _ _ _ HL p1 eq_refl)
      as (XG & XT & _).
    eapply IHT; eauto; unfold backtrack, inBounds in *; simpl;
      rewrite ?XG, ?XT; auto.
  - intros pid children p _ _ _ B p' [= <-]. exact B.
  - intros symbol rest pid children p r _ _ IH F G E B p' O.
    inversion F; subst. eapply IH; eauto.
  - intros symbol rest pid children p node p1 r _ _ M _ IH F G E B p' O.
    inversion F; subst.
    pose proof (matchTerminal_extends _ _ _ _ p1 M eq_refl) as (XG & XT & _).
    eapply IH; eauto; rewrite ?XG, ?XT; auto.
    eapply matchTerminal_inBounds; eauto; try reflexivity.
  - intros symbol rest pid children p msg p1 _ _ M F G E B p' [= <-].
    inversion F; subst. eapply matchTerminal_inBounds; eauto; try reflexivity.
  - intros symbol rest pid children p subtree p1 r _ _ HN IHN _ IHL F G E B p' O.
    inversion F; subst.
    pose proof (proj1 eval_extends _ _ _ _ HN p1 eq_refl) as (XG & XT & _).
    eapply IHL; eauto; rewrite ?XG, ?XT; auto.
  - intros symbol rest pid children p msg p1 _ _ HN IHN F G E B p' [= <-].
    eapply IHN; eauto; try reflexivity.
Qed.

(** ** Every grammar that [ParseGrammar] builds is free of empty symbols *)

Lemma parseSymbols_nonEmpty body :
  Forall (fun s => s <> EmptyString) (parseSymbols body).
Proof.
  unfold parseSymbols.
  generalize (Go.Fields (Go.ReplaceAll (Go.ReplaceAll body "ε" " ε ") "epsilon" " ε ")).
  intros parts.
  assert (forall acc, Forall (fun s => s <> EmptyString) acc ->
    Forall (fun s => s <> EmptyString)
      (foldl (fun symbols part =>
                if negb (String.eqb (Go.TrimSpace part) EmptyString)
                then symbols ++ [Go.TrimSpace part] else symbols) acc parts)) as H.
  { induction parts as [|part parts IH]; intros acc F; simpl; [exact F|].
    apply IH. destruct (String.eqb_spec (Go.TrimSpace part) EmptyString); simpl.
    - exact F.
    - apply Forall_app; split; [exact F|]. by constructor. }
  apply H. constructor.
Qed.

Lemma parseAlternatives_nonEmpty alternatives :
  Forall (Forall (fun s => s <> EmptyString)) (parseAlternatives alternatives).
Proof.
  unfold parseAlternatives.
  assert (forall acc, Forall (Forall (fun s => s <> EmptyString)) acc ->
    Forall (Forall (fun s => s <> EmptyString))
      (foldl (fun bodies alt =>
                if String.eqb (Go.TrimSpace alt) EmptyString then bodies
                else if (0 <? length (parseSymbols (Go.TrimSpace alt)))%nat
                     then bodies ++ [parseSymbols (Go.TrimSpace alt)] else bodies)
             acc alternatives)) as H.
  { induction alternatives as [|alt alts IH]; intros acc F; simpl; [exact F|].
    apply IH. destruct (String.eqb _ _); [exact F|].
    destruct (_ <? _)%nat; [|exact F].
    apply Forall_app; split; [exact F|].
    constructor; [apply parseSymbols_nonEmpty|constructor]. }
  apply H. constructor.
Qed.

Lemma parseLine_nonEmpty st line :
  symbolsNonEmpty (fst st) -> symbolsNonEmpty (fst (parseLine st line)).
Proof.
  destruct st as [g isFirst]. unfold parseLine. intros H.
  destruct (_ || _); [exact H|].
  destruct (Go.ArrowSplit2 _) as [|part0 [|part1 [|? ?]]]; try exact H.
  destruct (String.eqb _ _); [exact H|].
  unfold symbolsNonEmpty in *. simpl in *.
  destruct (Productions g !! Go.TrimSpace part0) as [existing|] eqn:L.
  - apply map_Forall_insert_2; [|exact H]. simpl.
    apply Forall_app; split; [exact (H _ _ L)|apply parseAlternatives_nonEmpty].
  - apply map_Forall_insert_2; [|exact H]. simpl.
    apply parseAlternatives_nonEmpty.
Qed.

Lemma ParseGrammar_symbolsNonEmpty (text : string) :
  symbolsNonEmpty (ParseGrammar text).
Proof.
  unfold ParseGrammar, identifyTerminals, symbolsNonEmpty. simpl.
  generalize (Go.Split text newline). intros lines.
  assert (forall st, symbolsNonEmpty (fst st) ->
                     symbolsNonEmpty (fst (foldl parseLine st lines))) as H.
  { induction lines as [|line lines IH]; intros st F; simpl; [exact F|].
    apply IH, parseLine_nonEmpty, F. }
  apply (H (mkGrammar ∅ EmptyString ∅ ∅, true)).
  unfold symbolsNonEmpty. simpl. apply map_Forall_empty.
Qed.

End EngineCursor.

(* ===================================================================== *)
(** * Fuel *)
(* ===================================================================== *)

Section Fuel.
Import types_go grammar_go parser_go engine.

Lemma parseSymbolsLoop_mono (f f' : string -> Z -> Parser -> Res TreeNode) :
  (forall s pid p, f s pid p <> OutOfFuel -> f' s pid p = f s pid p) ->
  forall symbols pid children p,
    parseSymbolsLoop f symbols pid children p <> OutOfFuel ->
    parseSymbolsLoop f' symbols pid children p = parseSymbolsLoop f symbols pid children p.
Proof.
  intros Hf symbols. induction symbols as [|symbol rest IH]; intros pid children p H.
  - reflexivity.
  - cbn [parseSymbolsLoop] in *. destruct (isEpsilon symbol).
    + destruct (createNode "ε" true pid p) as [n q]. by apply IH.
    + destruct (isTerminal p symbol).
      * destruct (matchTerminal symbol pid p); auto.
      * pose proof (Hf symbol pid p) as E.
        destruct (f symbol pid p) as [t q|msg q|]; [| |congruence].
        -- rewrite E by discriminate. by apply IH.
        -- by rewrite E.
Qed.

Lemma tryAlternatives_mono
  (g g' : list string -> Z -> Parser -> Res (list TreeNode)) :
  (forall alt pid p, g alt pid p <> OutOfFuel -> g' alt pid p = g alt pid p) ->
  forall alts symbol node p,
    tryAlternatives g symbol node alts p <> OutOfFuel ->
    tryAlternatives g' symbol node alts p = tryAlternatives g symbol node alts p.
Proof.
  intros Hg alts. induction alts as [|alt rest IH]; intros symbol node p H.
  - reflexivity.
  - cbn [tryAlternatives] in *. pose proof (Hg alt (ID node) p) as E.
    destruct (g alt (ID node) p) as [cs q|msg q|]; [| |congruence].
    + by rewrite E.
    + rewrite E by discriminate. by apply IH.
Qed.

(** An outcome reached at some fuel is the outcome at every larger fuel. *)
Lemma parseNonTerminal_mono (fuel fuel' : nat) :
  fuel <= fuel' ->
  forall symbol pid p,
    parseNonTerminal fuel symbol pid p <> OutOfFuel ->
    parseNonTerminal fuel' symbol pid p = parseNonTerminal fuel symbol pid p.
Proof.
  revert fuel'. induction fuel as [|fuel IH]; intros fuel' L symbol pid p H.
  - simpl in H. congruence.
  - destruct fuel' as [|fuel']; [lia|]. cbn [parseNonTerminal] in *.
    destruct (Productions (grammar p) !! symbol); [|reflexivity].
    destruct (createNode symbol false pid p) as [node q].
    apply tryAlternatives_mono; [|exact H].
    intros alt pid' p'. apply parseSymbolsLoop_mono.
    intros s pid'' p''. apply IH. lia.
Qed.

Lemma Parse_mono (fuel fuel' : nat) p input rec x :
  fuel <= fuel' ->
  Parse fuel p input rec = Some x -> Parse fuel' p input rec = Some x.
Proof.
  intros L. unfold Parse. cbv zeta.
  destruct (String.eqb _ _); [auto|].
  intros H.
  rewrite (parseNonTerminal_mono fuel fuel' L); [exact H|].
  intros E. rewrite E in H. discriminate.
Qed.

(** [Parse] starts from the grammar of the parser alone: what an earlier
    call left in the other fields is overwritten. *)
Lemma Parse_grammar_only fuel p q input rec :
  grammar p = grammar q -> Parse fuel p input rec = Parse fuel q input rec.
Proof. intros E. unfold Parse, reset. by rewrite E. Qed.

End Fuel.

(* ===================================================================== *)
(** * Validation of the grammars that [ParseGrammar] builds *)
(* ===================================================================== *)

Section GrammarFacts.
Import types_go grammar_go.

Lemma parseLine_headsDefined st line :
  headsDefined (fst st) -> headsDefined (fst (parseLine st line)).
Proof.
  destruct st as [g isFirst]. unfold parseLine. intros H.
  destruct (_ || _); [exact H|].
  destruct (Go.ArrowSplit2 _) as [|part0 [|part1 [|? ?]]]; try exact H.
  destruct (String.eqb_spec (Go.TrimSpace part0) EmptyString) as [|NE]; [exact H|].
  destruct H as [H1 H2]. set (head := Go.TrimSpace part0) in *.
  assert (forall k m, is_Some (Productions g !! k) \/ k = head ->
            is_Some ((match Productions g !! head with
                      | Some existing =>
                        <[head := mkProduction (Head existing) (Body existing ++ m)]>
                          (Productions g)
                      | None => <[head := mkProduction head m]> (Productions g)
                      end) !! k)) as Ins.
  { intros k m Hk. destruct (decide (k = head)) as [->|Hne].
    - destruct (Productions g !! head); rewrite lookup_insert_eq; eauto.
    - destruct Hk as [Hk|]; [|done].
      destruct (Productions g !! head); by rewrite lookup_insert_ne. }
  split; simpl.
  - intros k Hk. apply Ins. unfold flag in Hk.
    destruct (decide (k = head)) as [->|Hne]; [by right|left].
    rewrite lookup_insert_ne in Hk by done. by apply H1.
  - intros Hs. apply Ins. destruct isFirst; [by right|left]. by apply H2.
Qed.

Lemma ParseGrammar_headsDefined (text : string) : headsDefined (ParseGrammar text).
Proof.
  unfold ParseGrammar.
  generalize (Go.Split text newline). intros lines.
  assert (forall st, headsDefined (fst st) ->
                     headsDefined (fst (foldl parseLine st lines))) as H.
  { induction lines as [|line lines IH]; intros st F; simpl; [exact F|].
    apply IH, parseLine_headsDefined, F. }
  apply (H (mkGrammar ∅ EmptyString ∅ ∅, true)).
  split; simpl; [|done]. intros k. unfold flag. by rewrite lookup_empty.
Qed.

Lemma checkUndefined_idle g result :
  headsDefined g -> checkUndefined g result = result.
Proof.
  intros [H _]. unfold checkUndefined.
  generalize (bodySymbols (Productions g)). intros symbols.
  induction symbols as [|symbol symbols IH]; simpl; [reflexivity|].
  destruct (flag (NonTerminals g) symbol) eqn:F; [|exact IH].
  destruct (H symbol F) as [prod ->]. exact IH.
Qed.

Lemma foldl_keeps {A B C : Type} (f : A -> B -> A) (proj : A -> C) :
  (forall a b, proj (f a b) = proj a) ->
  forall l a, proj (foldl f a l) = proj a.
Proof.
  intros H l. induction l as [|b l IH]; intros a; simpl; [reflexivity|].
  by rewrite IH.
Qed.

Lemma checkLeftRecursion_warns_only g result :
  Valid (checkLeftRecursion g result) = Valid result /\
  Errors (checkLeftRecursion g result) = Errors result.
Proof.
  unfold checkLeftRecursion. split.
  - apply (foldl_keeps _ Valid). intros a [head prod]. simpl.
    apply (foldl_keeps _ Valid). intros a' [|first l]; simpl; [reflexivity|].
    by destruct (String.eqb first head).
  - apply (foldl_keeps _ Errors). intros a [head prod]. simpl.
    apply (foldl_keeps _ Errors). intros a' [|first l]; simpl; [reflexivity|].
    by destruct (String.eqb first head).
Qed.

(** On the grammar of any text that has at least one production line,
    [ValidateGrammar] answers valid and reports no error: its check for
    undefined non-terminals never finds one, every head having an entry in
    [Productions], with or without alternatives. *)
Lemma ValidateGrammar_of_ParseGrammar (text : string) :
  StartSymbol (ParseGrammar text) <> EmptyString ->
  Valid (ValidateGrammar (ParseGrammar text)) = true /\
  Errors (ValidateGrammar (ParseGrammar text)) = [].
Proof.
  intros NS. pose proof (ParseGrammar_headsDefined text) as HD.
  unfold ValidateGrammar.
  destruct (String.eqb_spec (StartSymbol (ParseGrammar text)) EmptyString);
    [contradiction|].
  destruct (proj2 HD NS) as [prod ->].
  rewrite (checkUndefined_idle _ _ HD).
  apply checkLeftRecursion_warns_only.
Qed.

End GrammarFacts.

(* ===================================================================== *)
(** * The claims *)
(* ===================================================================== *)

Section Claims.
Import types_go grammar_go parser_go engine replay scenarios.

(** C1.  Step/tree consistency: whenever [Parse] with step recording
    succeeds, replaying the whole step log in order (one node per step, with
    the id of the step, attached under the node whose id is the parent id of
    the step, or root for the sentinel -1, label and terminal flag read off
    the description) reconstructs one tree, and that tree is isomorphic to the
    tree of the result: same shape, same labels, same terminal flags.  It
    has the same ids as well: the log is the document-order listing of the
    tree, and the replay returns the tree itself. *)
Theorem replay_reconstructs_tree
  (fuel : nat) (p : Parser) (input : string) (r : ParseResult) (p' : Parser) :
  Parse fuel p input true = Some (r, p') ->
  Success r = true ->
  exists tree rebuilt,
    Tree r = Some tree /\
    replay (Steps r) = Some rebuilt /\
    isomorphic rebuilt tree /\
    Steps r = stepsOf sentinel tree /\
    rebuilt = tree.
Proof.
  unfold Parse. cbv zeta. destruct (String.eqb _ _).
  { intros [= <- <-]. discriminate. }
  destruct (parseNonTerminal fuel _ _ _) as [tree q|msg q|] eqn:E;
    [| intros [= <- <-]; discriminate | discriminate].
  destruct (negb _); intros [= <- <-]; [discriminate|]. intros _.
  assert (parseNonTerminal fuel (StartSymbol (grammar (reset p input true)))
            (-1) (reset p input true) <> OutOfFuel) as NF by (rewrite E; discriminate).
  pose proof (parseNonTerminal_eval _ _ _ _ NF) as Ev. rewrite E in Ev.
  destruct (proj1 eval_steps _ _ _ _ Ev tree q eq_refl eq_refl) as (S & C).
  simpl in S, C. exists tree, tree. cbn [Tree Steps].
  split; [reflexivity|].
  split; [|split; [apply isomorphic_refl|split; [exact S|reflexivity]]].
  rewrite S. apply replay_stepsOf.
  - intros Hin. apply chain_bounds in C. rewrite Forall_forall in C.
    apply C in Hin. unfold sentinel in Hin. lia.
  - eapply chain_NoDup, C.
Qed.

Lemma replay_reconstructs_tree_witness :
  exists r p',
    Parse 3 abParser "a c" true = Some (r, p') /\
    Success r = true /\
    exists tree rebuilt,
      Tree r = Some tree /\
      replay (Steps r) = Some rebuilt /\
      isomorphic rebuilt tree /\
      Steps r = stepsOf sentinel tree /\
      rebuilt = tree.
Proof.
  destruct (Parse 3 abParser "a c" true) as [[r p']|] eqn:E;
    [|vm_compute in E; discriminate].
  exists r, p'. split; [reflexivity|].
  assert (Success r = true) as HS.
  { vm_compute in E. injection E as <- _. reflexivity. }
  split; [exact HS|].
  exact (replay_reconstructs_tree 3 abParser "a c" r p' E HS).
Defined.

(** The body of [parseNonTerminal] for a symbol that has a production: the
    node is created, then the loop over the alternatives runs. *)
Lemma parseNonTerminal_unfold fuel symbol pid p prod :
  Productions (grammar p) !! symbol = Some prod ->
  parseNonTerminal (S fuel) symbol pid p =
  tryAlternatives (parseAlternative fuel) symbol
    (fst (createNode symbol false pid p)) (Body prod)
    (snd (createNode symbol false pid p)).
Proof.
  intros L. cbn [parseNonTerminal]. rewrite L.
  by destruct (createNode symbol false pid p).
Qed.

(** C2.  Backtracking: when an alternative fails in the loop of
    [parseNonTerminal], the loop goes on with the remaining alternatives from
    a parser whose cursor is the cursor from before the attempt and whose
    step log is the log from before the attempt (the truncation to the saved
    length removes exactly the steps of the failed attempt), over the same
    tokens: the current token is again the one the failed alternative
    started on.  In particular an alternative B that follows a failed
    alternative A is tried from there, and its success is the success of the
    loop. *)
Theorem failed_alternative_is_undone
  (fuel : nat) (symbol : string) (node : TreeNode) (alt : list string)
  (rest : list (list string)) (p : Parser) (msg : string) (p1 : Parser) :
  parseAlternative fuel alt (ID node) p = Err msg p1 ->
  let p2 := backtrack (pos p) (length (steps p)) p1 in
  tryAlternatives (parseAlternative fuel) symbol node (alt :: rest) p
    = tryAlternatives (parseAlternative fuel) symbol node rest p2 /\
  pos p2 = pos p /\
  steps p2 = steps p /\
  length (steps p2) = length (steps p) /\
  tokens p2 = tokens p /\
  current p2 = current p /\
  (forall altB rest' children q,
     rest = altB :: rest' ->
     parseAlternative fuel altB (ID node) p2 = Ok children q ->
     tryAlternatives (parseAlternative fuel) symbol node (alt :: rest) p
       = Ok (mkTreeNode (ID node) (Label node) children (IsTerminal node)) q).
Proof.
  intros H p2.
  assert (parseAlternative fuel alt (ID node) p <> OutOfFuel) as NF
    by (rewrite H; discriminate).
  pose proof (parseAlternative_eval _ _ _ _ NF) as Ev. rewrite H in Ev.
  pose proof (proj2 (proj2 eval_extends) _ _ _ _ _ Ev p1 eq_refl) as X.
  pose proof (backtrack_steps p p1 X) as BS. fold p2 in BS.
  destruct X as (_ & XT & _).
  assert (tryAlternatives (parseAlternative fuel) symbol node (alt :: rest) p
          = tryAlternatives (parseAlternative fuel) symbol node rest p2) as Step.
  { cbn [tryAlternatives]. by rewrite H. }
  assert (tokens p2 = tokens p) as T2 by exact XT.
  repeat split; auto.
  - by rewrite BS.
  - unfold current. by rewrite T2.
  - intros altB rest' children q -> HB. rewrite Step.
    cbn [tryAlternatives]. by rewrite HB.
Qed.

Lemma failed_alternative_is_undone_witness :
  exists msg p1,
    parseAlternative 0 ["a"; "b"] (ID abNode) abStart = Err msg p1 /\
    pos abStart = 0 /\ pos p1 = 1 /\
    let p2 := backtrack (pos abStart) (length (steps abStart)) p1 in
    tryAlternatives (parseAlternative 0) "S" abNode [["a"; "b"]; ["a"; "c"]] abStart
      = tryAlternatives (parseAlternative 0) "S" abNode [["a"; "c"]] p2 /\
    pos p2 = pos abStart /\
    steps p2 = steps abStart /\
    length (steps p2) = length (steps abStart) /\
    tokens p2 = tokens abStart /\
    current p2 = current abStart /\
    (forall altB rest' children q,
       [["a"; "c"]] = altB :: rest' ->
       parseAlternative 0 altB (ID abNode) p2 = Ok children q ->
       tryAlternatives (parseAlternative 0) "S" abNode [["a"; "b"]; ["a"; "c"]] abStart
         = Ok (mkTreeNode (ID abNode) (Label abNode) children (IsTerminal abNode)) q).
Proof.
  destruct (parseAlternative 0 ["a"; "b"] (ID abNode) abStart)
    as [cs q|msg p1|] eqn:E;
    [vm_compute in E; discriminate| |vm_compute in E; discriminate].
  exists msg, p1. split; [reflexivity|]. split; [reflexivity|].
  split; [vm_compute in E; by injection E as _ <-|].
  exact (failed_alternative_is_undone 0 "S" abNode ["a"; "b"] [["a"; "c"]]
           abStart msg p1 E).
Defined.

(** C3.  Exhaustive consumption.  Whenever [Parse] returns success, the
    token under the cursor is the EOF token and every other token of the
    sequence lies before the cursor.  And whenever the expansion of the start
    symbol succeeds with a token other than EOF under the cursor, [Parse]
    does return, and what it returns is the failure, without tree and
    without steps, whose error names the text and the position of that
    token. *)
Theorem Parse_success_requires_EOF
  (fuel : nat) (p : Parser) (input : string) (rec : bool) :
  (forall r p',
     Parse fuel p input rec = Some (r, p') ->
     Success r = true ->
     Type_ (current p') = TOKEN_EOF /\
     tokens p' = lexer_go.Tokenize (lexer_go.NewLexer input) /\
     forall i t, tokens p' !! i = Some t -> Type_ t <> TOKEN_EOF -> i < pos p') /\
  (forall tree p',
     StartSymbol (grammar p) <> EmptyString ->
     parseNonTerminal fuel (StartSymbol (grammar p)) (-1) (reset p input rec)
       = Ok tree p' ->
     Type_ (current p') <> TOKEN_EOF ->
     Parse fuel p input rec =
     Some (mkParseResult false None []
             ("Unexpected token '" +:+ Value (current p') +:+ "' at position "
                +:+ Go.Itoa (Position (current p')))
             (lexer_go.Tokenize (lexer_go.NewLexer input)), p')).
Proof.
  split.
  - intros r p'. unfold Parse. cbv zeta.
    change (grammar (reset p input rec)) with (grammar p). intros H.
    destruct (String.eqb _ _); [injection H as <- <-; discriminate|].
    destruct (parseNonTerminal fuel _ _ _) as [tree q|msg q|] eqn:E;
      [|injection H as <- <-; discriminate|discriminate].
    destruct (bool_decide (Type_ (current q) = TOKEN_EOF)) eqn:B; simpl in H;
      injection H as <- <-; [|discriminate].
    intros _. apply bool_decide_eq_true in B.
    assert (parseNonTerminal fuel (StartSymbol (grammar p)) (-1)
              (reset p input rec) <> OutOfFuel) as NF by (rewrite E; discriminate).
    pose proof (parseNonTerminal_eval _ _ _ _ NF) as Ev. rewrite E in Ev.
    pose proof (proj1 eval_extends _ _ _ _ Ev q eq_refl) as (_ & XT & _).
    simpl in XT. split; [exact B|]. split; [exact XT|].
    destruct (Tokenize_ends_with_EOF (lexer_go.NewLexer input)) as (toks & TE & TF).
    rewrite TE in XT. intros i t L NE.
    rewrite XT in L.
    destruct (Nat.lt_ge_cases i (pos q)) as [|G]; [assumption|exfalso].
    unfold current in B. rewrite XT in B.
    destruct (Nat.lt_ge_cases (pos q) (length toks)) as [Lt|Ge].
    + rewrite lookup_app_l in B by exact Lt.
      destruct (toks !! pos q) as [u|] eqn:U.
      * rewrite Forall_forall in TF. apply (TF u); [|exact B].
        eapply list_elem_of_lookup_2, U.
      * apply lookup_ge_None in U. lia.
    + apply lookup_lt_Some in L as Li. rewrite length_app in Li. simpl in Li.
      assert (i = length toks) as -> by lia.
      rewrite lookup_app_r in L by lia. rewrite Nat.sub_diag in L.
      simpl in L. injection L as <-. by apply NE.
  - intros tree p' NS E NE. unfold Parse. cbv zeta.
    change (grammar (reset p input rec)) with (grammar p).
    destruct (String.eqb_spec (StartSymbol (grammar p)) EmptyString) as [?|_];
      [contradiction|].
    rewrite E.
    destruct (bool_decide (Type_ (current p') = TOKEN_EOF)) eqn:B.
    + apply bool_decide_eq_true in B. contradiction.
    + reflexivity.
Qed.

Lemma Parse_success_requires_EOF_witness :
  (exists r p',
     Parse 5 defaultParser "3" false = Some (r, p') /\
     Success r = true /\
     Type_ (current p') = TOKEN_EOF /\
     tokens p' = lexer_go.Tokenize (lexer_go.NewLexer "3") /\
     forall i t, tokens p' !! i = Some t -> Type_ t <> TOKEN_EOF -> i < pos p') /\
  (exists tree p',
     StartSymbol (grammar defaultParser) <> EmptyString /\
     parseNonTerminal 5 (StartSymbol (grammar defaultParser)) (-1)
       (reset defaultParser "3 3" false) = Ok tree p' /\
     Type_ (current p') <> TOKEN_EOF /\
     "Unexpected token '" +:+ Value (current p') +:+ "' at position "
       +:+ Go.Itoa (Position (current p'))
     = "Unexpected token '3' at position 2" /\
     Parse 5 defaultParser "3 3" false =
     Some (mkParseResult false None []
             ("Unexpected token '" +:+ Value (current p') +:+ "' at position "
                +:+ Go.Itoa (Position (current p')))
             (lexer_go.Tokenize (lexer_go.NewLexer "3 3")), p')).
Proof.
  split.
  - destruct (Parse 5 defaultParser "3" false) as [[r p']|] eqn:E;
      [|vm_compute in E; discriminate].
    assert (Success r = true) as HS.
    { vm_compute in E. injection E as <- _. reflexivity. }
    exists r, p'. split; [reflexivity|]. split; [exact HS|].
    exact (proj1 (Parse_success_requires_EOF 5 defaultParser "3" false) r p' E HS).
  - assert (StartSymbol (grammar defaultParser) <> EmptyString) as NS
      by (vm_compute; discriminate).
    destruct (parseNonTerminal 5 (StartSymbol (grammar defaultParser)) (-1)
                (reset defaultParser "3 3" false)) as [tree p'| |] eqn:E;
      [|vm_compute in E; discriminate|vm_compute in E; discriminate].
    assert (Type_ (current p') <> TOKEN_EOF /\
            "Unexpected token '" +:+ Value (current p') +:+ "' at position "
              +:+ Go.Itoa (Position (current p'))
            = "Unexpected token '3' at position 2") as [NE M].
    { pose proof E as E'. vm_compute in E'. injection E' as _ <-.
      split; [vm_compute; discriminate|vm_compute; reflexivity]. }
    exists tree, p'. split; [exact NS|]. split; [reflexivity|].
    split; [exact NE|]. split; [exact M|].
    exact (proj2 (Parse_success_requires_EOF 5 defaultParser "3 3" false)
             tree p' NS E NE).
Defined.

(** The result of [Parse] on the default grammar and the input [3 +]. *)
Lemma Parse_three_plus (fuel : nat) (rec : bool) :
  5 <= fuel ->
  exists p',
    Parse fuel defaultParser "3 +" rec =
    Some (mkParseResult false None []
            "Unexpected token '+' at position 2"
            [mkToken TOKEN_NUMBER "3" 0; mkToken TOKEN_PLUS "+" 2;
             mkToken TOKEN_EOF EmptyString 3], p').
Proof.
  intros L.
  destruct (Parse 5 defaultParser "3 +" rec) as [[r p']|] eqn:E;
    [|destruct rec; vm_compute in E; discriminate].
  exists p'. apply (Parse_mono 5 fuel _ _ _ _ L). rewrite E.
  destruct rec; vm_compute in E; injection E as <- _; reflexivity.
Qed.

(** C4, as stated, fails: on the default grammar and the input [3 +] the
    error of [Parse] is not a message about a terminal that does not match
    or is missing after the [+]; it is the message about input left over,
    and the token it names is the [+] itself.  (The alternative
    [+ T E'] fails on the EOF token, the engine backtracks to before the
    [+], the alternative ε succeeds, and the expansion ends on the [+].) *)
Lemma three_plus_error_is_not_unmatched_terminal :
  exists r p',
    Parse 5 defaultParser "3 +" false = Some (r, p') /\
    Success r = false /\
    Error r = "Unexpected token '+' at position 2" /\
    (UnmatchedTerminalError (Error r) -> False).
Proof.
  destruct (Parse_three_plus 5 false (le_n 5)) as [p' E].
  eexists _, p'. split; [exact E|]. cbn [Success Error].
  split; [reflexivity|]. split; [reflexivity|].
  intros [(symbol & token & H)|(symbol & q & H)]; discriminate H.
Qed.

(** C4, amended.  With the default arithmetic grammar and the input [3 +],
    [Parse] returns failure, with or without step recording and at every
    fuel from 5 on, and the error is the one for input left over, naming the
    [+] at position 2: [Unexpected token '+' at position 2]. *)
Theorem three_plus_fails_with_trailing_input (fuel : nat) (rec : bool) :
  5 <= fuel ->
  exists r p',
    Parse fuel defaultParser "3 +" rec = Some (r, p') /\
    Success r = false /\
    Tree r = None /\
    Error r = unexpectedError (mkToken TOKEN_PLUS "+" 2) /\
    Error r = "Unexpected token '+' at position 2".
Proof.
  intros L. destruct (Parse_three_plus fuel rec L) as [p' E].
  eexists _, p'. split; [exact E|]. repeat split.
Qed.

Lemma three_plus_fails_with_trailing_input_witness :
  5 <= 7 /\
  exists r p',
    Parse 7 defaultParser "3 +" true = Some (r, p') /\
    Success r = false /\
    Tree r = None /\
    Error r = unexpectedError (mkToken TOKEN_PLUS "+" 2) /\
    Error r = "Unexpected token '+' at position 2".
Proof.
  assert (5 <= 7) as L by lia.
  split; [exact L|].
  exact (three_plus_fails_with_trailing_input 7 true L).
Defined.

(** C5 at its failing input, the grammar [S -> X] followed by [X ->]: the
    line [X ->] contributes no alternative, [X] is referenced in the body of
    [S], and [ValidateGrammar] returns valid, without any error.  The line
    registers a production for [X] with an empty body, so the check for
    undefined non-terminals, which looks for a missing production, cannot
    see it. *)
Theorem empty_head_passes_validation :
  let g := ParseGrammar emptyHeadGrammar in
  Productions g !! "X" = Some (mkProduction "X" []) /\
  Productions g !! "S" = Some (mkProduction "S" [["X"]]) /\
  flag (NonTerminals g) "X" = true /\
  ValidateGrammar g = mkValidationResult true [] [].
Proof. vm_compute. repeat split. Qed.

(** C6.  Parsing the input [2] with step recording against the grammar
    [F -> number] succeeds at every fuel from 1 on and records exactly two
    steps: the expansion of [F], with node id 1 and the sentinel -1 as parent
    id, then the match of the terminal [2], with node id 2 and parent id 1. *)
Theorem scenario_number_steps (fuel : nat) :
  exists r p',
    Parse (S fuel) numberParser "2" true = Some (r, p') /\
    Success r = true /\
    Steps r = [mkStep "add" "Expand non-terminal <F>" 1 (-1);
               mkStep "add" "Match terminal '2'" 2 1] /\
    length (Steps r) = 2.
Proof.
  destruct (Parse 1 numberParser "2" true) as [[r p']|] eqn:E;
    [|vm_compute in E; discriminate].
  exists r, p'. split.
  - apply (Parse_mono 1 (S fuel)); [lia|exact E].
  - vm_compute in E. injection E as <- _. repeat split.
Qed.

(** C7 at its failing input, the multiplication sign [×] (the two bytes
    0xC3 0x97): the lexer reads the input byte by byte and takes each byte
    for the character of that number.  The first byte is the letter Ã for
    [unicode.IsLetter] and becomes an identifier; the second is unrecognized,
    and its UNKNOWN token holds [string(ch)], the UTF-8 encoding of U+0097,
    which is the two bytes 0xC2 0x97: neither the character [×] nor the byte
    that was read. *)
Theorem Tokenize_multiplication_sign :
  lexer_go.Tokenize (lexer_go.NewLexer "×") =
  [mkToken TOKEN_IDENT (String (ascii_of_nat 195) EmptyString) 0;
   mkToken TOKEN_UNKNOWN
     (String (ascii_of_nat 194) (String (ascii_of_nat 151) EmptyString)) 1;
   mkToken TOKEN_EOF EmptyString 2].
Proof. vm_compute. reflexivity. Qed.

(** C8 at its failing input: an identifier that merely contains the letters
    [epsilon] does not remain one symbol; [strings.ReplaceAll] replaces the
    letters wherever they occur, and the identifier is cut into an ε and
    what is left of it. *)
Theorem parseSymbols_cuts_identifier :
  parseSymbols "a epsilon_closure b" = ["a"; "ε"; "_closure"; "b"] /\
  parseSymbols "Aepsilon" = ["A"; "ε"] /\
  Body <$> (Productions (ParseGrammar "S -> a epsilon_closure b") !! "S")
    = Some [["a"; "ε"; "_closure"; "b"]].
Proof. vm_compute. repeat split. Qed.

(** C9.  Determinism: two runs of [Parse] on the same grammar, the same
    input and the same recording flag return the same result (success flag,
    tree with its node ids, step log, error, tokens) and leave the parser in
    the same state, whatever the two parsers held before besides the grammar
    (a second run on a parser that has parsed before, for one) and however
    deep the recursion was allowed to go; and where the first run returns,
    so does the second. *)
Theorem Parse_deterministic
  (fuel1 fuel2 : nat) (p1 p2 : Parser) (input : string) (rec : bool)
  (r1 r2 : ParseResult) (q1 q2 : Parser) :
  grammar p1 = grammar p2 ->
  Parse fuel1 p1 input rec = Some (r1, q1) ->
  Parse fuel2 p2 input rec = Some (r2, q2) ->
  r1 = r2 /\
  Success r1 = Success r2 /\ Tree r1 = Tree r2 /\
  Steps r1 = Steps r2 /\ Tokens r1 = Tokens r2 /\
  q1 = q2 /\
  Parse fuel1 p2 input rec = Some (r1, q1).
Proof.
  intros G H1 H2.
  rewrite (Parse_grammar_only fuel1 p1 p2 input rec G) in H1.
  pose proof H1 as H0.
  apply (Parse_mono fuel1 (Nat.max fuel1 fuel2)) in H1; [|lia].
  apply (Parse_mono fuel2 (Nat.max fuel1 fuel2)) in H2; [|lia].
  rewrite H1 in H2. injection H2 as <- <-. repeat split. exact H0.
Qed.

Lemma Parse_deterministic_witness :
  exists r1 q1 r2 q2,
    grammar defaultParser = grammar q1 /\
    Parse 5 defaultParser "3 + 5 * 2" true = Some (r1, q1) /\
    Parse 9 q1 "3 + 5 * 2" true = Some (r2, q2) /\
    r1 = r2 /\
    Success r1 = Success r2 /\ Tree r1 = Tree r2 /\
    Steps r1 = Steps r2 /\ Tokens r1 = Tokens r2 /\
    q1 = q2 /\
    Parse 5 q1 "3 + 5 * 2" true = Some (r1, q1).
Proof.
  destruct (Parse 5 defaultParser "3 + 5 * 2" true) as [[r1 q1]|] eqn:E1;
    [|vm_compute in E1; discriminate].
  assert (grammar defaultParser = grammar q1) as G.
  { vm_compute in E1. injection E1 as _ <-. reflexivity. }
  destruct (Parse 9 q1 "3 + 5 * 2" true) as [[r2 q2]|] eqn:E2.
  2:{ rewrite <- (Parse_grammar_only 9 defaultParser q1 _ _ G) in E2.
      vm_compute in E2. discriminate. }
  exists r1, q1, r2, q2. split; [exact G|]. split; [reflexivity|].
  split; [exact E2|].
  exact (Parse_deterministic 5 9 defaultParser q1 "3 + 5 * 2" true r1 r2 q1 q2
           G E1 E2).
Defined.

(** C10.  The EOF token is never matched or consumed.  [matchTerminal] fails
    on the EOF token for every symbol other than the empty string, leaving
    the parser as it was.  No symbol of a grammar built by [ParseGrammar] is
    empty; under such a grammar, on tokens that end with the EOF token,
    [matchTerminal], [parseNonTerminal] and [parseAlternative] keep the
    cursor on a token of the sequence whatever their outcome (every state in
    which the engine reads the current token is the state at the entry of
    such a call or the state that one leaves).  Hence after [Parse] the
    cursor is at most the index of the final EOF token, and [current]
    returns the element of the token sequence under the cursor, not its
    fallback. *)
Theorem EOF_token_is_never_consumed :
  (forall symbol pid q,
     symbol <> EmptyString ->
     Type_ (current q) = TOKEN_EOF -> Value (current q) = EmptyString ->
     matchTerminal symbol pid q = Err (expectedError symbol (current q)) q) /\
  (forall text, symbolsNonEmpty (ParseGrammar text)) /\
  (forall symbol pid q r q',
     symbol <> EmptyString -> endsWithEOF (tokens q) -> inBounds q ->
     matchTerminal symbol pid q = r -> outcome r = Some q' ->
     inBounds q' /\ tokens q' !! pos q' = Some (current q')) /\
  (forall fuel symbol pid q r q',
     symbolsNonEmpty (grammar q) -> endsWithEOF (tokens q) -> inBounds q ->
     parseNonTerminal fuel symbol pid q = r -> outcome r = Some q' ->
     inBounds q' /\ tokens q' !! pos q' = Some (current q')) /\
  (forall fuel symbols pid q r q',
     Forall (fun s => s <> EmptyString) symbols ->
     symbolsNonEmpty (grammar q) -> endsWithEOF (tokens q) -> inBounds q ->
     parseAlternative fuel symbols pid q = r -> outcome r = Some q' ->
     inBounds q' /\ tokens q' !! pos q' = Some (current q')) /\
  (forall fuel p input rec r p',
     symbolsNonEmpty (grammar p) ->
     Parse fuel p input rec = Some (r, p') ->
     tokens p' = lexer_go.Tokenize (lexer_go.NewLexer input) /\
     S (pos p') <= length (tokens p') /\
     tokens p' !! pos p' = Some (current p')).
Proof.
  assert (HNT : forall fuel symbol pid q r q',
     symbolsNonEmpty (grammar q) -> endsWithEOF (tokens q) -> inBounds q ->
     parseNonTerminal fuel symbol pid q = r -> outcome r = Some q' ->
     inBounds q').
  { intros fuel symbol pid q r q' G E B H O.
    assert (parseNonTerminal fuel symbol pid q <> OutOfFuel) as NF
      by (rewrite H; intros ->; discriminate).
    pose proof (parseNonTerminal_eval _ _ _ _ NF) as Ev. rewrite H in Ev.
    exact (proj1 eval_inBounds _ _ _ _ Ev G E B q' O). }
  split; [|split; [|split; [|split; [|split]]]].
  - intros symbol pid q N T V. unfold matchTerminal.
    by rewrite (matches_EOF symbol _ N T V).
  - apply ParseGrammar_symbolsNonEmpty.
  - intros symbol pid q r q' N E B H O.
    pose proof (matchTerminal_inBounds symbol pid q r q' N E B H O) as B'.
    split; [exact B'|by apply current_in_bounds].
  - intros fuel symbol pid q r q' G E B H O.
    pose proof (HNT fuel symbol pid q r q' G E B H O) as B'.
    split; [exact B'|by apply current_in_bounds].
  - intros fuel symbols pid q r q' F G E B H O.
    assert (parseAlternative fuel symbols pid q <> OutOfFuel) as NF
      by (rewrite H; intros ->; discriminate).
    pose proof (parseAlternative_eval _ _ _ _ NF) as Ev. rewrite H in Ev.
    pose proof (proj2 (proj2 eval_inBounds) _ _ _ _ _ Ev F G E B q' O) as B'.
    split; [exact B'|by apply current_in_bounds].
  - intros fuel p input rec r p' G. unfold Parse. cbv zeta.
    change (grammar (reset p input rec)) with (grammar p).
    destruct (Tokenize_ends_with_EOF (lexer_go.NewLexer input)) as (toks & TE & _).
    assert (endsWithEOF (tokens (reset p input rec))) as E0.
    { exists toks, (Z.of_nat (String.length input)). exact TE. }
    assert (inBounds (reset p input rec)) as B0.
    { unfold inBounds. simpl. rewrite TE, length_app. simpl. lia. }
    assert (forall q, tokens q = tokens (reset p input rec) -> inBounds q ->
              tokens q = lexer_go.Tokenize (lexer_go.NewLexer input) /\
              S (pos q) <= length (tokens q) /\
              tokens q !! pos q = Some (current q)) as Fin.
    { intros q T B. split; [exact T|].
      split; [exact B|by apply current_in_bounds]. }
    destruct (String.eqb _ _).
    { intros [= <- <-]. by apply Fin. }
    destruct (parseNonTerminal fuel _ _ _) as [tree q|msg q|] eqn:H;
      [| |discriminate].
    + assert (parseNonTerminal fuel (StartSymbol (grammar p)) (-1)
                (reset p input rec) <> OutOfFuel) as NF by (rewrite H; discriminate).
      pose proof (parseNonTerminal_eval _ _ _ _ NF) as Ev. rewrite H in Ev.
      pose proof (proj1 eval_extends _ _ _ _ Ev q eq_refl) as (_ & XT & _).
      pose proof (HNT fuel _ _ (reset p input rec) _ q G E0 B0 H eq_refl) as B'.
      destruct (negb _); intros [= <- <-]; by apply Fin.
    + assert (parseNonTerminal fuel (StartSymbol (grammar p)) (-1)
                (reset p input rec) <> OutOfFuel) as NF by (rewrite H; discriminate).
      pose proof (parseNonTerminal_eval _ _ _ _ NF) as Ev. rewrite H in Ev.
      pose proof (proj1 eval_extends _ _ _ _ Ev q eq_refl) as (_ & XT & _).
      pose proof (HNT fuel _ _ (reset p input rec) _ q G E0 B0 H eq_refl) as B'.
      intros [= <- <-]. by apply Fin.
Qed.

Lemma EOF_token_is_never_consumed_witness :
  exists r p',
    symbolsNonEmpty (grammar defaultParser) /\
    Parse 5 defaultParser "3 +" false = Some (r, p') /\
    tokens p' = lexer_go.Tokenize (lexer_go.NewLexer "3 +") /\
    S (pos p') <= length (tokens p') /\
    tokens p' !! pos p' = Some (current p').
Proof.
  destruct (Parse 5 defaultParser "3 +" false) as [[r p']|] eqn:E;
    [|vm_compute in E; discriminate].
  pose proof (proj1 (proj2 EOF_token_is_never_consumed)
                GetDefaultArithmeticGrammar) as G.
  exists r, p'. split; [exact G|]. split; [reflexivity|].
  exact (proj2 (proj2 (proj2 (proj2 (proj2 EOF_token_is_never_consumed))))
           5 defaultParser "3 +" false r p' G E).
Defined.

End Claims.

(* ===================================================================== *)
(** * Further properties of the engine *)
(* ===================================================================== *)

Section EngineMore.
Import types_go grammar_go parser_go engine replay notions.

(** ** Recording changes the log and nothing else *)

Lemma createNode_silent label isT pid p :
  createNode label isT pid (silent p)
  = (fst (createNode label isT pid p), silent (snd (createNode label isT pid p))).
Proof. reflexivity. Qed.

Lemma matchTerminal_silent symbol pid p :
  matchTerminal symbol pid (silent p) = silentRes (matchTerminal symbol pid p).
Proof.
  unfold matchTerminal. change (current (silent p)) with (current p).
  destruct (negb _); [reflexivity|].
  rewrite createNode_silent.
  destruct (createNode (Value (current p)) true pid p) as [n q]. simpl.
  unfold advance, silent; simpl. by destruct (_ <? _)%nat.
Qed.

Lemma parseSymbolsLoop_silent (f f' : string -> Z -> Parser -> Res TreeNode) :
  (forall s pid p, f' s pid (silent p) = silentRes (f s pid p)) ->
  forall symbols pid children p,
    parseSymbolsLoop f' symbols pid children (silent p)
    = silentRes (parseSymbolsLoop f symbols pid children p).
Proof.
  intros Hf symbols. induction symbols as [|symbol rest IH]; intros pid children p.
  - reflexivity.
  - cbn [parseSymbolsLoop]. destruct (isEpsilon symbol).
    + rewrite createNode_silent.
      destruct (createNode "ε" true pid p) as [n q]. simpl. apply IH.
    + change (isTerminal (silent p) symbol) with (isTerminal p symbol).
      destruct (isTerminal p symbol).
      * rewrite matchTerminal_silent.
        destruct (matchTerminal symbol pid p); simpl; auto.
      * rewrite Hf. destruct (f symbol pid p); simpl; auto.
Qed.

Lemma tryAlternatives_silent
  (g g' : list string -> Z -> Parser -> Res (list TreeNode)) :
  (forall alt pid p, g' alt pid (silent p) = silentRes (g alt pid p)) ->
  forall alts symbol node p,
    tryAlternatives g' symbol node alts (silent p)
    = silentRes (tryAlternatives g symbol node alts p).
Proof.
  intros Hg alts. induction alts as [|alt rest IH]; intros symbol node p.
  - reflexivity.
  - cbn [tryAlternatives]. rewrite Hg.
    destruct (g alt (ID node) p) as [cs q|msg q|]; simpl; [reflexivity| |reflexivity].
    rewrite <- IH. f_equal.
Qed.

Lemma parseNonTerminal_silent fuel symbol pid p :
  parseNonTerminal fuel symbol pid (silent p)
  = silentRes (parseNonTerminal fuel symbol pid p).
Proof.
  revert symbol pid p. induction fuel as [|fuel IH]; intros symbol pid p.
  - reflexivity.
  - cbn [parseNonTerminal]. change (grammar (silent p)) with (grammar p).
    destruct (Productions (grammar p) !! symbol); [|reflexivity].
    rewrite createNode_silent.
    destruct (createNode symbol false pid p) as [node q]. simpl.
    apply tryAlternatives_silent. intros alt pid' p'.
    apply parseSymbolsLoop_silent. apply IH.
Qed.

Lemma Parse_silent fuel p input :
  Parse fuel p input false =
  match Parse fuel p input true with
  | Some (r, q) => Some (withoutSteps r, silent q)
  | None => None
  end.
Proof.
  unfold Parse. cbv zeta.
  change (reset p input false) with (silent (reset p input true)).
  change (grammar (silent (reset p input true))) with (grammar (reset p input true)).
  destruct (String.eqb _ _); [reflexivity|].
  rewrite parseNonTerminal_silent.
  destruct (parseNonTerminal fuel _ _ _) as [tree q|msg q|]; simpl; auto.
  change (current (silent q)) with (current q).
  by destruct (negb _).
Qed.

(** ** Direct left recursion in a first alternative *)

Lemma parseNonTerminal_left_recursive g symbol prod rest alts :
  Productions g !! symbol = Some prod ->
  Body prod = (symbol :: rest) :: alts ->
  isEpsilon symbol = false ->
  (forall p, grammar p = g -> isTerminal p symbol = false) ->
  forall fuel pid p, grammar p = g ->
    parseNonTerminal fuel symbol pid p = OutOfFuel.
Proof.
  intros L B E T fuel. induction fuel as [|fuel IH]; intros pid p G.
  - reflexivity.
  - cbn [parseNonTerminal]. rewrite G, L, B.
    destruct (createNode symbol false pid p) as [node q] eqn:C.
    assert (grammar q = g) as Gq.
    { pose proof (f_equal snd C) as Q. simpl in Q. by subst q. }
    cbn [tryAlternatives parseSymbolsLoop]. rewrite E, (T q Gq).
    by rewrite (IH (ID node) q Gq).
Qed.

(** ** What a failed expansion leaves behind *)

Lemma evalTry_Err symbol node alts p r :
  evalTry symbol node alts p r ->
  forall msg p', r = Err msg p' ->
    msg = noMatchError symbol p' /\ pos p' = pos p /\ steps p' = steps p /\
    tokens p' = tokens p.
Proof.
  induction 1 as [symbol node p|symbol node alt rest p children p' HL
                 |symbol node alt rest p msg0 p1 r HL HT IH];
    intros msg q R.
  - injection R as <- <-. auto.
  - discriminate.
  - pose proof (proj2 (proj2 eval_extends) _ _ _ _ _ HL p1 eq_refl) as X.
    pose proof (backtrack_steps p p1 X) as BS.
    destruct X as (_ & XT & _).
    destruct (IH msg q R) as (A & B & C & D).
    split; [exact A|]. split; [exact B|]. split; [by rewrite C|].
    rewrite D. exact XT.
Qed.

Lemma evalNT_Err symbol pid p msg p' :
  evalNT symbol pid p (Err msg p') ->
  (Productions (grammar p) !! symbol = None /\
   msg = "undefined non-terminal: " +:+ symbol /\ p' = p) \/
  (is_Some (Productions (grammar p) !! symbol) /\
   msg = noMatchError symbol p' /\ pos p' = pos p /\ tokens p' = tokens p /\
   steps p' = steps (snd (createNode symbol false pid p))).
Proof.
  inversion 1 as [? ? ? L|? ? ? prod ? L HT]; subst.
  - left. auto.
  - right. destruct (evalTry_Err _ _ _ _ _ HT msg p' eq_refl) as (A & B & C & D).
    split; [eauto|]. repeat split; auto.
Qed.

(** ** The ids of a tree *)

Lemma Parse_true_of_any fuel p input rec r q :
  Parse fuel p input rec = Some (r, q) ->
  exists r' q', Parse fuel p input true = Some (r', q') /\
                Success r' = Success r /\ Tree r' = Tree r /\
                Error r' = Error r /\ Tokens r' = Tokens r /\
                nodeID q' = nodeID q /\ pos q' = pos q /\ tokens q' = tokens q /\
                grammar q' = grammar q.
Proof.
  destruct rec.
  - intros H. exists r, q. repeat split; auto.
  - rewrite Parse_silent.
    destruct (Parse fuel p input true) as [[r' q']|]; [|discriminate].
    intros [= <- <-]. exists r', q'. repeat split.
Qed.

(** The four ways in which [Parse] returns. *)
Lemma Parse_cases fuel p input rec r q :
  Parse fuel p input rec = Some (r, q) ->
  let start := StartSymbol (grammar p) in
  let p0 := reset p input rec in
  (start = EmptyString /\ q = p0 /\
   r = mkParseResult false None [] "Grammar has no start symbol" (tokens p0)) \/
  (start <> EmptyString /\
   exists msg, evalNT start (-1) p0 (Err msg q) /\
     r = mkParseResult false None [] msg (tokens p0)) \/
  (start <> EmptyString /\
   exists tree, evalNT start (-1) p0 (Ok tree q) /\
     Type_ (current q) <> TOKEN_EOF /\
     r = mkParseResult false None [] (unexpectedError (current q)) (tokens p0)) \/
  (start <> EmptyString /\
   exists tree, evalNT start (-1) p0 (Ok tree q) /\
     Type_ (current q) = TOKEN_EOF /\
     r = mkParseResult true (Some tree) (steps q) EmptyString (tokens p0)).
Proof.
  unfold Parse. cbv zeta. change (grammar (reset p input rec)) with (grammar p).
  destruct (String.eqb_spec (StartSymbol (grammar p)) EmptyString) as [ES|NS].
  { intros [= <- <-]. left. auto. }
  destruct (parseNonTerminal fuel _ _ _) as [tree q'|msg q'|] eqn:E;
    [| |discriminate].
  - assert (parseNonTerminal fuel (StartSymbol (grammar p)) (-1)
              (reset p input rec) <> OutOfFuel) as NF by (rewrite E; discriminate).
    pose proof (parseNonTerminal_eval _ _ _ _ NF) as Ev. rewrite E in Ev.
    destruct (bool_decide (Type_ (current q') = TOKEN_EOF)) eqn:B; simpl;
      intros [= <- <-].
    + apply bool_decide_eq_true in B. right; right; right. eauto 6.
    + apply bool_decide_eq_false in B. right; right; left. eauto 6.
  - assert (parseNonTerminal fuel (StartSymbol (grammar p)) (-1)
              (reset p input rec) <> OutOfFuel) as NF by (rewrite E; discriminate).
    pose proof (parseNonTerminal_eval _ _ _ _ NF) as Ev. rewrite E in Ev.
    intros [= <- <-]. right; left. eauto.
Qed.

Lemma evalTry_Ok symbol node alts p r :
  evalTry symbol node alts p r ->
  forall t p', r = Ok t p' ->
    ID t = ID node /\ Label t = Label node /\ IsTerminal t = IsTerminal node.
Proof.
  induction 1 as [| |symbol node alt rest p msg0 p1 r HL HT IH]; intros t q R.
  - discriminate.
  - injection R as <- <-. auto.
  - eauto.
Qed.

Lemma evalNT_Ok_root symbol pid p t p' :
  evalNT symbol pid p (Ok t p') ->
  ID t = (nodeID p + 1)%Z /\ Label t = symbol /\ IsTerminal t = false.
Proof.
  inversion 1 as [|? ? ? prod ? L HT]; subst.
  apply (evalTry_Ok _ _ _ _ _ HT t p' eq_refl).
Qed.

Lemma evalNT_Err_nonempty symbol pid p msg p' :
  evalNT symbol pid p (Err msg p') -> msg <> EmptyString.
Proof.
  intros H. apply evalNT_Err in H as [(_ & -> & _)|(_ & -> & _)].
  - simpl. discriminate.
  - unfold noMatchError. simpl. discriminate.
Qed.

End EngineMore.

(* ===================================================================== *)
(** * Further properties of the lexer *)
(* ===================================================================== *)

Section LexerMore.
Import types_go lexer_go notions.

Lemma substring_first (n m : nat) (s : string) (c : ascii) :
  String.get n s = Some c ->
  String.substring n (S m) s = String c (String.substring (S n) m s).
Proof.
  revert n. induction s as [|a s IH]; intros [|n] H; simpl in *; try discriminate.
  - by injection H as ->.
  - by apply IH.
Qed.

Lemma readNumber_frame l :
  input (snd (readNumber l)) = input l /\ tokens (snd (readNumber l)) = tokens l.
Proof.
  unfold readNumber; simpl.
  pose proof (readNumberLoop_frame (String.length (input l) - pos l) false l)
    as (A & B & _). auto.
Qed.

Lemma readIdentifier_frame l :
  input (snd (readIdentifier l)) = input l /\
  tokens (snd (readIdentifier l)) = tokens l.
Proof.
  unfold readIdentifier; simpl.
  pose proof (readIdentifierLoop_frame (String.length (input l) - pos l) l)
    as (A & B & _). auto.
Qed.

(** A property of every token that the three branches of the loop push is a
    property of every token of the result. *)
Lemma TokenizeLoop_Forall (s : string) (P : Token -> Prop) :
  (forall l ch, input l = s -> String.get (pos l) s = Some ch ->
                Go.IsDigit ch = true -> P (fst (readNumber l))) ->
  (forall l ch, input l = s -> String.get (pos l) s = Some ch ->
                Go.IsLetter ch = true -> P (fst (readIdentifier l))) ->
  (forall n ch, String.get n s = Some ch -> Go.IsSpace ch = false ->
                Go.IsDigit ch = false -> Go.IsLetter ch = false ->
                P (singleToken ch n)) ->
  forall fuel l, input l = s -> Forall P (tokens l) ->
                 Forall P (tokens (TokenizeLoop fuel l)).
Proof.
  intros HN HI HS fuel. induction fuel as [|fuel IH]; intros l I F;
    cbn [TokenizeLoop]; [exact F|].
  destruct (String.get (pos l) (input l)) as [ch|] eqn:G; [|exact F].
  rewrite I in G.
  destruct (Go.IsSpace ch) eqn:Sp.
  { apply IH; [exact I|exact F]. }
  destruct (Go.IsDigit ch) eqn:D.
  { pose proof (HN l ch I G D) as PN.
    destruct (readNumber_frame l) as [Fi Ft].
    destruct (readNumber l) as [t l']. simpl in *.
    apply IH; simpl; [congruence|]. rewrite Ft.
    apply Forall_app; split; [exact F|]. by constructor. }
  destruct (Go.IsLetter ch) eqn:L.
  { pose proof (HI l ch I G L) as PI.
    destruct (readIdentifier_frame l) as [Fi Ft].
    destruct (readIdentifier l) as [t l']. simpl in *.
    apply IH; simpl; [congruence|]. rewrite Ft.
    apply Forall_app; split; [exact F|]. by constructor. }
  apply IH; simpl; [exact I|].
  apply Forall_app; split; [exact F|]. constructor; [|constructor]. by eapply HS.
Qed.

Lemma Tokenize_Forall (s : string) (P : Token -> Prop) :
  (forall l ch, input l = s -> String.get (pos l) s = Some ch ->
                Go.IsDigit ch = true -> P (fst (readNumber l))) ->
  (forall l ch, input l = s -> String.get (pos l) s = Some ch ->
                Go.IsLetter ch = true -> P (fst (readIdentifier l))) ->
  (forall n ch, String.get n s = Some ch -> Go.IsSpace ch = false ->
                Go.IsDigit ch = false -> Go.IsLetter ch = false ->
                P (singleToken ch n)) ->
  P (mkToken TOKEN_EOF EmptyString (Z.of_nat (String.length s))) ->
  forall l, input l = s -> Forall P (Tokenize l).
Proof.
  intros HN HI HS HE l I. unfold Tokenize; simpl. rewrite I.
  rewrite TokenizeLoop_reaches_end.
  apply Forall_app; split; [|by constructor].
  apply (TokenizeLoop_Forall s P HN HI HS); [reflexivity|constructor].
Qed.

(** The text of a number token starts with the digit it was read from. *)
Lemma readNumber_Value l ch :
  String.get (pos l) (input l) = Some ch -> Go.IsDigit ch = true ->
  exists rest, Value (fst (readNumber l)) = String ch rest.
Proof.
  intros G D. pose proof (readNumber_progress l ch G D) as Hp.
  destruct (readNumber_frame l) as [Fi _].
  unfold readNumber in *; simpl in *. unfold slice. rewrite Fi.
  destruct (pos (readNumberLoop (String.length (input l) - pos l) false l) - pos l)
    as [|m] eqn:E; [lia|].
  rewrite (substring_first _ _ _ _ G). eauto.
Qed.

Lemma StringOfByte_not_epsilon ch : Go.StringOfByte ch <> "ε".
Proof. destruct ch as [[] [] [] [] [] [] [] []]; vm_compute; discriminate. Qed.

Lemma Tokenize_epsilonIsIdent l : Forall epsilonIsIdent (Tokenize l).
Proof.
  apply (Tokenize_Forall (input l)); [| | | |reflexivity].
  - intros l0 ch I G D. rewrite <- I in G.
    destruct (readNumber_Value l0 ch G D) as [rest V].
    intros _. rewrite V. intros [= -> _]. vm_compute in D. discriminate.
  - intros l0 ch _ _ _. unfold readIdentifier, epsilonIsIdent. cbn [fst Type_ Value].
    destruct (String.eqb (Go.ToLower _) "number") eqn:E; [|intros N; by destruct N].
    intros _ V. rewrite V in E. vm_compute in E. discriminate.
  - intros n ch _ _ _ _. unfold singleToken, epsilonIsIdent.
    repeat (match goal with |- context [if ?b then _ else _] => destruct b end);
      cbn [Type_ Value]; intros _; try discriminate.
    apply StringOfByte_not_epsilon.
  - intros _. discriminate.
Qed.

(** ** The tokens tile the input *)

Lemma substring_0 (n : nat) (s : string) : String.substring n 0 s = EmptyString.
Proof.
  revert n. induction s as [|a s IH]; intros [|n]; simpl; auto.
Qed.

Lemma substring_one (n : nat) (s : string) (c : ascii) :
  String.get n s = Some c -> String.substring n 1 s = String c EmptyString.
Proof. intros G. by rewrite (substring_first _ _ _ _ G), substring_0. Qed.

Lemma tiled_blank s toks lo hi ch :
  tiled s lo toks hi -> String.get hi s = Some ch -> Go.IsSpace ch = true ->
  tiled s lo toks (S hi).
Proof.
  intros H G Sp. revert lo H. induction toks as [|t toks IH]; intros lo H.
  - destruct H as [Le B]. split; [lia|]. intros i Hi.
    destruct (decide (i = hi)) as [->|N]; [eauto|]. apply B. lia.
  - destruct H as (n & w & Le & B & L & T). exists n, w. auto.
Qed.

Lemma tiled_snoc s toks lo mid w t :
  tiled s lo toks mid -> located s mid w t -> tiled s lo (toks ++ [t]) (mid + w).
Proof.
  intros H L. revert lo H. induction toks as [|u toks IH]; intros lo H.
  - destruct H as [Le B]. exists mid, w.
    split; [exact Le|]. split; [exact B|]. split; [exact L|].
    split; [lia|]. intros i Hi. lia.
  - destruct H as (n & w' & Le & B & L' & T). exists n, w'. auto.
Qed.

Lemma readNumber_located l ch :
  String.get (pos l) (input l) = Some ch -> Go.IsSpace ch = false ->
  Go.IsDigit ch = true ->
  located (input l) (pos l) (pos (snd (readNumber l)) - pos l) (fst (readNumber l)) /\
  pos l < pos (snd (readNumber l)) <= String.length (input l).
Proof.
  intros G Sp D. pose proof (readNumber_progress l ch G D) as Hp.
  pose proof (get_Some_lt _ _ _ G) as Hlt.
  pose proof (readNumberLoop_frame (String.length (input l) - pos l) false l)
    as (Fi & _ & _ & Fb).
  unfold readNumber in *. cbn [fst snd] in *.
  set (l' := readNumberLoop (String.length (input l) - pos l) false l) in *.
  cbv zeta in Fi, Fb. fold l' in Fi, Fb.
  assert (pos l' <= String.length (input l)) as Hb by (apply Fb; lia).
  split; [|lia]. unfold located. cbn [Position Type_ Value].
  split; [reflexivity|]. split; [lia|]. split; [lia|]. split; [discriminate|].
  exists ch. split; [exact G|]. split; [exact Sp|].
  destruct (decide (TOKEN_NUMBER = TOKEN_UNKNOWN)) as [?|_]; [discriminate|].
  unfold slice. by rewrite Fi.
Qed.

Lemma readIdentifier_located l ch :
  String.get (pos l) (input l) = Some ch -> Go.IsSpace ch = false ->
  Go.IsLetter ch = true ->
  located (input l) (pos l) (pos (snd (readIdentifier l)) - pos l)
          (fst (readIdentifier l)) /\
  pos l < pos (snd (readIdentifier l)) <= String.length (input l).
Proof.
  intros G Sp D. pose proof (readIdentifier_progress l ch G D) as Hp.
  pose proof (get_Some_lt _ _ _ G) as Hlt.
  pose proof (readIdentifierLoop_frame (String.length (input l) - pos l) l)
    as (Fi & _ & _ & Fb).
  unfold readIdentifier in *. cbn [fst snd] in *.
  set (l' := readIdentifierLoop (String.length (input l) - pos l) l) in *.
  cbv zeta in Fi, Fb. fold l' in Fi, Fb.
  assert (pos l' <= String.length (input l)) as Hb by (apply Fb; lia).
  split; [|lia]. unfold located. cbn [Position Type_ Value].
  split; [reflexivity|]. split; [lia|]. split; [lia|].
  split; [destruct (String.eqb _ _); discriminate|].
  exists ch. split; [exact G|]. split; [exact Sp|].
  destruct (decide (_ = TOKEN_UNKNOWN)) as [E|_].
  - destruct (String.eqb _ _); discriminate.
  - unfold slice. by rewrite Fi.
Qed.

Lemma singleToken_located s n ch :
  String.get n s = Some ch -> Go.IsSpace ch = false ->
  located s n 1 (singleToken ch n).
Proof.
  intros G Sp. pose proof (get_Some_lt _ _ _ G) as Hlt.
  pose proof (substring_one _ _ _ G) as S1.
  unfold located, singleToken.
  repeat (match goal with
          | |- context [Ascii.eqb ch ?c] => destruct (Ascii.eqb_spec ch c) as [->|_]
          end; cbn [Position Type_ Value];
          [split; [reflexivity|]; split; [lia|]; split; [lia|];
           split; [discriminate|]; eexists; split; [exact G|];
           split; [exact Sp|];
           match goal with |- context [decide ?P] => destruct (decide P) as [?|_] end;
           [discriminate|by rewrite S1]|]).
  cbn [Position Type_ Value].
  split; [reflexivity|]. split; [lia|]. split; [lia|]. split; [discriminate|].
  exists ch. split; [exact G|]. split; [exact Sp|].
  destruct (decide (TOKEN_UNKNOWN = TOKEN_UNKNOWN)) as [_|N]; [auto|by destruct N].
Qed.

Lemma TokenizeLoop_tiled s fuel l :
  input l = s -> pos l <= String.length s -> tiled s 0 (tokens l) (pos l) ->
  tiled s 0 (tokens (TokenizeLoop fuel l)) (pos (TokenizeLoop fuel l)).
Proof.
  revert l. induction fuel as [|fuel IH]; intros l I B T; cbn [TokenizeLoop];
    [exact T|].
  destruct (String.get (pos l) (input l)) as [ch|] eqn:G; [|exact T].
  pose proof (get_Some_lt _ _ _ G) as Hlt. rewrite I in Hlt.
  destruct (Go.IsSpace ch) eqn:Sp.
  { apply IH; simpl; [exact I|lia|]. rewrite I in G. eapply tiled_blank; eauto. }
  destruct (Go.IsDigit ch) eqn:D.
  { destruct (readNumber_located l ch G Sp D) as (L & Hp).
    destruct (readNumber_frame l) as [Fi Ft].
    destruct (readNumber l) as [t l']. cbn [fst snd] in *. rewrite I in *.
    apply IH; simpl; [congruence|lia|]. rewrite Ft.
    pose proof (tiled_snoc _ _ _ _ _ _ T L) as TS.
    replace (pos l + (pos l' - pos l)) with (pos l') in TS by lia. exact TS. }
  destruct (Go.IsLetter ch) eqn:Le.
  { destruct (readIdentifier_located l ch G Sp Le) as (L & Hp).
    destruct (readIdentifier_frame l) as [Fi Ft].
    destruct (readIdentifier l) as [t l']. cbn [fst snd] in *. rewrite I in *.
    apply IH; simpl; [congruence|lia|]. rewrite Ft.
    pose proof (tiled_snoc _ _ _ _ _ _ T L) as TS.
    replace (pos l + (pos l' - pos l)) with (pos l') in TS by lia. exact TS. }
  apply IH; simpl; [exact I|lia|].
  replace (S (pos l)) with (pos l + 1) by lia.
  apply tiled_snoc; [exact T|]. apply singleToken_located; [|exact Sp].
  by rewrite <- I.
Qed.

(** ** The kinds of the tokens *)

Lemma readIdentifier_Value l ch :
  String.get (pos l) (input l) = Some ch -> Go.IsLetter ch = true ->
  exists rest, Value (fst (readIdentifier l)) = String ch rest.
Proof.
  intros G D. pose proof (readIdentifier_progress l ch G D) as Hp.
  destruct (readIdentifier_frame l) as [Fi _].
  unfold readIdentifier in *; simpl in *. unfold slice. rewrite Fi.
  destruct (pos (readIdentifierLoop (String.length (input l) - pos l) l) - pos l)
    as [|m] eqn:E; [lia|].
  rewrite (substring_first _ _ _ _ G). eauto.
Qed.

(** ** The shapes of numbers and identifiers *)

Lemma readNumberLoop_numeral fuel hasDecimal l :
  numeral hasDecimal
    (String.substring (pos l) (pos (readNumberLoop fuel hasDecimal l) - pos l)
       (input l)) = true.
Proof.
  revert hasDecimal l. induction fuel as [|fuel IH]; intros hd l;
    cbn [readNumberLoop].
  - by rewrite Nat.sub_diag, substring_0.
  - destruct (String.get (pos l) (input l)) as [ch|] eqn:G;
      [|by rewrite Nat.sub_diag, substring_0].
    destruct (Go.IsDigit ch) eqn:D.
    + pose proof (readNumberLoop_frame fuel hd (setPos l (S (pos l))))
        as (_ & _ & Le & _).
      specialize (IH hd (setPos l (S (pos l)))). cbv zeta in Le. simpl in IH, Le.
      replace (pos (readNumberLoop fuel hd (setPos l (S (pos l)))) - pos l)
        with (S (pos (readNumberLoop fuel hd (setPos l (S (pos l)))) - S (pos l)))
        by lia.
      rewrite (substring_first _ _ _ _ G). cbn [numeral]. by rewrite D.
    + destruct (Ascii.eqb ch "." && negb hd) eqn:C;
        [|by rewrite Nat.sub_diag, substring_0].
      pose proof (readNumberLoop_frame fuel true (setPos l (S (pos l))))
        as (_ & _ & Le & _).
      specialize (IH true (setPos l (S (pos l)))). cbv zeta in Le. simpl in IH, Le.
      replace (pos (readNumberLoop fuel true (setPos l (S (pos l)))) - pos l)
        with (S (pos (readNumberLoop fuel true (setPos l (S (pos l)))) - S (pos l)))
        by lia.
      rewrite (substring_first _ _ _ _ G). cbn [numeral]. by rewrite D, C, IH.
Qed.

Lemma readIdentifierLoop_word fuel l :
  word (String.substring (pos l) (pos (readIdentifierLoop fuel l) - pos l)
          (input l)) = true.
Proof.
  revert l. induction fuel as [|fuel IH]; intros l; cbn [readIdentifierLoop].
  - by rewrite Nat.sub_diag, substring_0.
  - destruct (String.get (pos l) (input l)) as [ch|] eqn:G;
      [|by rewrite Nat.sub_diag, substring_0].
    destruct (identByte ch) eqn:D; [|by rewrite Nat.sub_diag, substring_0].
    pose proof (readIdentifierLoop_frame fuel (setPos l (S (pos l))))
      as (_ & _ & Le & _).
    specialize (IH (setPos l (S (pos l)))). cbv zeta in Le. simpl in IH, Le.
    replace (pos (readIdentifierLoop fuel (setPos l (S (pos l)))) - pos l)
      with (S (pos (readIdentifierLoop fuel (setPos l (S (pos l)))) - S (pos l)))
      by lia.
    rewrite (substring_first _ _ _ _ G). cbn [word]. by rewrite D, IH.
Qed.

(** X22.  The shapes of numbers and identifiers.  In the tokens of every
    input, the text of a NUMBER token is made of digits with at most one
    decimal point among them and starts with a digit (a second point, or any
    other byte, ends the number), unless it is a word that starts with a
    letter and spells number in some letter case; the text of an IDENT token
    is a word that starts with a letter and does not spell number.  A word
    is made of letters, digits, underscores and apostrophes only. *)
Theorem Tokenize_shapes (l : Lexer) : Forall shapeOK (Tokenize l).
Proof.
  apply (Tokenize_Forall (input l)); [| | | |reflexivity].
  - intros l0 ch I G D. rewrite <- I in G.
    destruct (readNumber_Value l0 ch G D) as [rest V].
    unfold shapeOK. cbn [readNumber fst Type_] in *.
    left. exists ch, rest. split; [exact V|]. split; [exact D|].
    cbn [Value]. destruct (readNumber_frame l0) as [Fi _].
    unfold readNumber in Fi. cbn [snd] in Fi. unfold slice. rewrite Fi.
    apply readNumberLoop_numeral.
  - intros l0 ch I G L. rewrite <- I in G.
    destruct (readIdentifier_Value l0 ch G L) as [rest V].
    pose proof (readIdentifierLoop_word (String.length (input l0) - pos l0) l0) as W.
    destruct (readIdentifier_frame l0) as [Fi _].
    unfold shapeOK, readIdentifier in *. cbn [fst snd Type_ Value] in *.
    unfold slice in *. rewrite Fi in *.
    destruct (String.eqb_spec
                (Go.ToLower (String.substring (pos l0)
                   (pos (readIdentifierLoop (String.length (input l0) - pos l0) l0)
                    - pos l0) (input l0))) "number") as [E|N].
    + right. exists ch, rest. auto.
    + exists ch, rest. auto.
  - intros n ch _ _ _ _. unfold singleToken, shapeOK.
    repeat (match goal with |- context [if ?b then _ else _] => destruct b end);
      exact I.
  - exact I.
Qed.

(** X13.  The tokens tile the input.  For every input, [Tokenize] returns
    the EOF token, positioned at the length of the input, after tokens that
    tile the input from its first byte to its last: each token starts where
    its position says, on a byte that is not white space; the text of a token
    other than UNKNOWN is the very bytes it lies on, and an UNKNOWN token
    lies on one byte; the tokens follow each other in the order of the input
    without overlap, and the bytes before, between and after them are white
    space. *)
Theorem Tokenize_tiles_the_input (l : Lexer) :
  exists toks,
    Tokenize l = toks ++ [mkToken TOKEN_EOF EmptyString
                            (Z.of_nat (String.length (input l)))] /\
    tiled (input l) 0 toks (String.length (input l)).
Proof.
  unfold Tokenize; simpl.
  exists (tokens (TokenizeLoop (String.length (input l)) (mkLexer (input l) 0 []))).
  rewrite TokenizeLoop_reaches_end. split; [reflexivity|].
  pose proof (TokenizeLoop_tiled (input l) (String.length (input l))
                (mkLexer (input l) 0 []) eq_refl) as H.
  rewrite TokenizeLoop_reaches_end in H. apply H; simpl; [lia|].
  split; [lia|]. intros i Hi. lia.
Qed.

(** X14.  The kind of every token of [Tokenize] agrees with its text: an
    operator or parenthesis token has its one-byte text; the EOF token has
    the empty text; a NUMBER token starts with a digit, or starts with a
    letter and spells the word number in some letter case; an IDENT token
    starts with a letter and does not spell that word; an UNKNOWN token is
    [string(ch)] of a byte that is neither white space, digit, letter nor
    one of the six operator bytes; and no token has the kind EPSILON. *)
Theorem Tokenize_kinds (l : Lexer) : Forall kindOK (Tokenize l).
Proof.
  apply (Tokenize_Forall (input l)); [| | | |reflexivity].
  - intros l0 ch I G D. rewrite <- I in G.
    destruct (readNumber_Value l0 ch G D) as [rest V].
    unfold kindOK. cbn [readNumber fst Type_] in *. eauto.
  - intros l0 ch I G L. rewrite <- I in G.
    destruct (readIdentifier_Value l0 ch G L) as [rest V].
    unfold readIdentifier, kindOK in *. cbn [fst Type_ Value] in *.
    destruct (String.eqb_spec (Go.ToLower (slice (input (readIdentifierLoop
                (String.length (input l0) - pos l0) l0)) (pos l0)
                (pos (readIdentifierLoop (String.length (input l0) - pos l0) l0))))
                "number") as [E|N].
    + exists ch, rest. auto.
    + exists ch, rest. auto.
  - intros n ch _ Sp D L. unfold singleToken, kindOK.
    repeat (match goal with
            | |- context [Ascii.eqb ch ?c] =>
              destruct (Ascii.eqb_spec ch c) as [->|?]
            end; cbn [Type_ Value]; [reflexivity|]).
    cbn [Type_ Value]. exists ch. repeat split; auto.
    rewrite !elem_of_cons, elem_of_nil. tauto.
  - reflexivity.
Qed.

End LexerMore.

(* ===================================================================== *)
(** * The fringe of a tree *)
(* ===================================================================== *)

Section EngineYield.
Import types_go grammar_go parser_go engine replay notions.

Lemma between_nil {A : Type} (n : nat) (l : list A) : between n n l = [].
Proof. unfold between. by rewrite Nat.sub_diag. Qed.

Lemma between_app {A : Type} (a b c : nat) (l : list A) :
  a <= b -> b <= c -> between a b l ++ between b c l = between a c l.
Proof.
  intros H1 H2. unfold between.
  replace (drop b l) with (drop (b - a) (drop a l))
    by (rewrite drop_drop; f_equal; lia).
  rewrite take_take_drop. f_equal. lia.
Qed.

Lemma between_one {A : Type} (n : nat) (l : list A) (x : A) :
  l !! n = Some x -> between n (S n) l = [x].
Proof.
  intros H. unfold between. replace (S n - n) with 1 by lia.
  by rewrite (drop_S l x n H).
Qed.

Lemma yield_node i label cs : yield (mkTreeNode i label cs false) = yieldForest cs.
Proof.
  simpl. unfold yieldForest.
  induction cs as [|c cs IH]; simpl; [reflexivity|]. by rewrite IH.
Qed.

Lemma yieldForest_cons t ts : yieldForest (t :: ts) = yield t ++ yieldForest ts.
Proof. reflexivity. Qed.

Lemma matches_not_epsilon symbol t :
  isEpsilon symbol = false -> epsilonIsIdent t -> matches symbol t = true ->
  Value t <> "ε".
Proof.
  intros E I M. unfold matches in M.
  repeat match type of M with
         | (if ?b then _ else _) = true =>
           destruct b;
           [apply bool_decide_eq_true in M; apply I; rewrite M; discriminate|]
         end.
  apply String.eqb_eq in M. rewrite M. intros V. rewrite V in E.
  vm_compute in E. discriminate.
Qed.

Lemma matchTerminal_Ok_matches symbol pid p node p1 :
  matchTerminal symbol pid p = Ok node p1 -> matches symbol (current p) = true.
Proof.
  unfold matchTerminal. destruct (matches symbol (current p)); [reflexivity|].
  discriminate.
Qed.

(** Under a grammar without empty symbols, on tokens that end with the EOF
    token and of which only identifiers may read ε, a successful part of the
    engine moves the cursor forward over exactly the tokens whose texts are
    the fringe of what it built. *)
Lemma eval_yield :
  (forall symbol pid p r, evalNT symbol pid p r ->
     symbolsNonEmpty (grammar p) -> endsWithEOF (tokens p) -> inBounds p ->
     Forall epsilonIsIdent (tokens p) ->
     forall t p', r = Ok t p' ->
       pos p <= pos p' /\
       yield t = map Value (between (pos p) (pos p') (tokens p))) /\
  (forall symbol node alts p r, evalTry symbol node alts p r ->
     Forall (Forall (fun s => s <> EmptyString)) alts -> IsTerminal node = false ->
     symbolsNonEmpty (grammar p) -> endsWithEOF (tokens p) -> inBounds p ->
     Forall epsilonIsIdent (tokens p) ->
     forall t p', r = Ok t p' ->
       pos p <= pos p' /\
       yield t = map Value (between (pos p) (pos p') (tokens p))) /\
  (forall symbols pid children p r, evalLoop symbols pid children p r ->
     Forall (fun s => s <> EmptyString) symbols ->
     symbolsNonEmpty (grammar p) -> endsWithEOF (tokens p) -> inBounds p ->
     Forall epsilonIsIdent (tokens p) ->
     forall cs' p', r = Ok cs' p' ->
       exists new, cs' = children ++ new /\ pos p <= pos p' /\
         yieldForest new = map Value (between (pos p) (pos p') (tokens p))).
Proof.
  apply eval_mutind.
  - (* undefined *) discriminate.
  - (* defined *)
    intros symbol pid p prod r L _ IH G E B I t p' R.
    apply (IH (G symbol prod L) eq_refl G E B I t p' R).
  - (* none *) discriminate.
  - (* first *)
    intros symbol node alt rest p children p' _ IH F NT G E B I t q [= <- <-].
    inversion F; subst.
    destruct (IH ltac:(assumption) G E B I children p' eq_refl)
      as (new & -> & Le & Y).
    split; [exact Le|]. destruct node as [i label cs isT]. simpl in NT. subst isT.
    cbn [ID Label IsTerminal]. by rewrite yield_node.
  - (* next *)
    intros symbol node alt rest p msg p1 r HL _ _ IH F NT G E B I t q R.
    inversion F; subst.
    pose proof (proj2 (proj2 eval_extends) _ _ _ _ _ HL p1 eq_refl)
      as (XG & XT & _).
    assert (tokens (backtrack (pos p) (length (steps p)) p1) = tokens p) as T2
      by exact XT.
    assert (grammar (backtrack (pos p) (length (steps p)) p1) = grammar p) as G2
      by exact XG.
    assert (pos (backtrack (pos p) (length (steps p)) p1) = pos p) as P2
      by reflexivity.
    destruct (IH ltac:(assumption) NT) with (t := t) (p' := q) as (Le & Y);
      rewrite ?G2, ?T2; auto.
    { unfold inBounds. by rewrite T2, P2. }
    rewrite T2, P2 in *. auto.
  - (* done *)
    intros pid children p _ _ _ _ _ cs' p' [= <- <-]. exists [].
    rewrite app_nil_r, between_nil. auto.
  - (* epsilon *)
    intros symbol rest pid children p r _ _ IH F G E B I cs' p' R.
    inversion F; subst.
    destruct (IH ltac:(assumption) G E B I cs' p' eq_refl) as (new & -> & Le & Y).
    exists (fst (createNode "ε" true pid p) :: new).
    rewrite <- app_assoc. split; [reflexivity|]. split; [exact Le|].
    rewrite yieldForest_cons. exact Y.
  - (* match *)
    intros symbol rest pid children p node p1 r NE _ M _ IH F G E B I cs' p' R.
    inversion F as [|? ? NS F']; subst.
    pose proof (matchTerminal_extends _ _ _ _ p1 M eq_refl) as (XG & XT & _).
    pose proof (matchTerminal_inBounds _ _ _ _ p1 NS E B M eq_refl) as B1.
    pose proof (matchTerminal_Ok_matches _ _ _ _ _ M) as MM.
    pose proof (current_in_bounds p B) as C.
    assert (Value (current p) <> "ε") as NEps.
    { apply (matches_not_epsilon symbol); auto.
      rewrite Forall_forall in I. apply I. eapply list_elem_of_lookup_2, C. }
    apply matchTerminal_Ok in M as [-> ->].
    assert (pos (advance (snd (createNode (Value (current p)) true pid p)))
            = S (pos p)) as P1.
    { unfold advance. rewrite createNode_pos.
      change (tokens (snd (createNode (Value (current p)) true pid p)))
        with (tokens p).
      unfold inBounds in B.
      destruct (Nat.ltb_spec (pos p) (length (tokens p))); [reflexivity|lia]. }
    destruct (IH F') with (cs' := cs') (p' := p') as (new & -> & Le & Y);
      rewrite ?XG, ?XT; auto.
    rewrite XT, P1 in *.
    exists (mkTreeNode (nodeID p + 1) (Value (current p)) [] true :: new).
    rewrite <- app_assoc. split; [reflexivity|]. split; [lia|].
    rewrite yieldForest_cons, Y.
    rewrite <- (between_app (pos p) (S (pos p)) (pos p')) by lia.
    rewrite (between_one _ _ _ C), map_app. f_equal.
    cbn [yield IsTerminal Label].
    destruct (String.eqb_spec (Value (current p)) "ε"); [contradiction|reflexivity].
  - (* mismatch *) discriminate.
  - (* expand *)
    intros symbol rest pid children p subtree p1 r _ _ HN IHN _ IHL F G E B I
           cs' p' R.
    inversion F as [|? ? NS F']; subst.
    pose proof (proj1 eval_extends _ _ _ _ HN p1 eq_refl) as (XG & XT & _).
    pose proof (proj1 eval_inBounds _ _ _ _ HN G E B p1 eq_refl) as B1.
    destruct (IHN G E B I subtree p1 eq_refl) as (Le1 & Y1).
    destruct (IHL F') with (cs' := cs') (p' := p') as (new & -> & Le & Y);
      rewrite ?XG, ?XT; auto.
    rewrite XT in *.
    exists (subtree :: new). rewrite <- app_assoc. split; [reflexivity|].
    split; [lia|].
    rewrite yieldForest_cons, Y, Y1, <- map_app.
    by rewrite between_app.
  - (* fail *) discriminate.
Qed.

(** What a successful [Parse] has read. *)
Lemma Parse_success_fringe fuel p input rec r q tree :
  symbolsNonEmpty (grammar p) ->
  Parse fuel p input rec = Some (r, q) ->
  Tree r = Some tree ->
  exists toks,
    lexer_go.Tokenize (lexer_go.NewLexer input)
    = toks ++ [mkToken TOKEN_EOF EmptyString (Z.of_nat (String.length input))] /\
    pos q = length toks /\ yield tree = map Value toks /\
    (Success r = true /\ Error r = EmptyString) /\
    Tokens r = lexer_go.Tokenize (lexer_go.NewLexer input).
Proof.
  intros G H T.
  destruct (Parse_cases _ _ _ _ _ _ H) as
    [(ES & -> & ->)|[(NS & msg & Ev & ->)|[(NS & tree' & Ev & NE & ->)
                                          |(NS & tree' & Ev & EOF & ->)]]];
    try discriminate.
  injection T as ->. cbn [Tokens Success Error].
  destruct (Tokenize_ends_with_EOF (lexer_go.NewLexer input)) as (toks & TE & TF).
  exists toks. split; [exact TE|].
  set (p0 := reset p input rec) in *.
  assert (tokens p0 = toks ++ [mkToken TOKEN_EOF EmptyString
                                 (Z.of_nat (String.length input))]) as T0
    by exact TE.
  assert (endsWithEOF (tokens p0)) as E by (eexists _, _; exact T0).
  assert (inBounds p0) as B.
  { unfold inBounds. rewrite T0, length_app. simpl. lia. }
  assert (Forall epsilonIsIdent (tokens p0)) as I
    by apply Tokenize_epsilonIsIdent.
  destruct (proj1 eval_yield _ _ _ _ Ev G E B I tree q eq_refl) as (_ & Y).
  pose proof (proj1 eval_inBounds _ _ _ _ Ev G E B q eq_refl) as B'.
  pose proof (proj1 eval_extends _ _ _ _ Ev q eq_refl) as (_ & XT & _).
  unfold inBounds in B'. rewrite XT, T0, length_app in B'. simpl in B'.
  assert (pos q = length toks) as P.
  { destruct (decide (pos q = length toks)) as [|N]; [assumption|exfalso].
    unfold current in EOF. rewrite XT, T0 in EOF.
    rewrite lookup_app_l in EOF by lia.
    destruct (toks !! pos q) as [u|] eqn:U.
    - rewrite Forall_forall in TF. apply (TF u); [|exact EOF].
      eapply list_elem_of_lookup_2, U.
    - apply lookup_ge_None in U. lia. }
  split; [exact P|]. split; [|auto].
  rewrite Y, T0, P. unfold between.
  by rewrite drop_0, Nat.sub_0_r, take_app_length.
Qed.

End EngineYield.

(* ===================================================================== *)
(** * Further properties of the grammars *)
(* ===================================================================== *)

Section GrammarMore.
Import types_go grammar_go notions.

Lemma elem_of_bodySymbols (productions : gmap string Production) (s : string) :
  s ∈ bodySymbols productions <->
  exists k prod alt, productions !! k = Some prod /\ alt ∈ Body prod /\ s ∈ alt.
Proof.
  unfold bodySymbols. rewrite list_elem_of_In, in_concat. split.
  - intros (l & Hl & Hs). apply in_map_iff in Hl as ([k prod] & <- & Hkp).
    simpl in Hs. apply in_concat in Hs as (alt & Ha & Hs).
    exists k, prod, alt. apply list_elem_of_In, elem_of_map_to_list in Hkp.
    rewrite !list_elem_of_In. auto.
  - intros (k & prod & alt & L & Ha & Hs).
    exists (concat (Body prod)). split.
    + apply in_map_iff. exists (k, prod). split; [reflexivity|].
      by apply list_elem_of_In, elem_of_map_to_list.
    + apply in_concat. exists alt. rewrite <- !list_elem_of_In. auto.
Qed.

(** The loop of the check for undefined non-terminals. *)
Lemma checkUndefined_fold g symbols result :
  let r := foldl (fun result symbol =>
                    if flag (NonTerminals g) symbol then
                      match Productions g !! symbol with
                      | None =>
                        mkValidationResult false
                          (Errors result ++ ["Undefined non-terminal: " +:+ symbol])
                          (Warnings result)
                      | Some _ => result
                      end
                    else result) result symbols in
  (Valid r = true <->
     Valid result = true /\
     forall s, s ∈ symbols -> flag (NonTerminals g) s = true ->
               is_Some (Productions g !! s)) /\
  (forall e, e ∈ Errors r <->
     e ∈ Errors result \/
     exists s, s ∈ symbols /\ flag (NonTerminals g) s = true /\
               Productions g !! s = None /\ e = "Undefined non-terminal: " +:+ s) /\
  Warnings r = Warnings result.
Proof.
  revert result. induction symbols as [|s symbols IH]; intros result; cbn [foldl].
  - split; [|split; [|reflexivity]].
    + split; [intros H; split; [exact H|]|tauto]. intros s Hs. by apply elem_of_nil in Hs.
    + intros e. split; [auto|]. intros [H|(s & Hs & _)]; [exact H|].
      by apply elem_of_nil in Hs.
  - match goal with |- context [foldl ?f ?a symbols] => destruct (IH a) as (V & E & W) end.
    clear IH. cbv zeta.
    destruct (flag (NonTerminals g) s) eqn:F;
      [destruct (Productions g !! s) as [prod|] eqn:L|].
    + (* defined *)
      split; [|split; [|exact W]].
      * rewrite V. split.
        -- intros [A B]. split; [exact A|]. intros s' Hs'.
           apply elem_of_cons in Hs' as [->|Hs']; [rewrite L; eauto|by apply B].
        -- intros [A B]. split; [exact A|]. intros s' Hs'. apply B.
           apply elem_of_cons. auto.
      * intros e. rewrite E. split.
        -- intros [H|(s' & Hs' & R)]; [auto|right].
           exists s'. split; [apply elem_of_cons; auto|exact R].
        -- intros [H|(s' & Hs' & F' & L' & R)]; [auto|right].
           apply elem_of_cons in Hs' as [->|Hs']; [congruence|eauto].
    + (* undefined *)
      split; [|split; [|exact W]].
      * rewrite V. cbn [Valid]. split; [intros [A _]; discriminate|].
        intros [_ B]. exfalso.
        destruct (B s) as [prod P]; [apply elem_of_cons; auto|exact F|congruence].
      * intros e. rewrite E. cbn [Errors]. rewrite elem_of_app, list_elem_of_singleton.
        split.
        -- intros [[H| ->]|(s' & Hs' & R)]; [auto|right|right].
           ++ exists s. split; [apply elem_of_cons; auto|auto].
           ++ exists s'. split; [apply elem_of_cons; auto|exact R].
        -- intros [H|(s' & Hs' & F' & L' & R)]; [auto|].
           apply elem_of_cons in Hs' as [->|Hs']; [auto|right; eauto].
    + (* not a registered non-terminal *)
      split; [|split; [|exact W]].
      * rewrite V. split.
        -- intros [A B]. split; [exact A|]. intros s' Hs' F'.
           apply elem_of_cons in Hs' as [->|Hs']; [congruence|by apply B].
        -- intros [A B]. split; [exact A|]. intros s' Hs'. apply B.
           apply elem_of_cons. auto.
      * intros e. rewrite E. split.
        -- intros [H|(s' & Hs' & R)]; [auto|right].
           exists s'. split; [apply elem_of_cons; auto|exact R].
        -- intros [H|(s' & Hs' & F' & L' & R)]; [auto|right].
           apply elem_of_cons in Hs' as [->|Hs']; [congruence|eauto].
Qed.

(** The two loops of the check for direct left recursion. *)
Lemma warnAlternative_fold head alts result w :
  w ∈ Warnings (foldl (warnAlternative head) result alts) <->
  w ∈ Warnings result \/
  exists rest, (head :: rest) ∈ alts /\
    w = "Potential left recursion in production: "
          +:+ head +:+ " -> " +:+ Go.Join (head :: rest) " ".
Proof.
  revert result. induction alts as [|alt alts IH]; intros result; cbn [foldl].
  - split; [auto|]. intros [H|(rest & Hr & _)]; [exact H|].
    by apply elem_of_nil in Hr.
  - rewrite IH. clear IH. unfold warnAlternative at 1.
    destruct alt as [|first tl].
    + split.
      * intros [H|(rest & Hr & R)]; [auto|right].
        exists rest. split; [apply elem_of_cons; auto|exact R].
      * intros [H|(rest & Hr & R)]; [auto|right].
        apply elem_of_cons in Hr as [Hr|Hr]; [discriminate|eauto].
    + destruct (String.eqb_spec first head) as [->|NE].
      * cbn [Warnings]. rewrite elem_of_app, list_elem_of_singleton. split.
        -- intros [[H| ->]|(rest & Hr & R)]; [auto|right|right].
           ++ exists tl. split; [apply elem_of_cons; auto|reflexivity].
           ++ exists rest. split; [apply elem_of_cons; auto|exact R].
        -- intros [H|(rest & Hr & R)]; [auto|].
           apply elem_of_cons in Hr as [Hr|Hr]; [|right; eauto].
           injection Hr as <-. auto.
      * split.
        -- intros [H|(rest & Hr & R)]; [auto|right].
           exists rest. split; [apply elem_of_cons; auto|exact R].
        -- intros [H|(rest & Hr & R)]; [auto|right].
           apply elem_of_cons in Hr as [Hr|Hr]; [congruence|eauto].
Qed.

Lemma checkLeftRecursion_fold (kps : list (string * Production)) result w :
  w ∈ Warnings (foldl (fun result kp =>
                         foldl (warnAlternative (fst kp)) result (Body (snd kp)))
                      result kps) <->
  w ∈ Warnings result \/
  exists head prod rest, (head, prod) ∈ kps /\ (head :: rest) ∈ Body prod /\
    w = "Potential left recursion in production: "
          +:+ head +:+ " -> " +:+ Go.Join (head :: rest) " ".
Proof.
  revert result. induction kps as [|[k prod] kps IH]; intros result; cbn [foldl].
  - split; [auto|]. intros [H|(head & prod & rest & Hr & _)]; [exact H|].
    by apply elem_of_nil in Hr.
  - rewrite IH, warnAlternative_fold. clear IH. cbn [fst snd]. split.
    + intros [[H|(rest & Hr & R)]|(head & prod' & rest & Hk & Hr & R)];
        [auto|right|right].
      * exists k, prod, rest. split; [apply elem_of_cons; auto|auto].
      * exists head, prod', rest. split; [apply elem_of_cons; auto|auto].
    + intros [H|(head & prod' & rest & Hk & Hr & R)]; [auto|].
      apply elem_of_cons in Hk as [Hk|Hk].
      * injection Hk as -> ->. left; right. eauto.
      * right. eauto 6.
Qed.

(** ** The loop of [ParseGrammar] *)

Lemma parseLine_lineInvariant st line :
  lineInvariant st -> lineInvariant (parseLine st line).
Proof.
  destruct st as [g isFirst]. unfold parseLine. intros H.
  destruct (_ || _); [exact H|].
  destruct (Go.ArrowSplit2 _) as [|part0 [|part1 [|? ?]]]; try exact H.
  destruct (String.eqb_spec (Go.TrimSpace part0) EmptyString) as [|NE]; [exact H|].
  set (head := Go.TrimSpace part0) in *.
  destruct H as (H1 & H2 & H3 & H4). cbn [fst snd] in *.
  unfold lineInvariant. cbn [fst snd Productions NonTerminals StartSymbol Terminals].
  destruct (Productions g !! head) as [existing|] eqn:L.
  - destruct (H1 _ _ L) as [HH _].
    split; [|split; [|split; [|exact H4]]].
    + intros k prod. destruct (decide (k = head)) as [->|Hne].
      * rewrite lookup_insert_eq. intros [= <-]. auto.
      * rewrite lookup_insert_ne by done. apply H1.
    + rewrite fmap_insert, H2. reflexivity.
    + destruct isFirst.
      * destruct H3 as [_ H3]. rewrite H3, lookup_empty in L. discriminate.
      * destruct H3 as [A B]. split; [exact A|].
        destruct (decide (StartSymbol g = head)) as [->|Hne].
        -- rewrite lookup_insert_eq. eauto.
        -- by rewrite lookup_insert_ne.
  - split; [|split; [|split; [|exact H4]]].
    + intros k prod. destruct (decide (k = head)) as [->|Hne].
      * rewrite lookup_insert_eq. intros [= <-]. auto.
      * rewrite lookup_insert_ne by done. apply H1.
    + rewrite fmap_insert, H2. reflexivity.
    + destruct isFirst.
      * split; [exact NE|]. rewrite lookup_insert_eq. eauto.
      * destruct H3 as [A B]. split; [exact A|].
        destruct (decide (StartSymbol g = head)) as [->|Hne].
        -- rewrite lookup_insert_eq. eauto.
        -- by rewrite lookup_insert_ne.
Qed.

Lemma foldl_parseLine_lineInvariant lines st :
  lineInvariant st -> lineInvariant (foldl parseLine st lines).
Proof.
  revert st. induction lines as [|line lines IH]; intros st H; simpl; [exact H|].
  apply IH, parseLine_lineInvariant, H.
Qed.

Lemma lineInvariant_initial : lineInvariant (mkGrammar ∅ EmptyString ∅ ∅, true).
Proof.
  unfold lineInvariant. cbn [fst snd Productions NonTerminals StartSymbol Terminals].
  split; [|split; [|split]]; auto.
  intros k prod. by rewrite lookup_empty.
Qed.

(** The loop that registers the terminals. *)
Lemma identifyTerminals_fold (nt : gmap string bool) symbols init s :
  flag (foldl (fun terminals symbol =>
                 if negb (flag nt symbol) && negb (isEpsilon symbol)
                 then <[symbol := true]> terminals else terminals)
              init symbols) s = true <->
  flag init s = true \/ (s ∈ symbols /\ flag nt s = false /\ isEpsilon s = false).
Proof.
  revert init. induction symbols as [|x symbols IH]; intros init; cbn [foldl].
  - split; [auto|]. intros [H|(Hs & _)]; [exact H|]. by apply elem_of_nil in Hs.
  - rewrite IH. clear IH.
    destruct (negb (flag nt x) && negb (isEpsilon x)) eqn:C.
    + apply andb_true_iff in C as [C1 C2].
      apply negb_true_iff in C1. apply negb_true_iff in C2. split.
      * intros [H|(Hs & R)].
        -- unfold flag in H. destruct (decide (s = x)) as [->|Hne].
           ++ right. split; [apply elem_of_cons; auto|auto].
           ++ rewrite lookup_insert_ne in H by done. auto.
        -- right. split; [apply elem_of_cons; auto|exact R].
      * intros [H|(Hs & R)].
        -- left. unfold flag in *. destruct (decide (s = x)) as [->|Hne].
           ++ by rewrite lookup_insert_eq.
           ++ by rewrite lookup_insert_ne.
        -- apply elem_of_cons in Hs as [->|Hs]; [left|right; auto].
           unfold flag. by rewrite lookup_insert_eq.
    + split.
      * intros [H|(Hs & R)]; [auto|right].
        split; [apply elem_of_cons; auto|exact R].
      * intros [H|(Hs & R1 & R2)]; [auto|].
        apply elem_of_cons in Hs as [->|Hs]; [|right; auto].
        rewrite R1, R2 in C. discriminate.
Qed.

(** X8.  The errors of [ValidateGrammar], for any grammar.  The result is
    valid exactly when it lists no error, and an error is listed exactly in
    these cases: the start symbol is empty; or the start symbol has no entry
    in [Productions]; or, the start symbol having one, some symbol of some
    alternative is registered as a non-terminal and has no entry in
    [Productions] (one error naming that symbol). *)
Theorem ValidateGrammar_errors (g : Grammar) :
  (Valid (ValidateGrammar g) = true <-> Errors (ValidateGrammar g) = []) /\
  (forall e, e ∈ Errors (ValidateGrammar g) <->
     (StartSymbol g = EmptyString /\ e = "No start symbol defined") \/
     (StartSymbol g <> EmptyString /\ Productions g !! StartSymbol g = None /\
      e = "Start symbol has no productions") \/
     (StartSymbol g <> EmptyString /\ is_Some (Productions g !! StartSymbol g) /\
      exists k prod alt s,
        Productions g !! k = Some prod /\ alt ∈ Body prod /\ s ∈ alt /\
        flag (NonTerminals g) s = true /\ Productions g !! s = None /\
        e = "Undefined non-terminal: " +:+ s)).
Proof.
  unfold ValidateGrammar.
  destruct (String.eqb_spec (StartSymbol g) EmptyString) as [ES|NS].
  { cbn [Valid Errors app]. split; [split; discriminate|].
    intros e. rewrite list_elem_of_singleton. split; [auto|].
    intros [[_ ->]|[(N & _)|(N & _)]]; [reflexivity|contradiction|contradiction]. }
  destruct (Productions g !! StartSymbol g) as [prod0|] eqn:L0.
  2:{ cbn [Valid Errors app]. split; [split; discriminate|].
      intros e. rewrite list_elem_of_singleton. split; [auto|].
      intros [[E _]|[(_ & _ & ->)|(_ & [x X] & _)]];
        [contradiction|reflexivity|discriminate]. }
  destruct (checkLeftRecursion_warns_only g
              (checkUndefined g (mkValidationResult true [] []))) as [-> ->].
  unfold checkUndefined.
  pose proof (checkUndefined_fold g (bodySymbols (Productions g))
                (mkValidationResult true [] [])) as H.
  cbv zeta in H.
  match type of H with
  | (Valid ?r = true <-> _) /\ _ => set (res := r) in *
  end.
  destruct H as (V & E & _). cbn [Valid Errors] in V, E.
  assert (forall e, e ∈ Errors res <->
            exists k prod alt s,
              Productions g !! k = Some prod /\ alt ∈ Body prod /\ s ∈ alt /\
              flag (NonTerminals g) s = true /\ Productions g !! s = None /\
              e = "Undefined non-terminal: " +:+ s) as E'.
  { intros e. rewrite E. split.
    - intros [H|(s & Hs & F & L & R)]; [by apply elem_of_nil in H|].
      apply elem_of_bodySymbols in Hs as (k & prod & alt & A & B & C).
      exists k, prod, alt, s. auto 7.
    - intros (k & prod & alt & s & A & B & C & F & L & R). right.
      exists s. split; [|auto]. apply elem_of_bodySymbols.
      exists k, prod, alt. auto. }
  split.
  - rewrite V. split.
    + intros [_ B]. apply elem_of_nil_inv. intros e He.
      apply E' in He as (k & prod & alt & s & A & B1 & C & F & L & R).
      destruct (B s) as [x X];
        [apply elem_of_bodySymbols; exists k, prod, alt; auto|exact F|congruence].
    + intros N. split; [reflexivity|]. intros s Hs F.
      destruct (Productions g !! s) as [x|] eqn:L; [eauto|exfalso].
      assert ("Undefined non-terminal: " +:+ s ∈ Errors res) as Hin.
      { apply E. right. exists s. auto. }
      rewrite N in Hin. by apply elem_of_nil in Hin.
  - intros e. rewrite E'. split.
    + intros H. right; right. split; [exact NS|]. split; [eauto|exact H].
    + intros [[ES _]|[(_ & N & _)|(_ & _ & H)]];
        [contradiction|discriminate|exact H].
Qed.

(** X9.  The warnings of [ValidateGrammar], for any grammar.  A warning is
    listed exactly when the start symbol is set and has an entry in
    [Productions] and some alternative starts with the key under which its
    production is filed; the warning names that key and the alternative.
    Warnings never make the result invalid: see the errors. *)
Theorem ValidateGrammar_warnings (g : Grammar) (w : string) :
  w ∈ Warnings (ValidateGrammar g) <->
  StartSymbol g <> EmptyString /\ is_Some (Productions g !! StartSymbol g) /\
  exists head prod rest,
    Productions g !! head = Some prod /\ (head :: rest) ∈ Body prod /\
    w = "Potential left recursion in production: "
          +:+ head +:+ " -> " +:+ Go.Join (head :: rest) " ".
Proof.
  unfold ValidateGrammar.
  destruct (String.eqb_spec (StartSymbol g) EmptyString) as [ES|NS].
  { cbn [Warnings]. split; [intros H; by apply elem_of_nil in H|].
    intros (N & _). contradiction. }
  destruct (Productions g !! StartSymbol g) as [prod0|] eqn:L0.
  2:{ cbn [Warnings]. split; [intros H; by apply elem_of_nil in H|].
      intros (_ & [x X] & _). discriminate. }
  unfold checkLeftRecursion. rewrite checkLeftRecursion_fold.
  unfold checkUndefined.
  destruct (checkUndefined_fold g (bodySymbols (Productions g))
              (mkValidationResult true [] [])) as (_ & _ & W).
  cbv zeta in W. rewrite W. cbn [Warnings]. split.
  - intros [H|(head & prod & rest & Hk & Hr & R)]; [by apply elem_of_nil in H|].
    split; [exact NS|]. split; [eauto|].
    apply elem_of_map_to_list in Hk. eauto 6.
  - intros (_ & _ & head & prod & rest & Hk & Hr & R). right.
    exists head, prod, rest. split; [by apply elem_of_map_to_list|auto].
Qed.

(** X10.  The heads of a grammar built by [ParseGrammar], for any text:
    every entry of [Productions] is filed under the head it carries, and the
    head is not empty; the registered non-terminals are exactly the keys of
    [Productions]; the start symbol is empty exactly when there is no
    production at all, and otherwise it has an entry in [Productions]. *)
Theorem ParseGrammar_heads (text : string) :
  (forall k prod, Productions (ParseGrammar text) !! k = Some prod ->
     Head prod = k /\ k <> EmptyString) /\
  (forall k, flag (NonTerminals (ParseGrammar text)) k = true <->
             is_Some (Productions (ParseGrammar text) !! k)) /\
  (StartSymbol (ParseGrammar text) = EmptyString <->
   Productions (ParseGrammar text) = ∅) /\
  (StartSymbol (ParseGrammar text) <> EmptyString ->
   is_Some (Productions (ParseGrammar text) !! StartSymbol (ParseGrammar text))).
Proof.
  unfold ParseGrammar, identifyTerminals.
  cbn [Productions NonTerminals StartSymbol].
  pose proof (foldl_parseLine_lineInvariant (Go.Split text newline) _
                lineInvariant_initial) as (H1 & H2 & H3 & _).
  set (st := foldl parseLine (mkGrammar ∅ EmptyString ∅ ∅, true)
               (Go.Split text newline)) in *.
  split; [exact H1|]. split; [|split].
  - intros k. unfold flag. rewrite H2, lookup_fmap.
    destruct (Productions (fst st) !! k); simpl; split; eauto; try discriminate.
    intros [x X]. discriminate.
  - destruct (snd st).
    + tauto.
    + destruct H3 as [A [x X]]. split; [contradiction|].
      intros E. rewrite E, lookup_empty in X. discriminate.
  - destruct (snd st); [tauto|]. intros _. tauto.
Qed.

(** X11.  The terminals of a grammar built by [ParseGrammar], for any text:
    a symbol is registered as a terminal exactly when it occurs in some
    alternative, is not a registered non-terminal and is neither spelling of
    epsilon.  So no symbol is both a terminal and a non-terminal. *)
Theorem ParseGrammar_terminals (text : string) (s : string) :
  flag (Terminals (ParseGrammar text)) s = true <->
  (exists k prod alt,
     Productions (ParseGrammar text) !! k = Some prod /\
     alt ∈ Body prod /\ s ∈ alt) /\
  flag (NonTerminals (ParseGrammar text)) s = false /\ isEpsilon s = false.
Proof.
  unfold ParseGrammar, identifyTerminals.
  cbn [Productions NonTerminals Terminals].
  pose proof (foldl_parseLine_lineInvariant (Go.Split text newline) _
                lineInvariant_initial) as (_ & _ & _ & H4).
  rewrite identifyTerminals_fold, H4, elem_of_bodySymbols.
  unfold flag at 1. rewrite lookup_empty. simpl. split.
  - intros [H|H]; [discriminate|exact H].
  - auto.
Qed.

(** X12.  Validation after [ParseGrammar], for any text.  When the text has
    no production line the result is invalid with the one error that no start
    symbol is defined, and no warning; otherwise the result is valid and
    lists no error.  The two other errors of [ValidateGrammar] are out of
    reach of the grammars that [ParseGrammar] builds. *)
Theorem validation_of_a_parsed_grammar (text : string) :
  (Productions (ParseGrammar text) = ∅ ->
   ValidateGrammar (ParseGrammar text)
   = mkValidationResult false ["No start symbol defined"] []) /\
  (Productions (ParseGrammar text) <> ∅ ->
   Valid (ValidateGrammar (ParseGrammar text)) = true /\
   Errors (ValidateGrammar (ParseGrammar text)) = []) /\
  (forall e, e ∈ Errors (ValidateGrammar (ParseGrammar text)) ->
             e = "No start symbol defined").
Proof.
  assert (StartSymbol (ParseGrammar text) = EmptyString <->
          Productions (ParseGrammar text) = ∅) as SE.
  { unfold ParseGrammar, identifyTerminals. cbn [Productions StartSymbol].
    pose proof (foldl_parseLine_lineInvariant (Go.Split text newline) _
                  lineInvariant_initial) as (_ & _ & H3 & _).
    destruct (snd (foldl parseLine _ _)); [tauto|].
    destruct H3 as [A [x X]]. split; [contradiction|].
    intros E. rewrite E, lookup_empty in X. discriminate. }
  split; [|split].
  - intros E. apply SE in E. unfold ValidateGrammar. by rewrite E.
  - intros N. apply ValidateGrammar_of_ParseGrammar. intros E. by apply N, SE.
  - intros e He.
    destruct (String.eqb_spec (StartSymbol (ParseGrammar text)) EmptyString)
      as [ES|NS].
    + unfold ValidateGrammar in He. rewrite ES in He. cbn in He.
      by apply list_elem_of_singleton in He.
    + destruct (ValidateGrammar_of_ParseGrammar text NS) as [_ E].
      rewrite E in He. by apply elem_of_nil in He.
Qed.

End GrammarMore.

(* ===================================================================== *)
(** * Grammars on which the engine always returns *)
(* ===================================================================== *)

Section EngineTotal.
Import types_go grammar_go parser_go engine notions.

Lemma isTerminal_Grammar p s : isTerminal p s = Grammar_IsTerminal (grammar p) s.
Proof.
  unfold isTerminal, Grammar_IsTerminal, isOperatorOrLiteral.
  destruct (flag (Terminals (grammar p)) s); [reflexivity|]. simpl.
  apply bool_decide_ext. rewrite !elem_of_cons. tauto.
Qed.

(** The cursor never moves backwards over a call. *)
Lemma eval_pos_mono :
  (forall symbol pid p r, evalNT symbol pid p r ->
     forall p', outcome r = Some p' -> pos p <= pos p') /\
  (forall symbol node alts p r, evalTry symbol node alts p r ->
     forall p', outcome r = Some p' -> pos p <= pos p') /\
  (forall symbols pid children p r, evalLoop symbols pid children p r ->
     forall p', outcome r = Some p' -> pos p <= pos p').
Proof.
  apply eval_mutind.
  - intros symbol pid p _ p' [= <-]. lia.
  - intros symbol pid p prod r _ _ IH p' O. apply (IH p' O).
  - intros symbol node p p' [= <-]. lia.
  - intros symbol node alt rest p children p' _ IH q [= <-]. by apply IH.
  - intros symbol node alt rest p msg p1 r _ _ _ IH q O. apply (IH q O).
  - intros pid children p p' [= <-]. lia.
  - intros symbol rest pid children p r _ _ IH p' O. apply (IH p' O).
  - intros symbol rest pid children p node p1 r _ _ M _ IH p' O.
    apply matchTerminal_Ok in M as [_ ->]. specialize (IH p' O).
    unfold advance in IH. rewrite createNode_pos in IH.
    destruct (_ <? _) in IH; simpl in IH; lia.
  - intros symbol rest pid children p msg p1 _ _ M p' [= <-].
    unfold matchTerminal in M. destruct (negb _); [|by destruct (createNode _ _ _ _)].
    injection M as _ <-. lia.
  - intros symbol rest pid children p subtree p1 r _ _ _ IHN _ IHL p' O.
    specialize (IHN p1 eq_refl). specialize (IHL p' O). lia.
  - intros symbol rest pid children p msg p1 _ _ _ IHN p' [= <-].
    by apply IHN.
Qed.

(** A terminal that matches takes one token. *)
Lemma matchTerminal_Ok_pos symbol pid p node p1 :
  inBounds p -> matchTerminal symbol pid p = Ok node p1 -> pos p1 = S (pos p).
Proof.
  intros B M. apply matchTerminal_Ok in M as [_ ->].
  unfold advance. rewrite createNode_pos.
  change (tokens (snd (createNode (Value (current p)) true pid p)))
    with (tokens p).
  unfold inBounds in B.
  destruct (Nat.ltb_spec (pos p) (length (tokens p))); [reflexivity|lia].
Qed.

Lemma matchTerminal_returns symbol pid p : matchTerminal symbol pid p <> OutOfFuel.
Proof.
  unfold matchTerminal. destruct (negb _); [discriminate|].
  by destruct (createNode _ _ _ _).
Qed.

Section Ranked.
Variable g : Grammar.
Variable rank : string -> nat.
Variable R : nat.
Hypothesis nonEmpty : symbolsNonEmpty g.
Hypothesis below : forall s, rank s < R.
Hypothesis isRanked : ranked g rank = true.

Lemma ranked_leading X prod alt :
  Productions g !! X = Some prod -> alt ∈ Body prod ->
  leading g rank (rank X) alt = true.
Proof.
  intros L A. unfold ranked in isRanked.
  rewrite forallb_forall in isRanked.
  specialize (isRanked (X, prod)). cbn [fst snd] in isRanked.
  rewrite forallb_forall in isRanked. apply isRanked.
  - by apply list_elem_of_In, elem_of_map_to_list.
  - by apply list_elem_of_In.
Qed.

(** The loop of [parseAlternative], when [parseNonTerminal] returns at the
    depth [f] wherever the bound allows. *)
Lemma parseSymbolsLoop_returns (f : nat) :
  (forall Y pid q,
     grammar q = g -> endsWithEOF (tokens q) -> inBounds q ->
     1 + rank Y + R * remaining q <= f ->
     parseNonTerminal f Y pid q <> OutOfFuel) ->
  forall symbols pid children q b,
    Forall (fun s => s <> EmptyString) symbols ->
    grammar q = g -> endsWithEOF (tokens q) -> inBounds q ->
    (R * (remaining q + 1) <= f \/
     (leading g rank b symbols = true /\ b + R * remaining q <= f)) ->
    parseSymbolsLoop (parseNonTerminal f) symbols pid children q <> OutOfFuel.
Proof.
  intros IHf symbols. induction symbols as [|s rest IH];
    intros pid children q b F G E B M; cbn [parseSymbolsLoop]; [discriminate|].
  apply Forall_cons in F as [NS F'].
  cbn [leading] in M. rewrite isTerminal_Grammar, G.
  destruct (isEpsilon s).
  { destruct (createNode "ε" true pid q) as [n q1] eqn:C.
    assert (q1 = snd (createNode "ε" true pid q)) as -> by (by rewrite C).
    apply (IH _ _ _ b); auto. }
  destruct (Grammar_IsTerminal g s) eqn:T.
  - destruct (matchTerminal s pid q) as [node q1|msg q1|] eqn:MT;
      [|discriminate|by apply matchTerminal_returns in MT].
    pose proof (matchTerminal_extends _ _ _ _ q1 MT eq_refl) as (XG & XT & _).
    pose proof (matchTerminal_inBounds _ _ _ _ q1 NS E B MT eq_refl) as B1.
    pose proof (matchTerminal_Ok_pos _ _ _ _ _ B MT) as P1.
    apply (IH _ _ _ 0); auto; try congruence.
    left. unfold remaining, inBounds in *. rewrite XT, P1.
    destruct M as [M|[_ M]]; nia.
  - assert (1 + rank s + R * remaining q <= f) as Need.
    { pose proof (below s). destruct M as [M|[M1 M2]]; [nia|].
      apply andb_true_iff in M1 as [M1 _]. apply Nat.ltb_lt in M1. lia. }
    pose proof (IHf s pid q G E B Need) as NF.
    pose proof (parseNonTerminal_eval _ _ _ _ NF) as Ev.
    destruct (parseNonTerminal f s pid q) as [subtree q1|msg q1|];
      [|discriminate|congruence].
    pose proof (proj1 eval_extends _ _ _ _ Ev q1 eq_refl) as (XG & XT & _).
    pose proof (proj1 eval_pos_mono _ _ _ _ Ev q1 eq_refl) as PM.
    assert (symbolsNonEmpty (grammar q)) as NE by (rewrite G; exact nonEmpty).
    pose proof (proj1 eval_inBounds _ _ _ _ Ev NE E B q1 eq_refl) as B1.
    apply (IH _ _ _ b); auto; try congruence.
    unfold remaining, inBounds in *. rewrite XT.
    destruct M as [M|[M1 M2]]; [left; nia|right].
    apply andb_true_iff in M1 as [_ M1]. split; [exact M1|nia].
Qed.

(** The loop of [parseNonTerminal] over the alternatives. *)
Lemma tryAlternatives_returns (f : nat) symbol node alts :
  forall p,
    (forall alt q, alt ∈ alts ->
       grammar q = grammar p -> tokens q = tokens p -> pos q = pos p ->
       parseAlternative f alt (ID node) q <> OutOfFuel) ->
    tryAlternatives (parseAlternative f) symbol node alts p <> OutOfFuel.
Proof.
  induction alts as [|alt rest IH]; intros p H; cbn [tryAlternatives];
    [discriminate|].
  assert (parseAlternative f alt (ID node) p <> OutOfFuel) as NF
    by (apply H; [apply elem_of_cons; auto|reflexivity..]).
  pose proof (parseAlternative_eval _ _ _ _ NF) as Ev.
  destruct (parseAlternative f alt (ID node) p) as [cs q|msg q|];
    [discriminate| |congruence].
  pose proof (proj2 (proj2 eval_extends) _ _ _ _ _ Ev q eq_refl) as (XG & XT & _).
  apply IH. intros alt' q' Hin G' T' P'. apply H.
  - apply elem_of_cons. auto.
  - rewrite G'. exact XG.
  - rewrite T'. exact XT.
  - rewrite P'. reflexivity.
Qed.

(** [parseNonTerminal] returns at every depth above the rank of the symbol
    plus [R] levels for each token left. *)
Lemma parseNonTerminal_returns (fuel : nat) :
  forall X pid p,
    grammar p = g -> endsWithEOF (tokens p) -> inBounds p ->
    1 + rank X + R * remaining p <= fuel ->
    parseNonTerminal fuel X pid p <> OutOfFuel.
Proof.
  induction fuel as [|f IHf]; intros X pid p G E B Need; [lia|].
  cbn [parseNonTerminal].
  destruct (Productions (grammar p) !! X) as [prod|] eqn:L; [|discriminate].
  destruct (createNode X false pid p) as [node p1] eqn:C.
  assert (p1 = snd (createNode X false pid p)) as P1 by (by rewrite C).
  apply (tryAlternatives_returns f X node (Body prod) p1).
  intros alt q Hin Gq Tq Pq. unfold parseAlternative.
  rewrite P1 in Gq, Tq, Pq. rewrite createNode_pos in Pq.
  change (grammar (snd (createNode X false pid p))) with (grammar p) in Gq.
  change (tokens (snd (createNode X false pid p))) with (tokens p) in Tq.
  rewrite G in L.
  apply (parseSymbolsLoop_returns f IHf alt (ID node) [] q (rank X)).
  - pose proof (nonEmpty X prod L) as FA. simpl in FA.
    rewrite Forall_forall in FA. by apply FA.
  - congruence.
  - by rewrite Tq.
  - unfold inBounds in *. by rewrite Tq, Pq.
  - right. split; [by apply (ranked_leading X prod)|].
    unfold remaining in *. rewrite Tq, Pq. lia.
Qed.

End Ranked.
End EngineTotal.

(* ===================================================================== *)
(** * Further properties of [Parse] *)
(* ===================================================================== *)

Section ParseMore.
Import types_go grammar_go parser_go engine replay notions scenarios.

(** X1.  Recording is an observer: [Parse] without step recording returns
    what [Parse] with step recording returns, the step log of the result
    left empty (same verdict, same tree with the same ids, same error, same
    tokens), and leaves the parser in the same state but for the log and the
    flag; it returns at exactly the recursion depths at which the other
    does. *)
Theorem recording_only_adds_the_steps (fuel : nat) (p : Parser) (input : string) :
  Parse fuel p input false =
  (fun rq => (withoutSteps rq.1, silent rq.2)) <$> Parse fuel p input true.
Proof.
  rewrite Parse_silent. by destruct (Parse fuel p input true) as [[r q]|].
Qed.

(** X2.  Direct left recursion never returns.  When the first alternative of
    the production of a symbol starts with the symbol itself, and the symbol
    is not a terminal for the engine, [parseNonTerminal] on that symbol has
    no outcome at any recursion depth, whatever the tokens and the cursor:
    the engine expands the symbol again before it reads a token.  [Parse] on
    a grammar whose start symbol is such a symbol returns for no input. *)
Theorem left_recursion_has_no_outcome
  (symbol : string) (prod : Production) (rest : list string)
  (alts : list (list string)) (p : Parser) :
  Productions (grammar p) !! symbol = Some prod ->
  Body prod = (symbol :: rest) :: alts ->
  Grammar_IsTerminal (grammar p) symbol = false ->
  (forall fuel pid, parseNonTerminal fuel symbol pid p = OutOfFuel) /\
  (StartSymbol (grammar p) = symbol -> symbol <> EmptyString ->
   forall fuel input rec, Parse fuel p input rec = None).
Proof.
  intros L B T. unfold Grammar_IsTerminal, isOperatorOrLiteral in T.
  apply orb_false_iff in T as [TF TB]. apply bool_decide_eq_false in TB.
  assert (isEpsilon symbol = false) as E.
  { unfold isEpsilon.
    destruct (String.eqb_spec symbol "ε") as [->|_];
      [exfalso; apply TB; rewrite !elem_of_cons; tauto|].
    destruct (String.eqb_spec symbol "epsilon") as [->|_];
      [exfalso; apply TB; rewrite !elem_of_cons; tauto|reflexivity]. }
  assert (forall q, grammar q = grammar p -> isTerminal q symbol = false) as NT.
  { intros q G. unfold isTerminal. rewrite G, TF.
    apply bool_decide_eq_false. intros Hin. apply TB.
    rewrite !elem_of_cons in *. tauto. }
  pose proof (parseNonTerminal_left_recursive (grammar p) symbol prod rest alts
                L B E NT) as D.
  split.
  - intros fuel pid. by apply D.
  - intros S NE fuel input rec. unfold Parse. cbv zeta.
    change (grammar (reset p input rec)) with (grammar p). rewrite S.
    destruct (String.eqb_spec symbol EmptyString); [contradiction|].
    by rewrite D.
Qed.

Lemma left_recursion_has_no_outcome_witness :
  (forall fuel pid, parseNonTerminal fuel "S" pid leftRecursiveParser = OutOfFuel) /\
  (forall fuel input rec, Parse fuel leftRecursiveParser input rec = None).
Proof.
  destruct (left_recursion_has_no_outcome "S"
              (mkProduction "S" [["S"; "a"]; ["b"]]) ["a"] [["b"]]
              leftRecursiveParser) as [A B];
    [reflexivity|reflexivity|reflexivity|].
  split; [exact A|]. apply B; [reflexivity|discriminate].
Defined.

(** X3.  The errors of [Parse].  A failed [Parse] reports one of four
    things: the grammar has no start symbol; the start symbol has no
    production; no alternative of the start symbol could be completed, and
    then the message names position 0 and the text of the first token, the
    cursor being back at the start; or the start symbol was expanded and a
    token other than EOF is left under the cursor.  The error of a terminal
    that did not match deeper in the expansion is never the error of the
    result. *)
Theorem Parse_failure_messages
  (fuel : nat) (p : Parser) (input : string) (rec : bool)
  (r : ParseResult) (q : Parser) :
  Parse fuel p input rec = Some (r, q) ->
  Success r = false ->
  let start := StartSymbol (grammar p) in
  ((start = EmptyString /\ Error r = "Grammar has no start symbol") \/
   (start <> EmptyString /\ Productions (grammar p) !! start = None /\
    Error r = "undefined non-terminal: " +:+ start) \/
   (is_Some (Productions (grammar p) !! start) /\ pos q = 0 /\
    Error r = "no matching production for " +:+ start +:+ " at position 0 (found '"
                +:+ Value (current (reset p input rec)) +:+ "')") \/
   (Type_ (current q) <> TOKEN_EOF /\ Error r = unexpectedError (current q))) /\
  (forall symbol token, Error r <> expectedError symbol token).
Proof.
  intros H F start.
  destruct (Parse_cases _ _ _ _ _ _ H) as
    [(ES & -> & ->)|[(NS & msg & Ev & ->)|[(NS & tree & Ev & NE & ->)
                                          |(NS & tree & Ev & _ & ->)]]];
    [| | |discriminate]; cbn [Error].
  - split; [left; auto|]. intros symbol token. unfold expectedError. discriminate.
  - destruct (evalNT_Err _ _ _ _ _ Ev) as [(L & -> & ->)|(L & -> & P & T & _)].
    + split; [right; left; auto|].
      intros symbol token. unfold expectedError. simpl. discriminate.
    + split.
      * right; right; left. split; [exact L|]. split; [exact P|].
        unfold noMatchError, current. rewrite P, T. reflexivity.
      * intros symbol token. unfold expectedError, noMatchError. simpl. discriminate.
  - split; [right; right; right; auto|].
    intros symbol token. unfold expectedError, unexpectedError. simpl. discriminate.
Qed.

Lemma Parse_failure_messages_witness :
  exists r q,
    Parse 5 defaultParser "+ 3" true = Some (r, q) /\
    Success r = false /\
    Error r = "no matching production for E at position 0 (found '+')" /\
    ((StartSymbol (grammar defaultParser) = EmptyString /\
      Error r = "Grammar has no start symbol") \/
     (StartSymbol (grammar defaultParser) <> EmptyString /\
      Productions (grammar defaultParser) !! StartSymbol (grammar defaultParser)
        = None /\
      Error r = "undefined non-terminal: " +:+ StartSymbol (grammar defaultParser)) \/
     (is_Some (Productions (grammar defaultParser)
                 !! StartSymbol (grammar defaultParser)) /\ pos q = 0 /\
      Error r = "no matching production for "
                  +:+ StartSymbol (grammar defaultParser)
                  +:+ " at position 0 (found '"
                  +:+ Value (current (reset defaultParser "+ 3" true)) +:+ "')") \/
     (Type_ (current q) <> TOKEN_EOF /\ Error r = unexpectedError (current q))) /\
    (forall symbol token, Error r <> expectedError symbol token).
Proof.
  destruct (Parse 5 defaultParser "+ 3" true) as [[r q]|] eqn:E;
    [|vm_compute in E; discriminate].
  assert (Success r = false /\
          Error r = "no matching production for E at position 0 (found '+')")
    as [HS HE].
  { vm_compute in E. injection E as <- _. split; reflexivity. }
  exists r, q. split; [reflexivity|]. split; [exact HS|]. split; [exact HE|].
  exact (Parse_failure_messages 5 defaultParser "+ 3" true r q E HS).
Defined.

(** X4.  The shape of a result.  Every result of [Parse] carries the tokens
    of the input.  A success has a tree and no error message, and its step
    log is empty when recording is off; a failure has no tree, an empty step
    log even when recording is on (the steps logged before the failure are
    not reported), and an error message that is not empty. *)
Theorem Parse_result_shape
  (fuel : nat) (p : Parser) (input : string) (rec : bool)
  (r : ParseResult) (q : Parser) :
  Parse fuel p input rec = Some (r, q) ->
  Tokens r = lexer_go.Tokenize (lexer_go.NewLexer input) /\
  (Success r = true ->
     is_Some (Tree r) /\ Error r = EmptyString /\ (rec = false -> Steps r = [])) /\
  (Success r = false ->
     Tree r = None /\ Steps r = [] /\ Error r <> EmptyString).
Proof.
  intros H.
  destruct (Parse_cases _ _ _ _ _ _ H) as
    [(ES & -> & ->)|[(NS & msg & Ev & ->)|[(NS & tree & Ev & NE & ->)
                                          |(NS & tree & Ev & _ & ->)]]];
    cbn [Tokens Success Tree Steps Error]; (split; [reflexivity|]); split;
    try discriminate.
  - intros _. repeat split. discriminate.
  - intros _. repeat split. eapply evalNT_Err_nonempty, Ev.
  - intros _. repeat split. unfold unexpectedError. simpl. discriminate.
  - intros _. split; [eauto|]. split; [reflexivity|]. intros ->.
    rewrite Parse_silent in H.
    destruct (Parse fuel p input true) as [[r' q']|]; [|discriminate].
    apply (f_equal (fun o => match o with
                             | Some (_, q0) => steps q0
                             | None => []
                             end)) in H.
    simpl in H. by rewrite <- H.
Qed.

Lemma Parse_result_shape_witness :
  exists r q,
    Parse 5 defaultParser "3 +" true = Some (r, q) /\
    Tokens r = lexer_go.Tokenize (lexer_go.NewLexer "3 +") /\
    (Success r = true ->
       is_Some (Tree r) /\ Error r = EmptyString /\ (true = false -> Steps r = [])) /\
    (Success r = false ->
       Tree r = None /\ Steps r = [] /\ Error r <> EmptyString).
Proof.
  destruct (Parse 5 defaultParser "3 +" true) as [[r q]|] eqn:E;
    [|vm_compute in E; discriminate].
  exists r, q. split; [reflexivity|].
  exact (Parse_result_shape 5 defaultParser "3 +" true r q E).
Defined.

(** X5.  The ids of a tree.  In the tree of a successful [Parse], with or
    without step recording, the root has id 1 and is the non-terminal node of
    the start symbol, and the ids increase strictly in document order (a node
    before its children, the children from left to right) up to the value of
    the node counter: no two nodes share an id.  The ids need not be
    consecutive, the nodes of abandoned alternatives having used some. *)
Theorem Parse_tree_ids
  (fuel : nat) (p : Parser) (input : string) (rec : bool)
  (r : ParseResult) (q : Parser) (tree : TreeNode) :
  Parse fuel p input rec = Some (r, q) ->
  Tree r = Some tree ->
  ID tree = 1%Z /\ Label tree = StartSymbol (grammar p) /\ IsTerminal tree = false /\
  chain 0 (idsOf tree) (nodeID q) /\ NoDup (idsOf tree).
Proof.
  intros H T.
  destruct (Parse_true_of_any _ _ _ _ _ _ H) as
    (r' & q' & H' & _ & T' & _ & _ & N' & _).
  rewrite T in T'. rewrite <- N'. clear H N' q r T.
  destruct (Parse_cases _ _ _ _ _ _ H') as
    [(ES & -> & ->)|[(NS & msg & Ev & ->)|[(NS & tree' & Ev & NE & ->)
                                          |(NS & tree' & Ev & _ & ->)]]];
    try discriminate.
  injection T' as ->.
  destruct (evalNT_Ok_root _ _ _ _ _ Ev) as (I & L & IT).
  destruct (proj1 eval_steps _ _ _ _ Ev tree q' eq_refl eq_refl) as (_ & C).
  simpl in I, C. repeat split; auto. eapply chain_NoDup, C.
Qed.

Lemma Parse_tree_ids_witness :
  exists r q tree,
    Parse 3 abParser "a c" false = Some (r, q) /\
    Tree r = Some tree /\
    idsOf tree = [1; 3; 4]%Z /\
    ID tree = 1%Z /\ Label tree = StartSymbol (grammar abParser) /\
    IsTerminal tree = false /\
    chain 0 (idsOf tree) (nodeID q) /\ NoDup (idsOf tree).
Proof.
  destruct (Parse 3 abParser "a c" false) as [[r q]|] eqn:E;
    [|vm_compute in E; discriminate].
  destruct (Tree r) as [tree|] eqn:T;
    [|vm_compute in E; injection E as <- _; discriminate].
  exists r, q, tree. split; [reflexivity|]. split; [exact T|].
  split.
  { vm_compute in E. injection E as <- _. simpl in T. by injection T as <-. }
  exact (Parse_tree_ids 3 abParser "a c" false r q tree E T).
Defined.

(** X6.  A subtree spans the tokens it consumed.  Under a grammar without
    empty symbols (every grammar of [ParseGrammar] is one), on the tokens of
    any input, a successful [parseNonTerminal] moves the cursor forward, and
    the fringe of the tree it returns (the labels of its terminal leaves from
    left to right, ε leaves left out) is the sequence of the texts of the
    tokens between the cursor before the call and the cursor after it. *)
Theorem subtree_spans_its_tokens
  (fuel : nat) (symbol : string) (pid : Z) (p : Parser) (input : string)
  (t : TreeNode) (p' : Parser) :
  symbolsNonEmpty (grammar p) ->
  tokens p = lexer_go.Tokenize (lexer_go.NewLexer input) ->
  pos p < length (tokens p) ->
  parseNonTerminal fuel symbol pid p = Ok t p' ->
  pos p <= pos p' < length (tokens p) /\
  yield t = map Value (between (pos p) (pos p') (tokens p)).
Proof.
  intros G T B H.
  assert (parseNonTerminal fuel symbol pid p <> OutOfFuel) as NF
    by (rewrite H; discriminate).
  pose proof (parseNonTerminal_eval _ _ _ _ NF) as Ev. rewrite H in Ev.
  destruct (Tokenize_ends_with_EOF (lexer_go.NewLexer input)) as (toks & TE & _).
  assert (endsWithEOF (tokens p)) as E.
  { exists toks, (Z.of_nat (String.length input)). by rewrite T. }
  assert (Forall epsilonIsIdent (tokens p)) as I
    by (rewrite T; apply Tokenize_epsilonIsIdent).
  destruct (proj1 eval_yield _ _ _ _ Ev G E B I t p' eq_refl) as (Le & Y).
  pose proof (proj1 eval_inBounds _ _ _ _ Ev G E B p' eq_refl) as B'.
  pose proof (proj1 eval_extends _ _ _ _ Ev p' eq_refl) as (_ & XT & _).
  unfold inBounds in B'. rewrite XT in B'. auto.
Qed.

Lemma subtree_spans_its_tokens_witness :
  exists t p',
    parseNonTerminal 4 "T" 0 (setPos (reset defaultParser "1 + 2 * 3" false) 2)
      = Ok t p' /\
    pos p' = 5 /\ yield t = ["2"; "*"; "3"] /\
    2 <= pos p' < length (tokens (reset defaultParser "1 + 2 * 3" false)) /\
    yield t = map Value (between 2 (pos p')
                           (tokens (reset defaultParser "1 + 2 * 3" false))).
Proof.
  destruct (parseNonTerminal 4 "T" 0
              (setPos (reset defaultParser "1 + 2 * 3" false) 2))
    as [t p'| |] eqn:E;
    [|vm_compute in E; discriminate|vm_compute in E; discriminate].
  exists t, p'. split; [reflexivity|].
  split; [vm_compute in E; by injection E as _ <-|].
  split; [vm_compute in E; by injection E as <- _|].
  refine (subtree_spans_its_tokens 4 "T" 0
            (setPos (reset defaultParser "1 + 2 * 3" false) 2) "1 + 2 * 3"
            t p' _ _ _ E).
  - apply ParseGrammar_symbolsNonEmpty.
  - reflexivity.
  - vm_compute. lia.
Defined.

(** X7.  The tree of a successful [Parse] spells the input.  Under a grammar
    without empty symbols, the fringe of the tree of a successful [Parse] is
    the sequence of the texts of all the tokens of the input, in order, the
    final EOF token (of empty text) apart, and the cursor ends on that EOF
    token, the last of the sequence: nothing of the input is skipped,
    repeated or reordered in the tree. *)
Theorem Parse_tree_spells_the_input
  (fuel : nat) (p : Parser) (input : string) (rec : bool)
  (r : ParseResult) (q : Parser) (tree : TreeNode) :
  symbolsNonEmpty (grammar p) ->
  Parse fuel p input rec = Some (r, q) ->
  Tree r = Some tree ->
  yield tree ++ [EmptyString] = map Value (Tokens r) /\
  S (pos q) = length (Tokens r).
Proof.
  intros G H T.
  destruct (Parse_success_fringe _ _ _ _ _ _ _ G H T) as (toks & TE & P & Y & _ & TR).
  rewrite TR, TE, Y, P, map_app, length_app. simpl. split; [reflexivity|lia].
Qed.

Lemma Parse_tree_spells_the_input_witness :
  exists r q tree,
    Parse 12 defaultParser "(1+2) * 3.5" false = Some (r, q) /\
    Tree r = Some tree /\
    yield tree = ["("; "1"; "+"; "2"; ")"; "*"; "3.5"] /\
    yield tree ++ [EmptyString] = map Value (Tokens r) /\
    S (pos q) = length (Tokens r).
Proof.
  destruct (Parse 12 defaultParser "(1+2) * 3.5" false) as [[r q]|] eqn:E;
    [|vm_compute in E; discriminate].
  destruct (Tree r) as [tree|] eqn:T;
    [|vm_compute in E; injection E as <- _; discriminate].
  exists r, q, tree. split; [reflexivity|]. split; [exact T|].
  split.
  { vm_compute in E. injection E as <- _. simpl in T. by injection T as <-. }
  refine (Parse_tree_spells_the_input 12 defaultParser "(1+2) * 3.5" false
            r q tree _ E T).
  apply ParseGrammar_symbolsNonEmpty.
Defined.

(** X15.  Grammars on which [Parse] always returns.  Let the symbols of a
    grammar without empty symbols be ranked, all ranks below [R], so that no
    alternative asks, before it has matched a terminal, for a symbol that is
    not of a lower rank than its head (no left recursion, direct or
    indirect).  Then the recursion of [Parse] is never deeper than the rank
    of the start symbol plus [R] levels for each token, the final EOF token
    included, plus one: within that depth [Parse] returns a result for every
    input. *)
Theorem ranked_grammar_always_returns
  (rank : string -> nat) (R : nat) (p : Parser) (input : string) (rec : bool)
  (fuel : nat) :
  symbolsNonEmpty (grammar p) ->
  (forall s, rank s < R) ->
  ranked (grammar p) rank = true ->
  1 + rank (StartSymbol (grammar p))
    + R * length (lexer_go.Tokenize (lexer_go.NewLexer input)) <= fuel ->
  exists r q, Parse fuel p input rec = Some (r, q).
Proof.
  intros G B K F. unfold Parse. cbv zeta.
  change (grammar (reset p input rec)) with (grammar p).
  destruct (String.eqb _ _); [eauto|].
  destruct (Tokenize_ends_with_EOF (lexer_go.NewLexer input)) as (toks & TE & _).
  assert (parseNonTerminal fuel (StartSymbol (grammar p)) (-1)
            (reset p input rec) <> OutOfFuel) as NF.
  { apply (parseNonTerminal_returns (grammar p) rank R G B K).
    - reflexivity.
    - exists toks, (Z.of_nat (String.length input)). exact TE.
    - unfold inBounds. simpl. rewrite TE, length_app. simpl. lia.
    - unfold remaining. simpl. lia. }
  destruct (parseNonTerminal fuel _ _ _) as [tree q|msg q|]; [|eauto|congruence].
  destruct (negb _); eauto.
Qed.

Lemma ranked_grammar_always_returns_witness :
  exists r q, Parse 15 defaultParser "1 + 2" true = Some (r, q).
Proof.
  apply (ranked_grammar_always_returns defaultRank 3).
  - apply ParseGrammar_symbolsNonEmpty.
  - intros s. unfold defaultRank. repeat destruct (String.eqb _ _); lia.
  - vm_compute. reflexivity.
  - vm_compute. lia.
Defined.

(** X16.  [ParseWithDefaultGrammar] always returns.  On the default
    arithmetic grammar the recursion is never deeper than three levels for
    each token of the input, the final EOF token included, plus three: for
    every input, with or without step recording, a result is returned within
    that depth. *)
Theorem ParseWithDefaultGrammar_always_returns (input : string) (rec : bool) :
  exists r q,
    ParseWithDefaultGrammar
      (3 + 3 * length (lexer_go.Tokenize (lexer_go.NewLexer input))) input rec
    = Some (r, q).
Proof.
  unfold ParseWithDefaultGrammar, Parse. cbv zeta.
  set (p := NewParser (ParseGrammar GetDefaultArithmeticGrammar)).
  change (grammar (reset p input rec)) with (grammar p).
  assert (StartSymbol (grammar p) = "E") as -> by (vm_compute; reflexivity).
  cbn [String.eqb Ascii.eqb Bool.eqb].
  destruct (Tokenize_ends_with_EOF (lexer_go.NewLexer input)) as (toks & TE & _).
  assert (parseNonTerminal
            (3 + 3 * length (lexer_go.Tokenize (lexer_go.NewLexer input)))
            "E" (-1) (reset p input rec) <> OutOfFuel) as NF.
  { apply (parseNonTerminal_returns (grammar p) defaultRank 3).
    - apply ParseGrammar_symbolsNonEmpty.
    - intros s. unfold defaultRank. repeat destruct (String.eqb _ _); lia.
    - vm_compute. reflexivity.
    - reflexivity.
    - exists toks, (Z.of_nat (String.length input)). exact TE.
    - unfold inBounds. simpl. rewrite TE, length_app. simpl. lia.
    - unfold remaining. simpl. lia. }
  destruct (parseNonTerminal _ _ _ _) as [tree q|msg q|]; [|eauto|congruence].
  destruct (negb _); eauto.
Qed.

End ParseMore.

(* ===================================================================== *)
(** * The application methods and the names of the token kinds *)
(* ===================================================================== *)

Section AppMore.
Import types_go grammar_go parser_go engine replay notions names_go app_go scenarios.

(** X17.  What the two parsing methods of the application return.  When the
    grammar text has no production line (the start symbol of its grammar is
    empty), both return the same refusal, whatever the input: failure, no
    tree, no steps, no tokens, and the message of the one validation error.
    For every other grammar text validation lets the grammar through, and
    the methods return what [Parse] returns on a fresh parser,
    [ParseString] without and [ParseStepByStep] with step recording. *)
Theorem app_parse_methods (fuel : nat) (grammarText input : string) :
  let grammar := ParseGrammar grammarText in
  let refusal :=
    mkParseResult false None []
      "Grammar validation failed: No start symbol defined" [] in
  ParseString fuel grammarText input
  = (if String.eqb (StartSymbol grammar) EmptyString then Some refusal
     else fst <$> Parse fuel (NewParser grammar) input false) /\
  ParseStepByStep fuel grammarText input
  = (if String.eqb (StartSymbol grammar) EmptyString then Some refusal
     else fst <$> Parse fuel (NewParser grammar) input true).
Proof.
  cbv zeta. unfold ParseString, ParseStepByStep.
  destruct (String.eqb_spec (StartSymbol (ParseGrammar grammarText)) EmptyString)
    as [ES|NS].
  - unfold ValidateGrammar. rewrite ES. split; reflexivity.
  - destruct (ValidateGrammar_of_ParseGrammar grammarText NS) as [-> _].
    split; reflexivity.
Qed.

(** X18.  [ParseString] is [ParseStepByStep] without the steps: for every
    grammar text and input the two methods return at the same recursion
    depths, and the result of the former is the result of the latter with an
    empty step log. *)
Theorem ParseString_is_ParseStepByStep_without_steps
  (fuel : nat) (grammarText input : string) :
  ParseString fuel grammarText input
  = withoutSteps <$> ParseStepByStep fuel grammarText input.
Proof.
  unfold ParseString, ParseStepByStep.
  destruct (negb _); [reflexivity|].
  rewrite Parse_silent.
  by destruct (Parse fuel _ input true) as [[r q]|].
Qed.

(** X19.  The trees that the application shows.  Whatever the grammar text
    and the input, when [ParseString] or [ParseStepByStep] returns a result
    with a tree, the result is a success without error message, its tokens
    are those of [GetTokens] on the input, and the fringe of the tree is the
    sequence of the texts of these tokens, the final EOF token apart. *)
Theorem app_tree_spells_the_input
  (fuel : nat) (grammarText input : string) (r : ParseResult) (tree : TreeNode) :
  ParseString fuel grammarText input = Some r \/
  ParseStepByStep fuel grammarText input = Some r ->
  Tree r = Some tree ->
  Success r = true /\ Error r = EmptyString /\
  Tokens r = GetTokens input /\
  yield tree ++ [EmptyString] = map Value (GetTokens input).
Proof.
  intros H T.
  assert (exists rec q,
            Parse fuel (NewParser (ParseGrammar grammarText)) input rec
            = Some (r, q)) as (rec & q & HP).
  { unfold ParseString, ParseStepByStep in H.
    destruct (negb _).
    - destruct H as [[= <-]|[= <-]]; discriminate.
    - destruct H as [H|H]; [exists false|exists true];
        destruct (Parse fuel _ input _) as [[r' q]|]; try discriminate;
        injection H as ->; eauto. }
  destruct (Parse_success_fringe fuel (NewParser (ParseGrammar grammarText))
              input rec r q tree
              (ParseGrammar_symbolsNonEmpty grammarText) HP T)
    as (toks & TE & P & Y & (S & E) & TR).
  unfold GetTokens. split; [exact S|]. split; [exact E|]. split; [exact TR|].
  by rewrite TE, Y, map_app.
Qed.

Lemma app_tree_spells_the_input_witness :
  exists r tree,
    (ParseString 12 GetDefaultGrammar "(1+2) * 3.5" = Some r \/
     ParseStepByStep 12 GetDefaultGrammar "(1+2) * 3.5" = Some r) /\
    Tree r = Some tree /\
    Success r = true /\ Error r = EmptyString /\
    Tokens r = GetTokens "(1+2) * 3.5" /\
    yield tree ++ [EmptyString] = map Value (GetTokens "(1+2) * 3.5").
Proof.
  destruct (ParseString 12 GetDefaultGrammar "(1+2) * 3.5") as [r|] eqn:E;
    [|vm_compute in E; discriminate].
  destruct (Tree r) as [tree|] eqn:T;
    [|vm_compute in E; injection E as <-; discriminate].
  exists r, tree. split; [left; reflexivity|]. split; [exact T|].
  exact (app_tree_spells_the_input 12 GetDefaultGrammar "(1+2) * 3.5" r tree
           (or_introl E) T).
Defined.

(** X20.  The names of the token kinds are the symbols of the engine.  For
    each of the seven kinds of number, operator and parenthesis tokens, the
    name that [GetTokenTypeName] gives to the kind is a terminal for the
    engine, under every grammar, and [matchTerminal] accepts under that name
    exactly the tokens of the kind, whatever their text. *)
Theorem token_names_are_the_symbols
  (ty : TokenType) (p : Parser) (pid : Z) :
  ty ∈ [TOKEN_NUMBER; TOKEN_PLUS; TOKEN_MINUS; TOKEN_MULT; TOKEN_DIV;
        TOKEN_LPAREN; TOKEN_RPAREN] ->
  isTerminal p (GetTokenTypeName ty) = true /\
  isEpsilon (GetTokenTypeName ty) = false /\
  (forall t, matches (GetTokenTypeName ty) t = bool_decide (Type_ t = ty)) /\
  (Type_ (current p) = ty <->
   exists node q, matchTerminal (GetTokenTypeName ty) pid p = Ok node q).
Proof.
  intros Hty.
  assert (isTerminal p (GetTokenTypeName ty) = true /\
          isEpsilon (GetTokenTypeName ty) = false /\
          forall t, matches (GetTokenTypeName ty) t = bool_decide (Type_ t = ty))
    as (A & B & C).
  { rewrite !elem_of_cons, elem_of_nil in Hty.
    destruct Hty as [->|[->|[->|[->|[->|[->|[->|[]]]]]]]];
      (split; [unfold isTerminal; destruct (flag _ _); reflexivity|]);
      (split; [reflexivity|]); intros t; reflexivity. }
  split; [exact A|]. split; [exact B|]. split; [exact C|].
  unfold matchTerminal. rewrite C. split.
  - intros E. rewrite bool_decide_eq_true_2 by exact E. cbn [negb].
    destruct (createNode _ _ _ _). eauto.
  - intros (node & q & H).
    destruct (bool_decide (Type_ (current p) = ty)) eqn:D.
    + by apply bool_decide_eq_true in D.
    + discriminate.
Qed.

Lemma token_names_are_the_symbols_witness :
  isTerminal abStart (GetTokenTypeName TOKEN_MULT) = true /\
  isEpsilon (GetTokenTypeName TOKEN_MULT) = false /\
  (forall t, matches (GetTokenTypeName TOKEN_MULT) t
             = bool_decide (Type_ t = TOKEN_MULT)) /\
  (Type_ (current abStart) = TOKEN_MULT <->
   exists node q, matchTerminal (GetTokenTypeName TOKEN_MULT) 0 abStart = Ok node q).
Proof.
  apply (token_names_are_the_symbols TOKEN_MULT abStart 0).
  rewrite !elem_of_cons. tauto.
Defined.

End AppMore.

(* ===================================================================== *)
(** * The tree of a parse is a derivation *)
(* ===================================================================== *)

Section Derivations.
Import types_go grammar_go parser_go engine replay notions scenarios.

Lemma eval_derives :
  (forall symbol pid p r, evalNT symbol pid p r ->
     forall t p', r = Ok t p' -> expands (grammar p) symbol t) /\
  (forall symbol node alts p r, evalTry symbol node alts p r ->
     forall t p', r = Ok t p' ->
       exists alt cs, alt ∈ alts /\
         t = mkTreeNode (ID node) (Label node) cs (IsTerminal node) /\
         Forall2 (derives (grammar p)) alt cs) /\
  (forall symbols pid children p r, evalLoop symbols pid children p r ->
     forall cs' p', r = Ok cs' p' ->
       exists new, cs' = children ++ new /\
         Forall2 (derives (grammar p)) symbols new).
Proof.
  apply eval_mutind.
  - (* undefined *) discriminate.
  - (* defined *)
    intros symbol pid p prod r L _ IH t p' R.
    destruct (IH t p' R) as (alt & cs & Hin & -> & F).
    rewrite createNode_fst. cbn [ID Label IsTerminal].
    by apply (expands_node _ _ _ prod alt).
  - (* none *) discriminate.
  - (* first *)
    intros symbol node alt rest p children p' _ IH t q [= <- <-].
    destruct (IH children p' eq_refl) as (new & -> & F).
    exists alt, new. split; [apply elem_of_cons; auto|auto].
  - (* next *)
    intros symbol node alt rest p msg p1 r HL _ _ IH t q R.
    pose proof (proj2 (proj2 eval_extends) _ _ _ _ _ HL p1 eq_refl) as (XG & _).
    destruct (IH t q R) as (alt' & cs & Hin & -> & F).
    exists alt', cs. split; [apply elem_of_cons; auto|]. split; [reflexivity|].
    change (grammar (backtrack (pos p) (length (steps p)) p1))
      with (grammar p1) in F.
    by rewrite XG in F.
  - (* done *)
    intros pid children p cs' p' [= <- <-]. exists [].
    rewrite app_nil_r. split; [reflexivity|constructor].
  - (* epsilon *)
    intros symbol rest pid children p r E _ IH cs' p' R.
    destruct (IH cs' p' R) as (new & -> & F).
    exists (fst (createNode "ε" true pid p) :: new).
    rewrite <- app_assoc. split; [reflexivity|].
    constructor; [|exact F]. rewrite createNode_fst. by constructor.
  - (* match *)
    intros symbol rest pid children p node p1 r E T M _ IH cs' p' R.
    pose proof (matchTerminal_extends _ _ _ _ p1 M eq_refl) as (XG & _).
    pose proof (matchTerminal_Ok_matches _ _ _ _ _ M) as MM.
    apply matchTerminal_Ok in M as [-> _].
    destruct (IH cs' p' R) as (new & -> & F). rewrite XG in F.
    exists (mkTreeNode (nodeID p + 1) (Value (current p)) [] true :: new).
    rewrite <- app_assoc. split; [reflexivity|].
    constructor; [|exact F]. apply derives_terminal; auto.
    by rewrite <- isTerminal_Grammar.
  - (* mismatch *) discriminate.
  - (* expand *)
    intros symbol rest pid children p subtree p1 r E T HN IHN _ IHL cs' p' R.
    pose proof (proj1 eval_extends _ _ _ _ HN p1 eq_refl) as (XG & _).
    destruct (IHL cs' p' R) as (new & -> & F). rewrite XG in F.
    exists (subtree :: new). rewrite <- app_assoc. split; [reflexivity|].
    constructor; [|exact F]. apply derives_nonterminal; auto.
    + by rewrite <- isTerminal_Grammar.
    + by apply (IHN subtree p1).
  - (* fail *) discriminate.
Qed.

(** X21.  The tree of a parse is a derivation tree of the grammar.  In the
    tree of a successful [Parse], under any grammar, the root is a
    non-terminal node of the start symbol, and every non-terminal node has
    for children, one for one and in order, what the symbols of one
    alternative of the production of its label call for: an ε leaf for
    either spelling of epsilon, a terminal leaf with the text of a token that
    the symbol matches for a terminal, and for a non-terminal a subtree of
    the same kind. *)
Theorem Parse_tree_is_a_derivation
  (fuel : nat) (p : Parser) (input : string) (rec : bool)
  (r : ParseResult) (q : Parser) (tree : TreeNode) :
  Parse fuel p input rec = Some (r, q) ->
  Tree r = Some tree ->
  expands (grammar p) (StartSymbol (grammar p)) tree.
Proof.
  intros H T.
  destruct (Parse_cases _ _ _ _ _ _ H) as
    [(ES & -> & ->)|[(NS & msg & Ev & ->)|[(NS & tree' & Ev & NE & ->)
                                          |(NS & tree' & Ev & _ & ->)]]];
    try discriminate.
  injection T as ->.
  apply (proj1 eval_derives _ _ _ _ Ev tree q eq_refl).
Qed.

Lemma Parse_tree_is_a_derivation_witness :
  exists r q tree,
    Parse 6 defaultParser "7" false = Some (r, q) /\
    Tree r = Some tree /\
    expands (grammar defaultParser) (StartSymbol (grammar defaultParser)) tree.
Proof.
  destruct (Parse 6 defaultParser "7" false) as [[r q]|] eqn:E;
    [|vm_compute in E; discriminate].
  destruct (Tree r) as [tree|] eqn:T;
    [|vm_compute in E; injection E as <- _; discriminate].
  exists r, q, tree. split; [reflexivity|]. split; [exact T|].
  exact (Parse_tree_is_a_derivation 6 defaultParser "7" false r q tree E T).
Defined.

End Derivations.

(* ===================================================================== *)
(** * The text form of a tree *)
(* ===================================================================== *)

Section TreeText.
Import types_go parser_go replay notions names_go scenarios.

Lemma newlines_app (a b : string) : newlines (a +:+ b) = newlines a + newlines b.
Proof.
  induction a as [|c a IH]; simpl; [reflexivity|]. rewrite IH. lia.
Qed.

(** X23.  [TreeToString] writes one line for each node.  When neither the
    indentation nor any label of the tree holds a line feed, the text of the
    tree has as many line feeds as the tree has nodes, at every depth of
    indentation. *)
Theorem TreeToString_one_line_per_node (t : TreeNode) (indent : string) :
  newlines indent = 0 -> oneLineLabels t = true ->
  newlines (TreeToString t indent) = size t.
Proof.
  intros HI HL. revert indent HI HL.
  induction t as [i label cs isT IH] using TreeNode_forall_ind.
  intros indent HI HL.
  cbn [TreeToString size oneLineLabels Label Children IsTerminal] in *.
  apply andb_true_iff in HL as [HL HC]. apply Nat.eqb_eq in HL.
  rewrite !newlines_app, HI.
  assert (newlines (if isT
                    then "'" +:+ label +:+ "'" +:+ grammar_go.newline
                    else "<" +:+ label +:+ ">" +:+ grammar_go.newline) = 1) as ->.
  { destruct isT; rewrite !newlines_app, HL; reflexivity. }
  simpl. f_equal.
  induction IH as [|c cs Pc _ IHcs]; [reflexivity|].
  apply andb_true_iff in HC as [HC1 HC2].
  rewrite newlines_app, IHcs by exact HC2. f_equal.
  apply Pc; [|exact HC1]. rewrite newlines_app, HI. reflexivity.
Qed.

Lemma TreeToString_one_line_per_node_witness :
  exists r q tree,
    Parse 6 defaultParser "7" false = Some (r, q) /\ Tree r = Some tree /\
    size tree = 8 /\
    newlines (TreeToString tree "  ") = size tree.
Proof.
  destruct (Parse 6 defaultParser "7" false) as [[r q]|] eqn:E;
    [|vm_compute in E; discriminate].
  destruct (Tree r) as [tree|] eqn:T;
    [|vm_compute in E; injection E as <- _; discriminate].
  assert (size tree = 8 /\ oneLineLabels tree = true) as [HS HL].
  { vm_compute in E. injection E as <- _. simpl in T. injection T as <-.
    split; reflexivity. }
  exists r, q, tree. split; [reflexivity|]. split; [exact T|].
  split; [exact HS|].
  exact (TreeToString_one_line_per_node tree "  " eq_refl HL).
Defined.

End TreeText.
